(** * Stable-fluids solver (A2 fluid demo, [main.js]): embedding and properties

    The solver of the repository is a JavaScript program over [Float32Array]
    buffers.  It is embedded here as it is written:

    - a JavaScript number is an IEEE 754 binary64 value, Rocq's primitive
      [float]; [+], [-], [*], [/], [<] are the primitive operations;
    - a [Float32Array] is a list of numbers; a store rounds the number to
      binary32 ([fround], what [Math.fround] computes), a load of a missing
      element yields [undefined], which the arithmetic of the solver turns
      into [nan]; a store to a missing element does nothing;
    - loop counters and the cell offsets computed from them are integers
      ([Z]); the offsets [advect] computes from [Math.floor] are numbers and
      are kept as numbers;
    - the nine module-level buffers form a record [State]; rebinding
      ([[u, uPrev] = [uPrev, u]]) exchanges two fields of the record.  No
      routine is ever called with the buffer it writes also passed as a buffer
      it reads, so passing buffers by value loses nothing;
    - the listeners and [update] are functions on the variables of the module;
      an event carries what the browser supplies (the coordinates, the time
      stamp, the number the string of the slider converts to).  Of [draw],
      which only paints, the colour level of a cell is embedded. *)

From stdpp Require Import list.
From Stdlib Require Import ZArith Lia Bool Floats.

Local Open Scope Z_scope.

(** ** Numbers *)

(** An integer as a number (exact below 2^53). *)
Definition Z2F (z : Z) : float := SF2Prim (binary_normalize prec emax z 0 false).

(** Rounding to binary32, ties to even: the conversion a [Float32Array]
    applies to every stored number. *)
Definition fround (x : float) : float :=
  match Prim2SF x with
  | S754_finite s m e => SF2Prim (binary_round 24 128 s m e)
  | _ => x
  end.

(** The integer part [floor (m * 2^e)] of a finite number. *)
Definition floorZ (s : bool) (m : positive) (e : Z) : Z :=
  Z.shiftl (cond_Zopp s (Z.pos m)) e.

(** [Math.floor]. *)
Definition Math_floor (x : float) : float :=
  match Prim2SF x with
  | S754_finite s m e => Z2F (floorZ s m e)
  | _ => x
  end.

(** The element a number designates when used as a property key of a typed
    array: its value when it is integral, none otherwise ([nan], infinities,
    fractions). *)
Definition toIndex (k : float) : option Z :=
  match Prim2SF k with
  | S754_zero _ => Some 0
  | S754_finite s m e =>
      let z := floorZ s m e in
      if Z.shiftl z (- e) =? cond_Zopp s (Z.pos m) then Some z else None
  | _ => None
  end.

Arguments Z2F : simpl never.
Arguments fround : simpl never.
Arguments Math_floor : simpl never.
Arguments toIndex : simpl never.

(** ** Typed arrays *)

Abbreviation array := (list float).

(** [x[k]] read as a number, [k] an integer. *)
Definition load (x : array) (k : Z) : float :=
  if k <? 0 then nan else default nan (x !! Z.to_nat k).

(** [x[k] = v], [k] an integer. *)
Definition store (x : array) (k : Z) (v : float) : array :=
  if k <? 0 then x else <[Z.to_nat k := fround v]> x.

(** [x[k]] read as a number, [k] a number. *)
Definition loadF (x : array) (k : float) : float :=
  match toIndex k with
  | Some z => load x z
  | None => nan
  end.

(** ** Loops *)

(** [for_from n i body s]: [n] iterations of [body], the counter starting at
    [i] and incremented after each. *)
Fixpoint for_from {T : Type} (n : nat) (i : Z) (body : Z → T → T) (s : T) : T :=
  match n with
  | O => s
  | S n' => for_from n' (i + 1) body (body i s)
  end.

(** [for (let i = lo; i <= hi; ++i) body]. *)
Definition for_range {T : Type} (lo hi : Z) (body : Z → T → T) (s : T) : T :=
  for_from (Z.to_nat (hi + 1 - lo)) lo body s.

(** ** Constants of the solver *)

Definition numCells : Z := 50.
Definition size : Z := (numCells + 2) * (numCells + 2).
Definition numSubSteps : Z := 8.
Definition dt : float := (1 / (Z2F numSubSteps * 30))%float.

Definition index (i j : Z) : Z := i + (numCells + 2) * j.

(** [index] applied to numbers, as [advect] does. *)
Definition indexF (i j : float) : float := (i + Z2F (numCells + 2) * j)%float.

(** [new Float32Array(size)]. *)
Definition zeros : array := replicate (Z.to_nat size) 0%float.

Inductive boundaryType := continuous | left_right_walls | top_bottom_walls.

(** ** The solver *)

Definition addSource (x s : array) : array :=
  for_range 0 (size - 1) (fun i x => store x i (load x i + dt * load s i)%float) x.

Definition setBoundary_top_bottom (boundaryType : boundaryType) (i : Z) (x : array) : array :=
  match boundaryType with
  | top_bottom_walls =>
      let x := store x (index i 0) (- load x (index i 1))%float in
      store x (index i (numCells + 1)) (- load x (index i numCells))%float
  | _ =>
      let x := store x (index i 0) (load x (index i 1)) in
      store x (index i (numCells + 1)) (load x (index i numCells))
  end.

Definition setBoundary_left_right (boundaryType : boundaryType) (j : Z) (x : array) : array :=
  match boundaryType with
  | left_right_walls =>
      let x := store x (index 0 j) (- load x (index 1 j))%float in
      store x (index (numCells + 1) j) (- load x (index numCells j))%float
  | _ =>
      let x := store x (index 0 j) (load x (index 1 j)) in
      store x (index (numCells + 1) j) (load x (index numCells j))
  end.

Definition setBoundary_corners (x : array) : array :=
  let x := store x (index 0 0)
             (0.5 * (load x (index 0 1) + load x (index 1 0)))%float in
  let x := store x (index (numCells + 1) 0)
             (0.5 * (load x (index (numCells + 1) 1) + load x (index numCells 0)))%float in
  let x := store x (index 0 (numCells + 1))
             (0.5 * (load x (index 0 numCells) + load x (index 1 (numCells + 1))))%float in
  store x (index (numCells + 1) (numCells + 1))
    (0.5 * (load x (index (numCells + 1) numCells)
            + load x (index numCells (numCells + 1))))%float.

Definition setBoundary (x : array) (boundaryType : boundaryType) : array :=
  let x := for_range 1 numCells (setBoundary_top_bottom boundaryType) x in
  let x := for_range 1 numCells (setBoundary_left_right boundaryType) x in
  setBoundary_corners x.

(** [0.0001], the nearest binary64 value. *)
Definition diffusion_rate : float := 0x1.a36e2eb1c432dp-14%float.

(** The cell width [h = 1.0 / numCells] of [diffuse] and [project]. *)
Definition h : float := (1 / Z2F numCells)%float.

(** The coefficient [a] of [diffuse]. *)
Definition diffuse_a : float := ((dt * diffusion_rate) / (h * h))%float.

(** The body of the inner loop of [diffuse]: the two assignments to
    [x[index(i, j)]]. *)
Definition diffuse_cell (x_0 : array) (i j : Z) (x : array) : array :=
  let x := store x (index i j)
             (load x_0 (index i j)
              + diffuse_a * (load x (index (i - 1) j) + load x (index (i + 1) j)
                             + load x (index i (j - 1)) + load x (index i (j + 1))))%float in
  store x (index i j) (load x (index i j) / (1 + 4 * diffuse_a))%float.

Definition diffuse_sweep (x_0 : array) (x : array) : array :=
  for_range 1 numCells (fun i => for_range 1 numCells (fun j => diffuse_cell x_0 i j)) x.

Definition diffuse (x x_0 : array) (boundaryType : boundaryType) : array :=
  for_range 0 (4 - 1) (fun k x => setBoundary (diffuse_sweep x_0 x) boundaryType) x.

(** The back-traced, clamped coordinate of [advect]: [c] is the cell
    coordinate, [w] the velocity component read at the cell. *)
Definition backtrace (c : Z) (w : float) : float :=
  let p := (Z2F c - dt * w * Z2F numCells)%float in
  let p := if (p <? 0.5)%float then 0.5%float else p in
  let p := if (Z2F numCells + 0.5 <? p)%float then (Z2F numCells + 0.5)%float else p in
  p.

(** The bilinear interpolation of [x_0] at the point [(p_x, p_y)]. *)
Definition bilinear (x_0 : array) (p_x p_y : float) : float :=
  let i0 := Math_floor p_x in
  let i1 := (i0 + 1)%float in
  let j0 := Math_floor p_y in
  let j1 := (j0 + 1)%float in
  let s1 := (p_x - i0)%float in
  let s0 := (1 - s1)%float in
  let t1 := (p_y - j0)%float in
  let t0 := (1 - t1)%float in
  (s0 * (t0 * loadF x_0 (indexF i0 j0) + t1 * loadF x_0 (indexF i0 j1))
   + s1 * (t0 * loadF x_0 (indexF i1 j0) + t1 * loadF x_0 (indexF i1 j1)))%float.

Definition advect_cell (x_0 u_0 v_0 : array) (i j : Z) (x : array) : array :=
  let p_x := backtrace i (load u_0 (index i j)) in
  let p_y := backtrace j (load v_0 (index i j)) in
  store x (index i j) (bilinear x_0 p_x p_y).

Definition advect_pass (x x_0 u_0 v_0 : array) : array :=
  for_range 1 numCells (fun i => for_range 1 numCells (fun j => advect_cell x_0 u_0 v_0 i j)) x.

Definition advect (x x_0 u_0 v_0 : array) (boundaryType : boundaryType) : array :=
  setBoundary (advect_pass x x_0 u_0 v_0) boundaryType.

(** The divergence [project] stores in [div[index(i, j)]]. *)
Definition divergence (u v : array) (i j : Z) : float :=
  ((load u (index (i + 1) j) - load u (index (i - 1) j)) / -2 * h
   + (load v (index i (j + 1)) - load v (index i (j - 1))) / -2 * h)%float.

Definition project_div (u v : array) (div : array) : array :=
  for_range 1 numCells (fun i => for_range 1 numCells (fun j div =>
    store div (index i j) (divergence u v i j))) div.

Definition project_cell (div : array) (i j : Z) (p : array) : array :=
  store p (index i j)
    ((load p (index (i - 1) j) + load p (index (i + 1) j)
      + load p (index i (j - 1)) + load p (index i (j + 1))
      + load div (index i j)) / 4)%float.

Definition project_sweep (div : array) (p : array) : array :=
  for_range 1 numCells (fun i => for_range 1 numCells (fun j => project_cell div i j)) p.

Definition project_grad (p : array) (i j : Z) (uv : array * array) : array * array :=
  let '(u, v) := uv in
  let u := store u (index i j)
             (load u (index i j)
              - (load p (index (i + 1) j) - load p (index (i - 1) j)) / (2 * h))%float in
  let v := store v (index i j)
             (load v (index i j)
              - (load p (index i (j + 1)) - load p (index i (j - 1))) / (2 * h))%float in
  (u, v).

(** [project(u, v, p, div)]: the four buffers after the call. *)
Definition project (u v p div : array) : array * array * array * array :=
  let p := for_range 0 (size - 1) (fun i p => store p i 0%float) p in
  let div := project_div u v div in
  let div := setBoundary div continuous in
  let p := for_range 0 (10 - 1) (fun k p => setBoundary (project_sweep div p) continuous) p in
  let '(u, v) :=
    for_range 1 numCells (fun i => for_range 1 numCells (fun j => project_grad p i j)) (u, v) in
  let u := setBoundary u left_right_walls in
  let v := setBoundary v top_bottom_walls in
  (u, v, p, div).

(** The module-level buffers. *)
Record State := mkState {
  u : array; v : array; d : array;
  uPrev : array; vPrev : array; dPrev : array;
  dSource : array; uSource : array; vSource : array
}.

Definition densityStep (s : State) : State :=
  let 'mkState u v d uPrev vPrev dPrev dSource uSource vSource := s in
  let d := addSource d dSource in
  let '(d, dPrev) := (dPrev, d) in
  let d := diffuse d dPrev continuous in
  let '(d, dPrev) := (dPrev, d) in
  let d := advect d dPrev u v continuous in
  mkState u v d uPrev vPrev dPrev dSource uSource vSource.

Definition velocityStep (s : State) : State :=
  let 'mkState u v d uPrev vPrev dPrev dSource uSource vSource := s in
  let u := addSource u uSource in
  let v := addSource v vSource in
  let '(u, uPrev) := (uPrev, u) in
  let '(v, vPrev) := (vPrev, v) in
  let u := diffuse u uPrev left_right_walls in
  let v := diffuse v vPrev top_bottom_walls in
  let '(u, v, uPrev, vPrev) := project u v uPrev vPrev in
  let '(u, uPrev) := (uPrev, u) in
  let '(v, vPrev) := (vPrev, v) in
  let u := advect u uPrev uPrev vPrev left_right_walls in
  let v := advect v vPrev uPrev vPrev top_bottom_walls in
  let '(u, v, uPrev, vPrev) := project u v uPrev vPrev in
  mkState u v d uPrev vPrev dPrev dSource uSource vSource.

Definition step (s : State) : State := densityStep (velocityStep s).

(** The buffers as the module creates them. *)
Definition initial : State :=
  mkState zeros zeros zeros zeros zeros zeros zeros zeros zeros.

(** ** [Math.min], [Math.max], [clamp] *)

(** The two zeros, told apart. *)
Definition is_pos_zero (x : float) : bool :=
  match Prim2SF x with S754_zero false => true | _ => false end.

Definition is_neg_zero (x : float) : bool :=
  match Prim2SF x with S754_zero true => true | _ => false end.

(** [Math.min(x, y)]: [nan] when an argument is [nan]; [-0] is below [+0]. *)
Definition Math_min (x y : float) : float :=
  if is_nan x || is_nan y then nan
  else if is_neg_zero y && is_pos_zero x then y
  else if (y <? x)%float then y else x.

(** [Math.max(x, y)]: [nan] when an argument is [nan]; [+0] is above [-0]. *)
Definition Math_max (x y : float) : float :=
  if is_nan x || is_nan y then nan
  else if is_pos_zero y && is_neg_zero x then y
  else if (x <? y)%float then y else x.

(** [clamp(x, x_min, x_max)] = [Math.max(x_min, Math.min(x, x_max))]. *)
Definition clamp (x x_min x_max : float) : float :=
  Math_max x_min (Math_min x x_max).

(** [0.08], the nearest binary64 value. *)
Definition scale_density : float := 0x1.47ae147ae147bp-4%float.

(** The number [draw] passes to the colour map for the cell [(i, j)]:
    [clamp(d[index(i, j)] * scale, 0.0, 1.0)] with [scale = 0.08]. *)
Definition draw_level (d : array) (i j : Z) : float :=
  clamp (load d (index i j) * scale_density) 0 1.

(** ** The page: mouse, slider and animation frame *)

(** [Math.round]: the nearest integer, ties towards +infinity; the sign of a
    zero result is the sign of the argument. *)
Definition Math_round (x : float) : float :=
  match Prim2SF x with
  | S754_finite s m e =>
      if 0 <=? e then x
      else
        let z := Z.shiftr (2 * cond_Zopp s (Z.pos m) + 2 ^ (- e)) (1 - e) in
        if z =? 0 then (if s then neg_zero else zero) else Z2F z
  | _ => x
  end.

(** [x | 0]: the conversion [ToInt32], as a number. *)
Definition ToInt32 (x : float) : float :=
  match Prim2SF x with
  | S754_finite s m e =>
      let k := cond_Zopp s (Z.shiftl (Z.pos m) e) mod 2 ^ 32 in
      Z2F (if 2 ^ 31 <=? k then k - 2 ^ 32 else k)
  | _ => 0%float
  end.

(** [x[k] = v], [k] a number: a key that designates no element is ignored. *)
Definition storeF (x : array) (k : float) (v : float) : array :=
  match toIndex k with
  | Some z => store x z v
  | None => x
  end.

(** [x.fill(0.0)]. *)
Definition fill0 (x : array) : array := replicate (length x) 0%float.

(** What the page reads from the canvas element. *)
Record Canvas := mkCanvas {
  width : float; height : float; offsetLeft : float; offsetTop : float
}.

(** The mouse variables of the module; [prevTimestamp] is [undefined] until
    the first event. *)
Record Mouse := mkMouse {
  mouseX : float; mouseY : float;
  mouseSpeedX : float; mouseSpeedY : float;
  prevMouseX : float; prevMouseY : float;
  prevTimestamp : option float
}.

(** [if (prevTimestamp)]: [undefined], zero and [nan] are false. *)
Definition truthy (t : option float) : bool :=
  match t with
  | Some t => negb (is_zero t || is_nan t)
  | None => false
  end.

(** The listener of [mousemove]: [clientX], [clientY] are the coordinates of
    the event, [timestamp] is [new Date().getTime()]. *)
Definition mouse_move (cv : Canvas) (clientX clientY timestamp : float) (m : Mouse) : Mouse :=
  let mouseX := (clientX - offsetLeft cv)%float in
  let mouseY := (clientY - offsetTop cv)%float in
  let '(speedX, speedY) :=
    match prevTimestamp m with
    | Some t =>
        if truthy (Some t) then
          let timeDiff := (timestamp - t)%float in
          (ToInt32 ((mouseX - prevMouseX m) / timeDiff),
           ToInt32 ((mouseY - prevMouseY m) / timeDiff))
        else (mouseSpeedX m, mouseSpeedY m)
    | None => (mouseSpeedX m, mouseSpeedY m)
    end in
  mkMouse mouseX mouseY speedX speedY mouseX mouseY (Some timestamp).

(** The listener of [touchmove]: [touch] is [event.touches[0]]; when it is
    missing the listener throws before its first assignment. *)
Definition touch_move (cv : Canvas) (touch : option (float * float)) (timestamp : float)
    (m : Mouse) : Mouse :=
  match touch with
  | Some (clientX, clientY) => mouse_move cv clientX clientY timestamp m
  | None => m
  end.

(** The number a boolean converts to. *)
Definition bool_number (b : bool) : float := if b then 1%float else 0%float.

(** [a < b < c], which JavaScript reads as [(a < b) < c]. *)
Definition chained_lt (a b c : float) : bool := (bool_number (a <? b) <? c)%float.

(** The condition of the [if] of [update]. *)
Definition update_guard (cv : Canvas) (m : Mouse) : bool :=
  chained_lt 50 (prevMouseX m) (width cv - 50)
  && chained_lt 50 (prevMouseY m) (height cv - 50).

(** The coordinate of the [i]-th point of [update]:
    [Math.round(prev + (now - prev) * (i / 5))]. *)
Definition inject_point (prev now : float) (i : Z) : float :=
  Math_round (prev + (now - prev) * (Z2F i / 5)).

(** The body of the loop of [update] after [x] and [y] are computed: the
    eleven assignments to the source buffers. *)
Definition update_stamp (x y speedX speedY : float) (src : array * array * array)
  : array * array * array :=
  let '(dSource, uSource, vSource) := src in
  let dSource := storeF dSource (indexF x y) 1000 in
  let uSource := storeF uSource (indexF x y) speedX in
  let uSource := storeF uSource (indexF (x - 1) y) speedX in
  let uSource := storeF uSource (indexF (x + 1) y) speedX in
  let uSource := storeF uSource (indexF x (y - 1)) speedX in
  let uSource := storeF uSource (indexF x (y + 1)) speedX in
  let vSource := storeF vSource (indexF x y) speedY in
  let vSource := storeF vSource (indexF (x - 1) y) speedY in
  let vSource := storeF vSource (indexF (x + 1) y) speedY in
  let vSource := storeF vSource (indexF x (y - 1)) speedY in
  let vSource := storeF vSource (indexF x (y + 1)) speedY in
  (dSource, uSource, vSource).

(** The branch of the [if] of [update]; [fluidSpeed] is the number the
    variable converts to in the products. *)
Definition update_inject (cv : Canvas) (fluidSpeed : float) (m : Mouse)
    (src : array * array * array) : array * array * array :=
  let nowX := Math_round ((Z2F numCells * mouseX m) / width cv) in
  let nowY := Math_round ((Z2F numCells * mouseY m) / height cv) in
  let prevX := Math_round ((Z2F numCells * prevMouseX m) / width cv) in
  let prevY := Math_round ((Z2F numCells * prevMouseY m) / height cv) in
  for_range 0 (10 - 1) (fun i src =>
    let x := inject_point prevX nowX i in
    let y := inject_point prevY nowY i in
    update_stamp x y (mouseSpeedX m * fluidSpeed) (mouseSpeedY m * fluidSpeed) src) src.

(** [update], on the buffers: the sources are reset, written around the mouse
    when the condition holds, and [numSubSteps] ticks follow.  The drawing and
    the request of the next frame do not touch the buffers. *)
Definition update (cv : Canvas) (fluidSpeed : float) (m : Mouse) (s : State) : State :=
  let src := (fill0 (dSource s), fill0 (uSource s), fill0 (vSource s)) in
  let '(dSource, uSource, vSource) :=
    if update_guard cv m then update_inject cv fluidSpeed m src else src in
  for_range 0 (numSubSteps - 1) (fun _ => step)
    (mkState (u s) (v s) (d s) (uPrev s) (vPrev s) (dPrev s) dSource uSource vSource).

(** The variables of the module. *)
Record App := mkApp { mouse : Mouse; fluidSpeed : float; fields : State }.

(** What the browser delivers: a mouse or touch event, an input of the
    slider ([value]: the number the string the listener stores converts to),
    an animation frame. *)
Inductive event :=
  | MouseMove (clientX clientY timestamp : float)
  | TouchMove (touch : option (float * float)) (timestamp : float)
  | SliderInput (value : float)
  | Frame.

Definition handle (cv : Canvas) (a : App) (e : event) : App :=
  match e with
  | MouseMove clientX clientY timestamp =>
      mkApp (mouse_move cv clientX clientY timestamp (mouse a)) (fluidSpeed a) (fields a)
  | TouchMove touch timestamp =>
      mkApp (touch_move cv touch timestamp (mouse a)) (fluidSpeed a) (fields a)
  | SliderInput value => mkApp (mouse a) value (fields a)
  | Frame => mkApp (mouse a) (fluidSpeed a) (update cv (fluidSpeed a) (mouse a) (fields a))
  end.

(** The module as loaded. *)
Definition start : App := mkApp (mkMouse 0 0 0 0 0 0 None) 500 initial.

Definition run (cv : Canvas) (events : list event) : App := fold_left (handle cv) events start.

(** * Predicates and auxiliary functions of the properties *)

(** ** Buffers and the grid *)

(** A buffer created by [new Float32Array(size)]. *)
Definition wf (x : array) : Prop := length x = Z.to_nat size.

(** The elements of a [Float32Array] are binary32 values. *)
Definition is_float32 (x : array) : Prop := Forall (fun w => fround w = w) x.

Definition in_grid (a b : Z) : Prop := 0 ≤ a ≤ numCells + 1 ∧ 0 ≤ b ≤ numCells + 1.
Definition interior (a b : Z) : Prop := 1 ≤ a ≤ numCells ∧ 1 ≤ b ≤ numCells.

(** The cell [(a, b)] of a buffer. *)
Definition cells (x : array) (a b : Z) : float := load x (index a b).

(** The grid cells other than the four corners. *)
Definition noncorner (a b : Z) : Prop :=
  in_grid a b ∧ (1 ≤ a ≤ numCells ∨ 1 ≤ b ≤ numCells).

(** ** The cells [setBoundary] leaves, in closed form *)

Definition flip (b : bool) (w : float) : float := if b then (- w)%float else w.

Definition wallTB (bt : boundaryType) : bool :=
  match bt with top_bottom_walls => true | _ => false end.

Definition wallLR (bt : boundaryType) : bool :=
  match bt with left_right_walls => true | _ => false end.

(** What a ghost cell receives from the interior cell [w] next to it. *)
Definition ghost (b : bool) (w : float) : float := fround (flip b w).

(** The cells after the first loop of [setBoundary], from the cells [F]
    before it; after the second loop; after the four corner assignments. *)
Definition tb_cell (bt : boundaryType) (F : Z → Z → float) (a b : Z) : float :=
  if (1 <=? a) && (a <=? numCells) then
    if b =? 0 then ghost (wallTB bt) (F a 1)
    else if b =? numCells + 1 then ghost (wallTB bt) (F a numCells)
    else F a b
  else F a b.

Definition lr_cell (bt : boundaryType) (F : Z → Z → float) (a b : Z) : float :=
  if (1 <=? b) && (b <=? numCells) then
    if a =? 0 then ghost (wallLR bt) (F 1 b)
    else if a =? numCells + 1 then ghost (wallLR bt) (F numCells b)
    else F a b
  else F a b.

Definition corner_cell (F : Z → Z → float) (a b : Z) : float :=
  if (a =? 0) && (b =? 0) then
    fround (0.5 * (F 0 1 + F 1 0))
  else if (a =? numCells + 1) && (b =? 0) then
    fround (0.5 * (F (numCells + 1) 1 + F numCells 0))
  else if (a =? 0) && (b =? numCells + 1) then
    fround (0.5 * (F 0 numCells + F 1 (numCells + 1)))
  else if (a =? numCells + 1) && (b =? numCells + 1) then
    fround (0.5 * (F (numCells + 1) numCells + F numCells (numCells + 1)))
  else F a b.

Definition bnd (bt : boundaryType) (F : Z → Z → float) : Z → Z → float :=
  corner_cell (lr_cell bt (tb_cell bt F)).

(** The number [0.5], unpacked. *)


(** ** The tick as the specification orders it

    Step 1 injects the three sources; steps 2 to 5 are the velocity phase;
    step 6 is the density phase, without any injection. *)





(** ** Sweeps *)

(** The double loop that assigns [g i j] to every interior cell [(i, j)]. *)
Definition fill_pass (g : Z → Z → float) (x : array) : array :=
  for_range 1 numCells (fun i =>
    for_range 1 numCells (fun j y => store y (index i j) (g i j))) x.

(** The interior cells in the order a sweep visits them: [i] in the outer
    loop, [j] in the inner loop. *)
Definition visiting_order : list (Z * Z) :=
  flat_map (fun i => map (fun j => (i, j)) (seqZ 1 numCells)) (seqZ 1 numCells).

(** One Gauss-Seidel sweep: the cells relaxed one after the other, each on the
    buffer the previous relaxations left. *)
Definition gauss_seidel_sweep (x_0 : array) (x : array) : array :=
  fold_left (fun y '(i, j) => diffuse_cell x_0 i j y) visiting_order x.

(** ** Zero fields, tolerance *)

(** A number that compares equal to zero: [+0] or [-0]. *)
Definition zeroish (w : float) : Prop := w = zero ∨ w = neg_zero.

(** A buffer of the right size whose cells all compare equal to zero. *)
Definition zero_field (x : array) : Prop := wf x ∧ Forall zeroish x.

(** All nine buffers are zero fields. *)
Definition zero_state (s : State) : Prop :=
  zero_field (u s) ∧ zero_field (v s) ∧ zero_field (d s) ∧
  zero_field (uPrev s) ∧ zero_field (vPrev s) ∧ zero_field (dPrev s) ∧
  zero_field (dSource s) ∧ zero_field (uSource s) ∧ zero_field (vSource s).

Definition no_nan (x : array) : Prop := Forall (fun w => is_nan w = false) x.

Definition nans : array := replicate (Z.to_nat size) nan.




(** ** Checks on small integers, decided by evaluation *)

Definition check_coord (c : Z) : bool :=
  Leibniz.eqb (backtrace c zero) (Z2F c) && Leibniz.eqb (backtrace c neg_zero) (Z2F c)
  && Leibniz.eqb (Math_floor (Z2F c)) (Z2F c) && Leibniz.eqb (Z2F c - Z2F c) zero.

Definition check_succ (z : Z) : bool := Leibniz.eqb (Z2F z + 1) (Z2F (z + 1)).

Definition check_index (a b : Z) : bool :=
  match toIndex (indexF (Z2F a) (Z2F b)) with
  | Some k => k =? index a b
  | None => false
  end.

Definition check_finite (c : Z) : bool :=
  match Prim2SF (Z2F c) with
  | S754_finite _ _ _ => true
  | _ => false
  end.

(** ** Checked execution

    The same routines with every element access checked: a load or a store
    outside the buffer ([k < 0], [k >= length], or a key that is no integer)
    makes the routine fail with [None], where JavaScript yields [undefined] or
    ignores the store. *)

Definition loadC (x : array) (k : Z) : option float :=
  if k <? 0 then None else x !! Z.to_nat k.

Definition storeC (x : array) (k : Z) (w : float) : option array :=
  if (0 <=? k) && (k <? Z.of_nat (length x)) then Some (store x k w) else None.

Definition loadFC (x : array) (k : float) : option float :=
  match toIndex k with
  | Some z => loadC x z
  | None => None
  end.

Definition for_rangeC {T : Type} (lo hi : Z) (body : Z → T → option T) (s : T) : option T :=
  for_range lo hi (fun i o => o ≫= body i) (Some s).

Definition setBoundary_top_bottomC (boundaryType : boundaryType) (i : Z) (x : array)
  : option array :=
  match boundaryType with
  | top_bottom_walls =>
      a ← loadC x (index i 1);
      x ← storeC x (index i 0) (- a)%float;
      b ← loadC x (index i numCells);
      storeC x (index i (numCells + 1)) (- b)%float
  | _ =>
      a ← loadC x (index i 1);
      x ← storeC x (index i 0) a;
      b ← loadC x (index i numCells);
      storeC x (index i (numCells + 1)) b
  end.

Definition setBoundary_left_rightC (boundaryType : boundaryType) (j : Z) (x : array)
  : option array :=
  match boundaryType with
  | left_right_walls =>
      a ← loadC x (index 1 j);
      x ← storeC x (index 0 j) (- a)%float;
      b ← loadC x (index numCells j);
      storeC x (index (numCells + 1) j) (- b)%float
  | _ =>
      a ← loadC x (index 1 j);
      x ← storeC x (index 0 j) a;
      b ← loadC x (index numCells j);
      storeC x (index (numCells + 1) j) b
  end.

Definition setBoundary_cornersC (x : array) : option array :=
  a ← loadC x (index 0 1); b ← loadC x (index 1 0);
  x ← storeC x (index 0 0) (0.5 * (a + b))%float;
  a ← loadC x (index (numCells + 1) 1); b ← loadC x (index numCells 0);
  x ← storeC x (index (numCells + 1) 0) (0.5 * (a + b))%float;
  a ← loadC x (index 0 numCells); b ← loadC x (index 1 (numCells + 1));
  x ← storeC x (index 0 (numCells + 1)) (0.5 * (a + b))%float;
  a ← loadC x (index (numCells + 1) numCells); b ← loadC x (index numCells (numCells + 1));
  storeC x (index (numCells + 1) (numCells + 1)) (0.5 * (a + b))%float.

Definition setBoundaryC (x : array) (boundaryType : boundaryType) : option array :=
  x ← for_rangeC 1 numCells (setBoundary_top_bottomC boundaryType) x;
  x ← for_rangeC 1 numCells (setBoundary_left_rightC boundaryType) x;
  setBoundary_cornersC x.

Definition diffuse_cellC (x_0 : array) (i j : Z) (x : array) : option array :=
  c ← loadC x_0 (index i j);
  w ← loadC x (index (i - 1) j); e ← loadC x (index (i + 1) j);
  n ← loadC x (index i (j - 1)); s ← loadC x (index i (j + 1));
  x ← storeC x (index i j) (c + diffuse_a * (w + e + n + s))%float;
  c ← loadC x (index i j);
  storeC x (index i j) (c / (1 + 4 * diffuse_a))%float.

Definition diffuseC (x x_0 : array) (boundaryType : boundaryType) : option array :=
  for_rangeC 0 (4 - 1) (fun k x =>
    x ← for_rangeC 1 numCells (fun i =>
           for_rangeC 1 numCells (fun j => diffuse_cellC x_0 i j)) x;
    setBoundaryC x boundaryType) x.

Definition bilinearC (x_0 : array) (p_x p_y : float) : option float :=
  let i0 := Math_floor p_x in
  let i1 := (i0 + 1)%float in
  let j0 := Math_floor p_y in
  let j1 := (j0 + 1)%float in
  let s1 := (p_x - i0)%float in
  let s0 := (1 - s1)%float in
  let t1 := (p_y - j0)%float in
  let t0 := (1 - t1)%float in
  a ← loadFC x_0 (indexF i0 j0); b ← loadFC x_0 (indexF i0 j1);
  c ← loadFC x_0 (indexF i1 j0); d ← loadFC x_0 (indexF i1 j1);
  Some (s0 * (t0 * a + t1 * b) + s1 * (t0 * c + t1 * d))%float.

Definition advect_cellC (x_0 u_0 v_0 : array) (i j : Z) (x : array) : option array :=
  wu ← loadC u_0 (index i j);
  wv ← loadC v_0 (index i j);
  r ← bilinearC x_0 (backtrace i wu) (backtrace j wv);
  storeC x (index i j) r.

Definition advectC (x x_0 u_0 v_0 : array) (boundaryType : boundaryType) : option array :=
  x ← for_rangeC 1 numCells (fun i =>
         for_rangeC 1 numCells (fun j => advect_cellC x_0 u_0 v_0 i j)) x;
  setBoundaryC x boundaryType.

Definition project_div_cellC (u v : array) (i j : Z) (div : array) : option array :=
  e ← loadC u (index (i + 1) j); w ← loadC u (index (i - 1) j);
  s ← loadC v (index i (j + 1)); n ← loadC v (index i (j - 1));
  storeC div (index i j) ((e - w) / -2 * h + (s - n) / -2 * h)%float.

Definition project_cellC (div : array) (i j : Z) (p : array) : option array :=
  w ← loadC p (index (i - 1) j); e ← loadC p (index (i + 1) j);
  n ← loadC p (index i (j - 1)); s ← loadC p (index i (j + 1));
  dv ← loadC div (index i j);
  storeC p (index i j) ((w + e + n + s + dv) / 4)%float.

Definition project_gradC (p : array) (i j : Z) (uv : array * array)
  : option (array * array) :=
  let '(u, v) := uv in
  c ← loadC u (index i j);
  e ← loadC p (index (i + 1) j); w ← loadC p (index (i - 1) j);
  u ← storeC u (index i j) (c - (e - w) / (2 * h))%float;
  c ← loadC v (index i j);
  s ← loadC p (index i (j + 1)); n ← loadC p (index i (j - 1));
  v ← storeC v (index i j) (c - (s - n) / (2 * h))%float;
  Some (u, v).

Definition projectC (u v p div : array) : option (array * array * array * array) :=
  p ← for_rangeC 0 (size - 1) (fun i p => storeC p i 0%float) p;
  div ← for_rangeC 1 numCells (fun i =>
           for_rangeC 1 numCells (fun j => project_div_cellC u v i j)) div;
  div ← setBoundaryC div continuous;
  p ← for_rangeC 0 (10 - 1) (fun k p =>
         p ← for_rangeC 1 numCells (fun i =>
                for_rangeC 1 numCells (fun j => project_cellC div i j)) p;
         setBoundaryC p continuous) p;
  uv ← for_rangeC 1 numCells (fun i =>
          for_rangeC 1 numCells (fun j => project_gradC p i j)) (u, v);
  u ← setBoundaryC uv.1 left_right_walls;
  v ← setBoundaryC uv.2 top_bottom_walls;
  Some (u, v, p, div).

(** ** Auxiliary definitions of the further properties *)

(** The place of a number that is not [nan] in the order of the numbers:
    its class (infinities, negative, zero, positive), then its exponent and
    its mantissa. *)
Definition key (f : spec_float) : Z * Z * Z :=
  match f with
  | S754_infinity s => (if s then -2 else 2, 0, 0)
  | S754_finite s m e => if s then (-1, - e, Z.neg m) else (1, e, Z.pos m)
  | _ => (0, 0, 0)
  end.

(** The lexicographic comparison of two keys, and the strict order it
    decides. *)
Definition lex (k1 k2 : Z * Z * Z) : comparison :=
  let '(c1, e1, m1) := k1 in
  let '(c2, e2, m2) := k2 in
  match c1 ?= c2 with
  | Eq => match e1 ?= e2 with Eq => m1 ?= m2 | r => r end
  | r => r
  end.

Definition lex_lt (k1 k2 : Z * Z * Z) : Prop :=
  let '(c1, e1, m1) := k1 in
  let '(c2, e2, m2) := k2 in
  c1 < c2 ∨ (c1 = c2 ∧ (e1 < e2 ∨ (e1 = e2 ∧ m1 < m2))).

(** The cell an offset designates: the inverse of [index] on the grid. *)
Definition unindex (k : Z) : Z * Z := (k mod (numCells + 2), k / (numCells + 2)).

(** All nine buffers have the size the module gives them. *)
Definition wf_state (s : State) : Prop :=
  wf (u s) ∧ wf (v s) ∧ wf (d s) ∧ wf (uPrev s) ∧ wf (vPrev s) ∧ wf (dPrev s)
  ∧ wf (dSource s) ∧ wf (uSource s) ∧ wf (vSource s).

(** Two buffers with the same interior cells. *)
Definition same_interior (x y : array) : Prop :=
  ∀ a b, interior a b → load x (index a b) = load y (index a b).

(** A number that is neither [nan] nor infinite. *)
Definition finite_number (w : float) : bool :=
  match Prim2SF w with
  | S754_zero _ | S754_finite _ _ _ => true
  | _ => false
  end.

(** Two states with the same velocity buffers and velocity sources. *)
Definition same_velocity (s s' : State) : Prop :=
  u s = u s' ∧ v s = v s' ∧ uPrev s = uPrev s' ∧ vPrev s = vPrev s'
  ∧ uSource s = uSource s' ∧ vSource s = vSource s'.

(** A number that is a 32-bit signed integer. *)
Definition int32 (w : float) : Prop := ∃ z, - 2 ^ 31 ≤ z < 2 ^ 31 ∧ w = Z2F z.

(** What holds of the mouse variables between two events. *)
Definition mouse_inv (m : Mouse) : Prop :=
  prevMouseX m = mouseX m ∧ prevMouseY m = mouseY m
  ∧ int32 (mouseSpeedX m) ∧ int32 (mouseSpeedY m).

(** The three source buffers have their size. *)
Definition wf_sources (src : array * array * array) : Prop :=
  wf src.1.1 ∧ wf src.1.2 ∧ wf src.2.

(** [0 * (i / 5)] is [+0]. *)
Definition check_fifth (i : Z) : bool := Leibniz.eqb (0 * (Z2F i / 5)) 0.

(** The neighbours of a grid coordinate, as numbers. *)
Definition check_neighbour (a : Z) : bool :=
  Leibniz.eqb (Z2F a - 1) (Z2F (a - 1)) && Leibniz.eqb (Z2F a + 1) (Z2F (a + 1)).

(** The offset computed with numbers from a grid cell or one of its
    neighbours is the offset computed with integers. *)
Definition check_index_wide (a b : Z) : bool :=
  match toIndex (indexF (Z2F a) (Z2F b)) with
  | Some k => k =? index a b
  | None => false
  end.

(** An event that is no move of the mouse or of a finger. *)
Definition no_pointer (e : event) : Prop :=
  match e with
  | MouseMove _ _ _ => False
  | TouchMove (Some _) _ => False
  | _ => True
  end.

(** A buffer whose interior cells hold [+0]. *)
Definition interior_zero (x : array) : Prop :=
  ∀ a b, interior a b → load x (index a b) = 0%float.

(** The six field buffers are zero fields. *)
Definition fields_at_rest (s : State) : Prop :=
  zero_field (u s) ∧ zero_field (v s) ∧ zero_field (d s)
  ∧ zero_field (uPrev s) ∧ zero_field (vPrev s) ∧ zero_field (dPrev s).

(** A key that designates no element, or an element before the first
    interior cell. *)
Definition ghost_key (k : float) : bool :=
  match toIndex k with
  | Some z => z <? index 1 1
  | None => true
  end.

(** The five keys [update] writes around the point [(x, y)] are ghost keys. *)
Definition check_rest_keys (x y : float) : bool :=
  ghost_key (indexF x y) && ghost_key (indexF (x - 1) y) && ghost_key (indexF (x + 1) y)
  && ghost_key (indexF x (y - 1)) && ghost_key (indexF x (y + 1)).

(** [addSource] with every element access checked. *)
Definition addSourceC (x s : array) : option array :=
  for_rangeC 0 (size - 1) (fun i x =>
    a ← loadC x i; b ← loadC s i; storeC x i (a + dt * b)%float) x.

(** * Properties *)

(** ** Loops *)

Section Loops.
Context {T : Type}.
Implicit Types (body : Z → T → T) (s : T).

Lemma for_from_ind (P : Z → T → Prop) body n : ∀ i s,
  P i s →
  (∀ k t, i ≤ k < i + Z.of_nat n → P k t → P (k + 1) (body k t)) →
  P (i + Z.of_nat n) (for_from n i body s).
Proof.
  induction n as [|n IH]; intros i s Hs Hstep; simpl for_from.
  - replace (i + Z.of_nat 0) with i by lia. exact Hs.
  - replace (i + Z.of_nat (S n)) with ((i + 1) + Z.of_nat n) by lia.
    apply IH.
    + apply Hstep; [lia | exact Hs].
    + intros k t Hk. apply Hstep. lia.
Qed.

(** The rule of a counted loop with an invariant that follows the counter. *)
Lemma for_range_ind (P : Z → T → Prop) lo hi body s :
  lo ≤ hi + 1 →
  P lo s →
  (∀ k t, lo ≤ k ≤ hi → P k t → P (k + 1) (body k t)) →
  P (hi + 1) (for_range lo hi body s).
Proof.
  intros Hle Hs Hstep. unfold for_range.
  replace (hi + 1) with (lo + Z.of_nat (Z.to_nat (hi + 1 - lo))) at 1 by lia.
  apply for_from_ind; [exact Hs |].
  intros k t Hk. apply Hstep. lia.
Qed.

(** The same with an invariant that ignores the counter. *)
Lemma for_range_inv (P : T → Prop) lo hi body s :
  P s →
  (∀ k t, lo ≤ k ≤ hi → P t → P (body k t)) →
  P (for_range lo hi body s).
Proof.
  intros Hs Hstep. unfold for_range.
  apply (for_from_ind (fun _ => P)); [exact Hs |].
  intros k t Hk. apply Hstep. lia.
Qed.

Lemma for_from_ext body body' n : ∀ i s,
  (∀ k t, i ≤ k < i + Z.of_nat n → body k t = body' k t) →
  for_from n i body s = for_from n i body' s.
Proof.
  induction n as [|n IH]; intros i s Hb; [reflexivity |].
  simpl. rewrite Hb by lia. apply IH. intros k t Hk. apply Hb. lia.
Qed.

Lemma for_range_ext lo hi body body' s :
  (∀ k t, lo ≤ k ≤ hi → body k t = body' k t) →
  for_range lo hi body s = for_range lo hi body' s.
Proof.
  intros Hb. unfold for_range. apply for_from_ext.
  intros k t Hk. apply Hb. lia.
Qed.
End Loops.

(** ** Typed arrays *)

Lemma length_store (x : array) k w : length (store x k w) = length x.
Proof. unfold store. destruct (k <? 0); [reflexivity | apply length_insert]. Qed.

Lemma load_store_eq (x : array) k w :
  0 ≤ k < Z.of_nat (length x) → load (store x k w) k = fround w.
Proof.
  intros Hk. unfold load, store.
  destruct (Z.ltb_spec k 0); [lia |].
  rewrite list_lookup_insert_eq by lia. reflexivity.
Qed.

Lemma load_store_ne (x : array) k k' w :
  k ≠ k' → load (store x k w) k' = load x k'.
Proof.
  intros Hne. unfold load, store.
  destruct (Z.ltb_spec k' 0); [reflexivity |].
  destruct (Z.ltb_spec k 0); [reflexivity |].
  rewrite list_lookup_insert_ne by lia. reflexivity.
Qed.

Lemma load_lookup (x : array) k w :
  0 ≤ k → x !! Z.to_nat k = Some w → load x k = w.
Proof.
  intros Hk Hl. unfold load. destruct (Z.ltb_spec k 0); [lia |]. rewrite Hl. reflexivity.
Qed.

Lemma array_ext (x y : array) :
  length x = length y →
  (∀ k, 0 ≤ k < Z.of_nat (length x) → load x k = load y k) →
  x = y.
Proof.
  intros Hlen Hload. apply list_eq. intros n.
  destruct (x !! n) as [a|] eqn:Hx.
  - assert (Hn : (n < length x)%nat) by (eapply lookup_lt_Some; eauto).
    destruct (lookup_lt_is_Some_2 y n) as [b Hy]; [lia |].
    specialize (Hload (Z.of_nat n) ltac:(lia)).
    rewrite (load_lookup x _ a), (load_lookup y _ b) in Hload
      by (rewrite ?Nat2Z.id; auto with lia).
    congruence.
  - symmetry. apply lookup_ge_None. apply lookup_ge_None in Hx. lia.
Qed.

Lemma load_in_Forall (P : float → Prop) (x : array) k :
  Forall P x → 0 ≤ k < Z.of_nat (length x) → P (load x k).
Proof.
  intros HP Hk. unfold load. destruct (Z.ltb_spec k 0); [lia |].
  destruct (lookup_lt_is_Some_2 x (Z.to_nat k)) as [w Hw]; [lia |].
  rewrite Hw. simpl. eapply Forall_lookup_1; eauto.
Qed.

Lemma Forall_store (P : float → Prop) (x : array) k w :
  Forall P x → P (fround w) → Forall P (store x k w).
Proof.
  intros HP Hw. unfold store. destruct (k <? 0); [exact HP |].
  apply Forall_insert; assumption.
Qed.

(** ** The grid *)

Ltac grid := unfold wf, in_grid, interior, index, size, numCells in *; lia.

Lemma index_range a b : in_grid a b → 0 ≤ index a b < size.
Proof. grid. Qed.

Lemma index_inj a b a' b' :
  in_grid a b → in_grid a' b' → index a b = index a' b' → a = a' ∧ b = b'.
Proof. grid. Qed.

Lemma index_onto k : 0 ≤ k < size → ∃ a b, in_grid a b ∧ k = index a b.
Proof.
  intros Hk. exists (k mod (numCells + 2)), (k / (numCells + 2)).
  unfold in_grid, index, size, numCells in *.
  pose proof (Z.div_mod k 52 ltac:(lia)).
  pose proof (Z.mod_pos_bound k 52 ltac:(lia)).
  change (50 + 2) with 52. split; [|lia].
  assert (0 ≤ k / 52 < 52) by (split; [apply Z.div_pos | apply Z.div_lt_upper_bound]; lia).
  lia.
Qed.

Lemma wf_range (x : array) k : wf x → 0 ≤ k < size → 0 ≤ k < Z.of_nat (length x).
Proof. unfold wf. intros ->. unfold size, numCells. lia. Qed.

Lemma wf_store (x : array) k w : wf x → wf (store x k w).
Proof. unfold wf. rewrite length_store. auto. Qed.

Lemma cells_store_eq (x : array) a b w :
  wf x → in_grid a b → cells (store x (index a b) w) a b = fround w.
Proof.
  intros Hx Hg. apply load_store_eq, wf_range, index_range; assumption.
Qed.

Lemma cells_store_ne (x : array) a b a' b' w :
  in_grid a b → in_grid a' b' → (a, b) ≠ (a', b') →
  cells (store x (index a b) w) a' b' = cells x a' b'.
Proof.
  intros Hg Hg' Hne. apply load_store_ne. intros Heq.
  apply index_inj in Heq; [|assumption..]. destruct Heq; congruence.
Qed.

(** Two buffers with the same cells are the same buffer. *)
Lemma cells_ext (x y : array) :
  wf x → wf y → (∀ a b, in_grid a b → cells x a b = cells y a b) → x = y.
Proof.
  intros Hx Hy Hc. apply array_ext; [congruence |].
  intros k Hk. destruct (index_onto k) as (a & b & Hg & ->).
  - rewrite Hx in Hk. unfold size, numCells in *. lia.
  - apply Hc, Hg.
Qed.

(** ** Boundary enforcement: the cells after [setBoundary] *)

(** Case analysis on the integer tests of a goal. *)
Ltac zcases :=
  repeat match goal with
  | |- context [Z.eqb ?a ?b] => destruct (Z.eqb_spec a b)
  | |- context [Z.leb ?a ?b] => destruct (Z.leb_spec a b)
  | |- context [Z.ltb ?a ?b] => destruct (Z.ltb_spec a b)
  end; cbn [andb orb negb].

Lemma setBoundary_top_bottom_eq bt i (x : array) :
  setBoundary_top_bottom bt i x =
  let y := store x (index i 0) (flip (wallTB bt) (load x (index i 1))) in
  store y (index i (numCells + 1)) (flip (wallTB bt) (load y (index i numCells))).
Proof. destruct bt; reflexivity. Qed.

Lemma setBoundary_left_right_eq bt j (x : array) :
  setBoundary_left_right bt j x =
  let y := store x (index 0 j) (flip (wallLR bt) (load x (index 1 j))) in
  store y (index (numCells + 1) j) (flip (wallLR bt) (load y (index numCells j))).
Proof. destruct bt; reflexivity. Qed.

Lemma tb_loop (x : array) bt :
  wf x →
  wf (for_range 1 numCells (setBoundary_top_bottom bt) x) ∧
  ∀ a b, in_grid a b →
    cells (for_range 1 numCells (setBoundary_top_bottom bt) x) a b = tb_cell bt (cells x) a b.
Proof.
  intros Hx.
  pose (P := fun (i : Z) (y : array) =>
    wf y ∧ ∀ a b, in_grid a b →
      cells y a b = if a <? i then tb_cell bt (cells x) a b else cells x a b).
  assert (HP : P (numCells + 1) (for_range 1 numCells (setBoundary_top_bottom bt) x)).
  { apply for_range_ind; [unfold numCells; lia | |].
    - split; [exact Hx |]. intros a b Hg. unfold tb_cell. zcases; try reflexivity; lia.
    - intros i y Hi [Hy Hc]. rewrite setBoundary_top_bottom_eq. cbv zeta.
      split; [auto using wf_store |].
      intros a b Hg.
      assert (Hg0 : in_grid i 0) by grid.
      assert (Hg1 : in_grid i (numCells + 1)) by grid.
      assert (Hin1 : cells y i 1 = cells x i 1).
      { rewrite Hc by grid. zcases; [lia | reflexivity]. }
      assert (HinN : cells y i numCells = cells x i numCells).
      { rewrite Hc by grid. zcases; [lia | reflexivity]. }
      fold (cells y i 1).
      fold (cells (store y (index i 0) (flip (wallTB bt) (cells y i 1))) i numCells).
      rewrite (cells_store_ne _ i 0 i numCells) by (try grid; intros [=]; grid).
      rewrite Hin1, HinN.
      destruct (decide ((i, numCells + 1) = (a, b))) as [[= <- <-]|Hne1].
      { rewrite cells_store_eq by (auto using wf_store).
        unfold tb_cell, ghost. zcases; try reflexivity; grid. }
      rewrite cells_store_ne by assumption.
      destruct (decide ((i, 0) = (a, b))) as [[= <- <-]|Hne0].
      { rewrite cells_store_eq by assumption.
        unfold tb_cell, ghost. zcases; try reflexivity; grid. }
      rewrite cells_store_ne by assumption.
      rewrite Hc by assumption.
      unfold tb_cell. zcases; try reflexivity; try lia.
      all: exfalso; first [apply Hne0; f_equal; grid | apply Hne1; f_equal; grid]. }
  destruct HP as [Hy Hc]. split; [exact Hy |].
  intros a b Hg. rewrite Hc by assumption.
  unfold tb_cell. zcases; try reflexivity; grid.
Qed.

Lemma lr_loop (x : array) bt :
  wf x →
  wf (for_range 1 numCells (setBoundary_left_right bt) x) ∧
  ∀ a b, in_grid a b →
    cells (for_range 1 numCells (setBoundary_left_right bt) x) a b = lr_cell bt (cells x) a b.
Proof.
  intros Hx.
  pose (P := fun (j : Z) (y : array) =>
    wf y ∧ ∀ a b, in_grid a b →
      cells y a b = if b <? j then lr_cell bt (cells x) a b else cells x a b).
  assert (HP : P (numCells + 1) (for_range 1 numCells (setBoundary_left_right bt) x)).
  { apply for_range_ind; [unfold numCells; lia | |].
    - split; [exact Hx |]. intros a b Hg. unfold lr_cell. zcases; try reflexivity; lia.
    - intros j y Hj [Hy Hc]. rewrite setBoundary_left_right_eq. cbv zeta.
      split; [auto using wf_store |].
      intros a b Hg.
      assert (Hg0 : in_grid 0 j) by grid.
      assert (Hg1 : in_grid (numCells + 1) j) by grid.
      assert (Hin1 : cells y 1 j = cells x 1 j).
      { rewrite Hc by grid. zcases; [lia | reflexivity]. }
      assert (HinN : cells y numCells j = cells x numCells j).
      { rewrite Hc by grid. zcases; [lia | reflexivity]. }
      fold (cells y 1 j).
      fold (cells (store y (index 0 j) (flip (wallLR bt) (cells y 1 j))) numCells j).
      rewrite (cells_store_ne _ 0 j numCells j) by (try grid; intros [=]; grid).
      rewrite Hin1, HinN.
      destruct (decide ((numCells + 1, j) = (a, b))) as [[= <- <-]|Hne1].
      { rewrite cells_store_eq by (auto using wf_store).
        unfold lr_cell, ghost. zcases; try reflexivity; grid. }
      rewrite cells_store_ne by assumption.
      destruct (decide ((0, j) = (a, b))) as [[= <- <-]|Hne0].
      { rewrite cells_store_eq by assumption.
        unfold lr_cell, ghost. zcases; try reflexivity; grid. }
      rewrite cells_store_ne by assumption.
      rewrite Hc by assumption.
      unfold lr_cell. zcases; try reflexivity; try lia.
      all: exfalso; first [apply Hne0; f_equal; grid | apply Hne1; f_equal; grid]. }
  destruct HP as [Hy Hc]. split; [exact Hy |].
  intros a b Hg. rewrite Hc by assumption.
  unfold lr_cell. zcases; try reflexivity; grid.
Qed.

Lemma corners_cells (x : array) :
  wf x →
  wf (setBoundary_corners x) ∧
  ∀ a b, in_grid a b → cells (setBoundary_corners x) a b = corner_cell (cells x) a b.
Proof.
  intros Hx. unfold setBoundary_corners. cbv zeta.
  split; [auto using wf_store |].
  intros a b Hg.
  repeat match goal with
  | |- context [load ?y (index ?i ?j)] => fold (cells y i j)
  end.
  assert (G00 : in_grid 0 0) by grid.
  assert (GN0 : in_grid (numCells + 1) 0) by grid.
  assert (G0N : in_grid 0 (numCells + 1)) by grid.
  assert (GNN : in_grid (numCells + 1) (numCells + 1)) by grid.
  rewrite !(cells_store_ne _ _ _ (numCells + 1) numCells) by (try grid; intros [=]; grid).
  rewrite !(cells_store_ne _ _ _ numCells (numCells + 1)) by (try grid; intros [=]; grid).
  rewrite !(cells_store_ne _ _ _ 0 numCells) by (try grid; intros [=]; grid).
  rewrite !(cells_store_ne _ _ _ 1 (numCells + 1)) by (try grid; intros [=]; grid).
  rewrite !(cells_store_ne _ _ _ (numCells + 1) 1) by (try grid; intros [=]; grid).
  rewrite !(cells_store_ne _ _ _ numCells 0) by (try grid; intros [=]; grid).
  unfold corner_cell.
  destruct (decide ((numCells + 1, numCells + 1) = (a, b))) as [[= <- <-]|N4].
  { rewrite cells_store_eq by (auto using wf_store). zcases; try reflexivity; grid. }
  rewrite (cells_store_ne _ (numCells + 1) (numCells + 1)) by assumption.
  destruct (decide ((0, numCells + 1) = (a, b))) as [[= <- <-]|N3].
  { rewrite cells_store_eq by (auto using wf_store). zcases; try reflexivity; grid. }
  rewrite (cells_store_ne _ 0 (numCells + 1)) by assumption.
  destruct (decide ((numCells + 1, 0) = (a, b))) as [[= <- <-]|N2].
  { rewrite cells_store_eq by (auto using wf_store). zcases; try reflexivity; grid. }
  rewrite (cells_store_ne _ (numCells + 1) 0) by assumption.
  destruct (decide ((0, 0) = (a, b))) as [[= <- <-]|N1].
  { rewrite cells_store_eq by (auto using wf_store). zcases; try reflexivity; grid. }
  rewrite (cells_store_ne _ 0 0) by assumption.
  zcases; try reflexivity; exfalso;
    first [apply N1; f_equal; grid | apply N2; f_equal; grid
          | apply N3; f_equal; grid | apply N4; f_equal; grid].
Qed.

(** The buffer after [setBoundary]: its size is kept, and its cells are those
    of the closed form [bnd]. *)
Lemma setBoundary_wf (x : array) bt : wf x → wf (setBoundary x bt).
Proof.
  intros Hx. unfold setBoundary. cbv zeta.
  apply corners_cells, lr_loop, tb_loop, Hx.
Qed.

Lemma corner_cell_ext F G a b :
  (∀ a b, in_grid a b → F a b = G a b) → in_grid a b → corner_cell F a b = corner_cell G a b.
Proof.
  intros HFG Hg. unfold corner_cell.
  rewrite !HFG by grid. reflexivity.
Qed.

Lemma lr_cell_ext bt F G a b :
  (∀ a b, in_grid a b → F a b = G a b) → in_grid a b → lr_cell bt F a b = lr_cell bt G a b.
Proof.
  intros HFG Hg. unfold lr_cell.
  rewrite !HFG by grid. reflexivity.
Qed.

Lemma setBoundary_cells (x : array) bt a b :
  wf x → in_grid a b → cells (setBoundary x bt) a b = bnd bt (cells x) a b.
Proof.
  intros Hx Hg. unfold setBoundary, bnd. cbv zeta.
  destruct (tb_loop x bt Hx) as [H1 C1].
  destruct (lr_loop _ bt H1) as [H2 C2].
  destruct (corners_cells _ H2) as [_ C3].
  rewrite C3 by assumption.
  apply corner_cell_ext; [|assumption]. intros a' b' Hg'.
  rewrite C2 by assumption.
  apply lr_cell_ext; assumption.
Qed.

(** ** IEEE 754 facts

    What the proofs below need of binary64 arithmetic and of the rounding to
    binary32, derived from the specification of the primitive operations. *)







Lemma valid_cases s m e :
  valid_binary (S754_finite s m e) = true →
  (Z.pos (digits2_pos m) = 53 ∧ -1074 ≤ e ≤ 971) ∨ (Z.pos (digits2_pos m) < 53 ∧ e = -1074).
Proof.
  unfold SpecFloat.valid_binary, bounded, canonical_mantissa, fexp, SpecFloat.emin, emax, prec.
  intros H. apply andb_true_iff in H as [H1 H2].
  apply Z.eqb_eq in H1. apply Z.leb_le in H2. lia.
Qed.



Lemma iter_shr_1_nat (n : nat) m :
  Nat.iter n shr_1 {| shr_m := Z.pos (Nat.iter n xO m); shr_r := false; shr_s := false |}
  = {| shr_m := Z.pos m; shr_r := false; shr_s := false |}.
Proof.
  induction n as [|n IH]; [reflexivity |].
  rewrite Nat.iter_succ_r, Nat.iter_succ. cbn [shr_1 orb]. exact IH.
Qed.

Lemma iter_pos_nat {A} (f : A → A) k : ∀ x, iter_pos f k x = Nat.iter (Pos.to_nat k) f x.
Proof.
  induction k as [k IH|k IH|]; intros x; cbn [iter_pos].
  - rewrite !IH, Pos2Nat.inj_xI. rewrite <- Nat.iter_succ_r.
    replace (S (2 * Pos.to_nat k))%nat with (Pos.to_nat k + S (Pos.to_nat k))%nat by lia.
    rewrite Nat.iter_add. reflexivity.
  - rewrite !IH, Pos2Nat.inj_xO.
    replace (2 * Pos.to_nat k)%nat with (Pos.to_nat k + Pos.to_nat k)%nat by lia.
    rewrite Nat.iter_add. reflexivity.
  - reflexivity.
Qed.

Lemma digits2_iter_xO (n : nat) m :
  Z.pos (digits2_pos (Nat.iter n xO m)) = Z.pos (digits2_pos m) + Z.of_nat n.
Proof.
  induction n as [|n IH]; [cbn; lia |].
  rewrite Nat.iter_succ. cbn [digits2_pos]. rewrite Pos2Z.inj_succ. lia.
Qed.

(** Rounding [m * 2^k] at exponent [e] when the format wants exponent [e + k]. *)
Lemma round_aux_shift s m e (k : positive) :
  fexp prec emax (Z.pos (digits2_pos m) + (e + Z.pos k)) = e + Z.pos k →
  binary_round_aux prec emax s (Z.pos (Nat.iter (Pos.to_nat k) xO m)) e loc_Exact =
    if e + Z.pos k <=? 971 then S754_finite s m (e + Z.pos k) else S754_infinity s.
Proof.
  intros Hf. unfold binary_round_aux, shr_fexp. cbn [Zdigits2].
  rewrite digits2_iter_xO, positive_nat_Z.
  replace (Z.pos (digits2_pos m) + Z.pos k + e) with (Z.pos (digits2_pos m) + (e + Z.pos k)) by lia.
  rewrite Hf. replace (e + Z.pos k - e) with (Z.pos k) by lia.
  cbn [shr shr_record_of_loc]. rewrite iter_pos_nat, iter_shr_1_nat.
  cbn [shr_m loc_of_shr_record round_nearest_even Zdigits2 shr_record_of_loc].
  rewrite Hf, Z.sub_diag. cbn. reflexivity.
Qed.







Lemma is_nan_false (x : float) : is_nan x = false → Prim2SF x ≠ S754_nan.
Proof.
  unfold is_nan. rewrite eqb_spec. intros H E. rewrite E in H. discriminate.
Qed.

Lemma is_nan_true (x : float) : Prim2SF x = S754_nan → is_nan x = true.
Proof. unfold is_nan. rewrite eqb_spec. intros ->. reflexivity. Qed.

(** *** Operations that cannot produce [nan] *)

Lemma shr_1_nonneg r : 0 ≤ shr_m r → 0 ≤ shr_m (shr_1 r).
Proof. destruct r as [[|[p|p|]|p] r s]; cbn; lia. Qed.

Lemma shr_nonneg r e n : 0 ≤ shr_m r → 0 ≤ shr_m (fst (shr r e n)).
Proof.
  intros Hr. unfold shr. destruct n as [|k|k]; cbn [fst]; try exact Hr.
  rewrite iter_pos_nat. induction (Pos.to_nat k) as [|n IH]; [exact Hr |].
  rewrite Nat.iter_succ. apply shr_1_nonneg, IH.
Qed.

Lemma shr_fexp_nonneg p em m e l : 0 ≤ m → 0 ≤ shr_m (fst (shr_fexp p em m e l)).
Proof.
  intros Hm. unfold shr_fexp. apply shr_nonneg. destruct l as [|[]]; exact Hm.
Qed.

Lemma round_nearest_even_nonneg m l : 0 ≤ m → 0 ≤ round_nearest_even m l.
Proof. intros Hm. destruct l as [|[]]; cbn; try destruct (Z.even m); lia. Qed.

Lemma binary_round_aux_not_nan p em s m e l :
  0 ≤ m → binary_round_aux p em s m e l ≠ S754_nan.
Proof.
  intros Hm. unfold binary_round_aux.
  pose proof (shr_fexp_nonneg p em m e l Hm) as H1.
  destruct (shr_fexp p em m e l) as [r1 e1]. cbn [fst] in H1.
  pose proof (shr_fexp_nonneg p em _ e1 loc_Exact
                (round_nearest_even_nonneg _ (loc_of_shr_record r1) H1)) as H2.
  destruct (shr_fexp p em _ e1 loc_Exact) as [r2 e2]. cbn [fst] in H2.
  destruct (shr_m r2); [discriminate | | lia].
  destruct (e2 <=? em - p); discriminate.
Qed.

Lemma binary_round_not_nan p em s m e : binary_round p em s m e ≠ S754_nan.
Proof.
  unfold binary_round. destruct (shl_align _ _ _).
  apply binary_round_aux_not_nan. lia.
Qed.

Lemma SFmul_finite_l s m e y :
  y ≠ S754_nan → SF64mul (S754_finite s m e) y ≠ S754_nan.
Proof.
  intros Hy. destruct y as [sy|sy| |sy my ey]; try discriminate; [congruence |].
  apply binary_round_aux_not_nan. lia.
Qed.

Lemma SFmul_finite_r x s m e :
  x ≠ S754_nan → SF64mul x (S754_finite s m e) ≠ S754_nan.
Proof.
  intros Hx. destruct x as [sx|sx| |sx mx ex]; try discriminate; [congruence |].
  apply binary_round_aux_not_nan. lia.
Qed.

Lemma SFsub_finite_l s m e y :
  y ≠ S754_nan → SF64sub (S754_finite s m e) y ≠ S754_nan.
Proof.
  intros Hy. destruct y as [sy|sy| |sy my ey]; try discriminate; [congruence |].
  unfold SF64sub, SFsub, binary_normalize.
  destruct (_ - _); [discriminate | apply binary_round_not_nan ..].
Qed.

(** *** The integer part of a number between 0.5 and 50.5 *)

Lemma digits2_pos_bounds m :
  2 ^ (Z.pos (digits2_pos m) - 1) ≤ Z.pos m < 2 ^ Z.pos (digits2_pos m).
Proof.
  induction m as [m IH|m IH|]; cbn [digits2_pos]; [| |cbn; lia].
  all: rewrite Pos2Z.inj_succ;
    replace (Z.succ (Z.pos (digits2_pos m)) - 1) with (Z.succ (Z.pos (digits2_pos m) - 1)) by lia;
    rewrite !Z.pow_succ_r by lia; lia.
Qed.

Lemma SFcompare_refl_finite s m e :
  SFcompare (S754_finite s m e) (S754_finite s m e) = Some Eq.
Proof.
  cbn. rewrite Z.compare_refl. destruct s; rewrite Pos.compare_cont_refl; reflexivity.
Qed.

Lemma floor_between (p : float) :
  is_nan p = false → (p <? 0.5)%float = false → (50.5 <? p)%float = false →
  ∃ z, 0 ≤ z ≤ 50 ∧ Math_floor p = Z2F z.
Proof.
  intros Hn Hlo Hhi. apply is_nan_false in Hn.
  rewrite ltb_spec in Hlo, Hhi. pose proof (Prim2SF_valid p) as Hv.
  unfold Math_floor.
  change (Prim2SF 0.5) with (S754_finite false 4503599627370496 (-53)) in Hlo.
  change (Prim2SF 50.5) with (S754_finite false 7107243161944064 (-47)) in Hhi.
  destruct (Prim2SF p) as [sp|[]| |s m e]; try discriminate; [congruence |].
  exists (floorZ s m e). split; [|reflexivity].
  destruct s; [discriminate |].
  unfold SFltb, SFcompare in Hlo, Hhi.
  rewrite Pos.compare_cont_spec in Hlo, Hhi. cbn [Pos.switch_Eq] in Hlo, Hhi.
  apply valid_cases in Hv.
  assert (He : -53 ≤ e ≤ -47).
  { destruct (Z.compare_spec e (-53)); destruct (Z.compare_spec (-47) e);
      try discriminate; lia. }
  assert (HD : Z.pos (digits2_pos m) = 53) by lia. clear Hv.
  assert (Hm : 4503599627370496 ≤ Z.pos m < 9007199254740992).
  { pose proof (digits2_pos_bounds m) as Hd. rewrite HD in Hd. exact Hd. }
  assert (Hm' : e = -47 → Z.pos m ≤ 7107243161944064).
  { intros ->. rewrite Z.compare_refl in Hhi.
    destruct (Pos.compare_spec 7107243161944064 m) as [Hc|Hc|Hc]; try discriminate.
    - subst m. apply Z.le_refl.
    - apply Pos2Z.pos_le_pos, Pos.lt_le_incl, Hc. }
  clear Hlo Hhi HD Hn.
  unfold floorZ, cond_Zopp.
  rewrite Z.shiftl_div_pow2 by lia.
  assert (Hc : e = -53 ∨ e = -52 ∨ e = -51 ∨ e = -50 ∨ e = -49 ∨ e = -48 ∨ e = -47) by lia.
  destruct Hc as [->|[->|[->|[->|[->|[->| ->]]]]]].
  7: specialize (Hm' eq_refl).
  all: match goal with |- context [2 ^ ?k] => let v := eval vm_compute in (2 ^ k) in change (2 ^ k) with v end.
  all: split; [apply Z.div_pos; lia | apply Z.lt_succ_r, Z.div_lt_upper_bound; lia].
Qed.

(** *** Stores that do not round *)





(** ** Boundary enforcement: consequences of the closed form *)

Lemma corner_cell_noncorner F a b : noncorner a b → corner_cell F a b = F a b.
Proof. intros [Hg Hn]. unfold corner_cell. zcases; try reflexivity; grid. Qed.


Lemma lr_cell_inner bt F a b : 1 ≤ a ≤ numCells → lr_cell bt F a b = F a b.
Proof. intros Ha. unfold lr_cell. zcases; try reflexivity; grid. Qed.

Lemma lr_cell_row bt F a b : ¬ 1 ≤ b ≤ numCells → lr_cell bt F a b = F a b.
Proof. intros Hb. unfold lr_cell. zcases; try reflexivity; grid. Qed.



Lemma tb_cell_inner bt F a b : 1 ≤ b ≤ numCells → tb_cell bt F a b = F a b.
Proof. intros Hb. unfold tb_cell. zcases; try reflexivity; grid. Qed.



Lemma bnd_interior bt F a b : interior a b → bnd bt F a b = F a b.
Proof.
  intros Hi. unfold bnd.
  rewrite corner_cell_noncorner by (split; grid).
  rewrite lr_cell_inner by grid. apply tb_cell_inner. grid.
Qed.






(** The cells after [setBoundary] depend on the interior cells only. *)
Lemma bnd_ext bt F G a b :
  (∀ a b, interior a b → F a b = G a b) → in_grid a b → bnd bt F a b = bnd bt G a b.
Proof.
  intros HFG Hg.
  assert (HT : ∀ a b, in_grid a b → 1 ≤ a ≤ numCells → tb_cell bt F a b = tb_cell bt G a b).
  { intros a' b' Hg' Ha'. unfold tb_cell. zcases; try grid.
    all: rewrite HFG by grid; reflexivity. }
  assert (HL : ∀ a b, noncorner a b →
            lr_cell bt (tb_cell bt F) a b = lr_cell bt (tb_cell bt G) a b).
  { intros a' b' [Hg' Hn']. unfold lr_cell. zcases; try grid.
    all: rewrite HT by grid; reflexivity. }
  unfold bnd, corner_cell.
  rewrite !HL by (split; grid).
  zcases; try reflexivity.
  all: apply HL; split; [exact Hg | grid].
Qed.

Lemma cells_float32 (x : array) a b :
  wf x → is_float32 x → in_grid a b → fround (cells x a b) = cells x a b.
Proof.
  intros Hx Hf Hg. unfold cells.
  apply (load_in_Forall (fun w => fround w = w)); [exact Hf |].
  apply wf_range, index_range; assumption.
Qed.
Lemma length_zeros : wf zeros.
Proof. unfold wf, zeros. apply length_replicate. Qed.

Lemma float32_zeros : is_float32 zeros.
Proof. unfold is_float32, zeros. apply Forall_replicate. reflexivity. Qed.

Lemma cells_eq (x : array) a b : cells x a b = load x (index a b).
Proof. reflexivity. Qed.

(** ** Claims on boundary enforcement *)





(** C10. [setBoundary] leaves every interior cell unchanged (it writes ghost
    cells only); applying it twice with the same policy gives the same buffer
    as applying it once. *)
Theorem setBoundary_frame_idempotent (x : array) (bt : boundaryType) :
  wf x →
  (∀ a b, interior a b →
     load (setBoundary x bt) (index a b) = load x (index a b)) ∧
  setBoundary (setBoundary x bt) bt = setBoundary x bt.
Proof.
  intros Hx.
  assert (Hfr : ∀ a b, interior a b → cells (setBoundary x bt) a b = cells x a b).
  { intros a b Hi. rewrite setBoundary_cells by (try exact Hx; grid).
    apply bnd_interior, Hi. }
  split.
  { intros a b Hi. rewrite <- !cells_eq. apply Hfr, Hi. }
  apply cells_ext; [apply setBoundary_wf, setBoundary_wf, Hx | apply setBoundary_wf, Hx |].
  intros a b Hg.
  rewrite (setBoundary_cells (setBoundary x bt) bt a b)
    by (try exact Hg; apply setBoundary_wf, Hx).
  rewrite (setBoundary_cells x bt a b) by assumption.
  apply bnd_ext; [|exact Hg].
  exact Hfr.
Qed.

Lemma setBoundary_frame_idempotent_witness :
  setBoundary (setBoundary zeros continuous) continuous = setBoundary zeros continuous.
Proof.
  exact (proj2 (setBoundary_frame_idempotent zeros continuous length_zeros)).
Defined.

(** ** Claim on the order of a tick *)


(** ** Passes that assign every interior cell *)

Lemma fill_row_cells (g : Z → Z → float) (i : Z) (x : array) :
  wf x → 1 ≤ i ≤ numCells →
  wf (for_range 1 numCells (fun j y => store y (index i j) (g i j)) x) ∧
  ∀ a b, in_grid a b →
    cells (for_range 1 numCells (fun j y => store y (index i j) (g i j)) x) a b
    = if (a =? i) && (1 <=? b) && (b <=? numCells) then fround (g a b) else cells x a b.
Proof.
  intros Hx Hi.
  pose (Q := fun (j : Z) (y : array) =>
    wf y ∧ ∀ a b, in_grid a b →
      cells y a b = if (a =? i) && (1 <=? b) && (b <? j) then fround (g a b) else cells x a b).
  assert (HQ : Q (numCells + 1)
                 (for_range 1 numCells (fun j y => store y (index i j) (g i j)) x)).
  { apply for_range_ind; [unfold numCells; lia | |].
    - split; [exact Hx |]. intros a b Hg. zcases; try reflexivity; lia.
    - intros j y Hj [Hy Hc]. split; [apply wf_store, Hy |].
      intros a b Hg.
      destruct (decide ((i, j) = (a, b))) as [[= <- <-]|Hne].
      + rewrite cells_store_eq by (try exact Hy; grid).
        zcases; try reflexivity; lia.
      + rewrite cells_store_ne by (try exact Hne; grid).
        rewrite Hc by exact Hg.
        zcases; try reflexivity; try lia.
        all: exfalso; apply Hne; f_equal; lia. }
  destruct HQ as [Hy Hc]. split; [exact Hy |].
  intros a b Hg. rewrite Hc by exact Hg.
  zcases; try reflexivity; grid.
Qed.

Lemma fill_pass_cells (g : Z → Z → float) (x : array) :
  wf x →
  wf (fill_pass g x) ∧
  ∀ a b, in_grid a b →
    cells (fill_pass g x) a b
    = if (1 <=? a) && (a <=? numCells) && (1 <=? b) && (b <=? numCells)
      then fround (g a b) else cells x a b.
Proof.
  intros Hx. unfold fill_pass.
  pose (P := fun (i : Z) (y : array) =>
    wf y ∧ ∀ a b, in_grid a b →
      cells y a b = if (1 <=? a) && (a <? i) && (1 <=? b) && (b <=? numCells)
                    then fround (g a b) else cells x a b).
  assert (HP : P (numCells + 1)
                 (for_range 1 numCells (fun i =>
                    for_range 1 numCells (fun j y => store y (index i j) (g i j))) x)).
  { apply for_range_ind; [unfold numCells; lia | |].
    - split; [exact Hx |]. intros a b Hg. zcases; try reflexivity; lia.
    - intros i y Hi [Hy Hc].
      destruct (fill_row_cells g i y Hy Hi) as [Hy' Hc'].
      split; [exact Hy' |].
      intros a b Hg. rewrite Hc' by exact Hg. rewrite Hc by exact Hg.
      zcases; try reflexivity; lia. }
  destruct HP as [Hy Hc]. split; [exact Hy |].
  intros a b Hg. rewrite Hc by exact Hg.
  zcases; try reflexivity; grid.
Qed.

Lemma fill_pass_interior (g : Z → Z → float) (x : array) a b :
  wf x → interior a b → cells (fill_pass g x) a b = fround (g a b).
Proof.
  intros Hx Hi. destruct (fill_pass_cells g x Hx) as [_ Hc].
  rewrite Hc by grid. zcases; try reflexivity; grid.
Qed.

Lemma advect_pass_fill (x x_0 u_0 v_0 : array) :
  advect_pass x x_0 u_0 v_0 =
  fill_pass (fun i j => bilinear x_0 (backtrace i (load u_0 (index i j)))
                          (backtrace j (load v_0 (index i j)))) x.
Proof. reflexivity. Qed.

Lemma project_div_fill (u v div : array) :
  project_div u v div = fill_pass (divergence u v) div.
Proof. reflexivity. Qed.

Lemma advect_eq (x x_0 u_0 v_0 : array) bt :
  advect x x_0 u_0 v_0 bt = setBoundary (advect_pass x x_0 u_0 v_0) bt.
Proof. reflexivity. Qed.

(** The two tests of [advect] clamp the coordinate to [0.5, numCells + 0.5]. *)
Lemma backtrace_clamp (c : Z) (w : float) :
  backtrace c w =
  let p := (Z2F c - dt * w * Z2F numCells)%float in
  if (p <? 0.5)%float then 0.5%float
  else if (Z2F numCells + 0.5 <? p)%float then (Z2F numCells + 0.5)%float
  else p.
Proof.
  unfold backtrace. cbv zeta.
  destruct (_ <? 0.5)%float; reflexivity.
Qed.

(** ** Claim on advection *)

(** C4. For every interior cell [(i, j)], [advect] leaves in [x[index(i, j)]]
    the bilinear interpolation of [x_0] at the back-traced point
    [(i - dt*u_0[i,j]*N, j - dt*v_0[i,j]*N)], each coordinate clamped to
    [0.5, N + 0.5], with the stencil [i0 = floor p_x], [i1 = i0 + 1] and the
    weights [s1 = p_x - i0], [s0 = 1 - s1] (and the same along [j]); the value
    is stored in a [Float32Array], hence rounded to binary32 once.  The
    boundary policy is applied once, after the whole pass. *)
Theorem advect_semantics (x x_0 u_0 v_0 : array) (bt : boundaryType) (i j : Z) :
  wf x → interior i j →
  let clamp := fun p : float =>
    if (p <? 0.5)%float then 0.5%float
    else if (Z2F numCells + 0.5 <? p)%float then (Z2F numCells + 0.5)%float
    else p in
  let p_x := clamp (Z2F i - dt * load u_0 (index i j) * Z2F numCells)%float in
  let p_y := clamp (Z2F j - dt * load v_0 (index i j) * Z2F numCells)%float in
  let i0 := Math_floor p_x in
  let i1 := (i0 + 1)%float in
  let j0 := Math_floor p_y in
  let j1 := (j0 + 1)%float in
  let s1 := (p_x - i0)%float in
  let s0 := (1 - s1)%float in
  let t1 := (p_y - j0)%float in
  let t0 := (1 - t1)%float in
  load (advect x x_0 u_0 v_0 bt) (index i j)
  = fround (s0 * (t0 * loadF x_0 (indexF i0 j0) + t1 * loadF x_0 (indexF i0 j1))
            + s1 * (t0 * loadF x_0 (indexF i1 j0) + t1 * loadF x_0 (indexF i1 j1)))
  ∧ advect x x_0 u_0 v_0 bt = setBoundary (advect_pass x x_0 u_0 v_0) bt.
Proof.
  intros Hx Hi. cbv zeta. split; [|apply advect_eq].
  rewrite <- (cells_eq (advect x x_0 u_0 v_0 bt) i j).
  rewrite advect_eq.
  assert (Hp : wf (advect_pass x x_0 u_0 v_0)).
  { rewrite advect_pass_fill. apply fill_pass_cells, Hx. }
  rewrite setBoundary_cells by (try exact Hp; grid).
  rewrite bnd_interior by exact Hi.
  rewrite advect_pass_fill, fill_pass_interior by assumption.
  unfold bilinear. rewrite !backtrace_clamp. reflexivity.
Qed.

Lemma advect_semantics_witness :
  load (advect zeros zeros zeros zeros continuous) (index 1 1) = 0%float.
Proof.
  pose proof (proj1 (advect_semantics zeros zeros zeros zeros continuous 1 1 length_zeros
                       ltac:(unfold interior, numCells; lia))) as H.
  cbv zeta in H. rewrite H. vm_compute. reflexivity.
Defined.

(** ** Loops as folds *)

Lemma for_from_fold {T : Type} (body : Z → T → T) (n : nat) : ∀ i s,
  for_from n i body s = fold_left (fun s k => body k s) (seqZ i (Z.of_nat n)) s.
Proof.
  induction n as [|n IH]; intros i s; [reflexivity |].
  rewrite seqZ_cons by lia. cbn [for_from fold_left].
  rewrite IH. do 2 f_equal; lia.
Qed.

Lemma for_range_fold {T : Type} (body : Z → T → T) lo hi s :
  lo ≤ hi + 1 →
  for_range lo hi body s = fold_left (fun s k => body k s) (seqZ lo (hi + 1 - lo)) s.
Proof.
  intros Hle. unfold for_range. rewrite for_from_fold. do 2 f_equal. lia.
Qed.

Lemma fold_left_flat_map {A B T : Type} (f : T → B → T) (g : A → list B) (l : list A) :
  ∀ s, fold_left f (flat_map g l) s = fold_left (fun s a => fold_left f (g a) s) l s.
Proof.
  induction l as [|a l IH]; intros s; [reflexivity |].
  cbn [flat_map fold_left]. rewrite fold_left_app. apply IH.
Qed.

Lemma fold_left_ext_in {A T : Type} (f g : T → A → T) (l : list A) :
  (∀ s a, f s a = g s a) → ∀ s, fold_left f l s = fold_left g l s.
Proof.
  intros Hfg. induction l as [|a l IH]; intros s; [reflexivity |].
  cbn [fold_left]. rewrite Hfg. apply IH.
Qed.

Lemma for_from_const {T : Type} (f : T → T) (n : nat) : ∀ i s,
  for_from n i (fun _ => f) s = Nat.iter n f s.
Proof.
  induction n as [|n IH]; intros i s; [reflexivity |].
  cbn [for_from]. rewrite IH. symmetry. apply Nat.iter_succ_r.
Qed.

Lemma iter_ext {T : Type} (f g : T → T) (n : nat) :
  (∀ s, f s = g s) → ∀ s, Nat.iter n f s = Nat.iter n g s.
Proof.
  intros Hfg. induction n as [|n IH]; intros s; [reflexivity |].
  rewrite !Nat.iter_succ, IH. apply Hfg.
Qed.

(** ** Claim on diffusion *)

Lemma diffuse_sweep_fold (x_0 x : array) :
  diffuse_sweep x_0 x = gauss_seidel_sweep x_0 x.
Proof.
  unfold diffuse_sweep, gauss_seidel_sweep, visiting_order.
  rewrite fold_left_flat_map.
  rewrite for_range_fold by (unfold numCells; lia).
  replace (numCells + 1 - 1) with numCells by lia.
  apply fold_left_ext_in. intros s i.
  rewrite for_range_fold by (unfold numCells; lia).
  replace (numCells + 1 - 1) with numCells by lia.
  generalize (seqZ 1 numCells). intros l. revert s.
  induction l as [|j l IH]; intros s; [reflexivity |].
  cbn [map fold_left]. apply IH.
Qed.

Lemma diffuse_cell_cells (x_0 y : array) i j :
  wf y → interior i j →
  cells (diffuse_cell x_0 i j y) i j
  = fround (fround (cells x_0 i j
                    + diffuse_a * (cells y (i - 1) j + cells y (i + 1) j
                                   + cells y i (j - 1) + cells y i (j + 1)))
            / (1 + 4 * diffuse_a)).
Proof.
  intros Hy Hi. unfold diffuse_cell. cbv zeta. rewrite <- !cells_eq.
  rewrite !cells_store_eq by (auto using wf_store; grid).
  reflexivity.
Qed.

Lemma wf_diffuse_cell (x_0 y : array) i j : wf y → wf (diffuse_cell x_0 i j y).
Proof. intros Hy. unfold diffuse_cell. cbv zeta. apply wf_store, wf_store, Hy. Qed.

Lemma diffuse_cell_other (x_0 y : array) i j k :
  k ≠ index i j → load (diffuse_cell x_0 i j y) k = load y k.
Proof.
  intros Hk. unfold diffuse_cell. cbv zeta.
  rewrite !load_store_ne by congruence. reflexivity.
Qed.

(** C5. [diffuse] performs exactly 4 Gauss-Seidel sweeps, each over the
    interior cells with [i] in the outer and [j] in the inner loop and each
    followed by the boundary policy; every relaxation reads the buffer in
    place and leaves [(x_0[i,j] + a * (x[i-1,j] + x[i+1,j] + x[i,j-1] +
    x[i,j+1])) / (1 + 4a)] in [x[i,j]], with [a = dt * rate / h^2] and
    [h = 1/N]; the code computes it by two assignments to the [Float32Array],
    each rounding to binary32. *)
Theorem diffuse_semantics :
  (∀ (x x_0 : array) (bt : boundaryType),
     diffuse x x_0 bt
     = Nat.iter 4 (fun y => setBoundary (gauss_seidel_sweep x_0 y) bt) x) ∧
  (∀ (x_0 y : array) (i j : Z),
     wf y → interior i j →
     let h := (1 / Z2F numCells)%float in
     let a := (dt * diffusion_rate / (h * h))%float in
     load (diffuse_cell x_0 i j y) (index i j)
     = fround (fround (load x_0 (index i j)
                       + a * (load y (index (i - 1) j) + load y (index (i + 1) j)
                              + load y (index i (j - 1)) + load y (index i (j + 1))))
               / (1 + 4 * a)) ∧
     ∀ k, k ≠ index i j → load (diffuse_cell x_0 i j y) k = load y k).
Proof.
  split.
  - intros x x_0 bt. unfold diffuse, for_range.
    change (Z.to_nat (4 - 1 + 1 - 0)) with 4%nat.
    rewrite (for_from_const (fun y => setBoundary (diffuse_sweep x_0 y) bt)).
    apply iter_ext. intros s. rewrite diffuse_sweep_fold. reflexivity.
  - intros x_0 y i j Hy Hi. cbv zeta. split.
    + rewrite <- !cells_eq. apply diffuse_cell_cells; assumption.
    + intros k Hk. apply diffuse_cell_other, Hk.
Qed.

Lemma diffuse_semantics_witness :
  load (diffuse_cell zeros 1 1 zeros) (index 1 1) = 0%float.
Proof.
  pose proof (proj1 (proj2 diffuse_semantics zeros zeros 1 1 length_zeros
                       ltac:(unfold interior, numCells; lia))) as H.
  cbv zeta in H. rewrite H. vm_compute. reflexivity.
Defined.

(** ** Claim on the scratch buffers of [project] *)

Lemma load_zeros k : 0 ≤ k < size → load zeros k = 0%float.
Proof.
  intros Hk. apply load_lookup; [lia |].
  unfold zeros. apply lookup_replicate_2. lia.
Qed.

(** The first loop of [project] leaves [p] as a fresh buffer. *)
Lemma zero_fill (p : array) :
  wf p → for_range 0 (size - 1) (fun i p => store p i 0%float) p = zeros.
Proof.
  intros Hp.
  pose (P := fun (i : Z) (y : array) => wf y ∧ ∀ k, 0 ≤ k < i → load y k = 0%float).
  assert (HP : P (size - 1 + 1) (for_range 0 (size - 1) (fun i p => store p i 0%float) p)).
  { apply for_range_ind; [unfold size, numCells; lia | |].
    - split; [exact Hp |]. intros k Hk. lia.
    - intros i y Hi [Hy Hc]. split; [apply wf_store, Hy |].
      intros k Hk. destruct (decide (i = k)) as [<-|Hne].
      + rewrite load_store_eq by (apply wf_range; [exact Hy | lia]). reflexivity.
      + rewrite load_store_ne by exact Hne. apply Hc. lia. }
  destruct HP as [Hy Hc].
  apply array_ext.
  - rewrite Hy. symmetry. exact length_zeros.
  - intros k Hk. rewrite Hy in Hk.
    assert (Hk' : 0 ≤ k < size) by (unfold size, numCells in *; lia).
    rewrite load_zeros by exact Hk'. apply Hc. lia.
Qed.

Lemma wf_project_div (u v div : array) : wf div → wf (project_div u v div).
Proof. intros Hd. rewrite project_div_fill. apply fill_pass_cells, Hd. Qed.

(** The divergence buffer after its boundary pass does not depend on what
    the buffer held. *)
Lemma project_div_scratch (u v div div' : array) :
  wf div → wf div' →
  setBoundary (project_div u v div) continuous
  = setBoundary (project_div u v div') continuous.
Proof.
  intros Hd Hd'.
  apply cells_ext; [apply setBoundary_wf, wf_project_div, Hd
                   | apply setBoundary_wf, wf_project_div, Hd' |].
  intros a b Hg.
  rewrite (setBoundary_cells (project_div u v div)) by (try exact Hg; apply wf_project_div, Hd).
  rewrite (setBoundary_cells (project_div u v div')) by (try exact Hg; apply wf_project_div, Hd').
  apply bnd_ext; [|exact Hg].
  intros a' b' Hi. rewrite !project_div_fill.
  rewrite (fill_pass_interior _ div) by assumption.
  rewrite (fill_pass_interior _ div') by assumption.
  reflexivity.
Qed.

(** C9. The final [u] and [v] of [project(u, v, p, div)] (and the final [p]
    and [div] as well) do not depend on what the scratch buffers [p] and [div]
    held: [p] is zero-filled, and every cell of [div] is written before it is
    read. *)
Theorem project_scratch_independent (u v p div p' div' : array) :
  wf p → wf div → wf p' → wf div' →
  project u v p div = project u v p' div'.
Proof.
  intros Hp Hd Hp' Hd'. unfold project. cbv zeta.
  rewrite (zero_fill p Hp), (zero_fill p' Hp').
  rewrite (project_div_scratch u v div div' Hd Hd').
  reflexivity.
Qed.

Lemma project_scratch_independent_witness :
  project zeros zeros zeros zeros
  = project zeros zeros (store zeros 0 1%float) (store zeros (index 3 4) 2%float).
Proof.
  apply project_scratch_independent;
    first [exact length_zeros | apply wf_store, length_zeros].
Defined.

(** ** Zero fields *)

Ltac zero_cases :=
  repeat match goal with
  | H : zeroish _ |- _ => destruct H as [-> | ->]
  end;
  first [left; vm_compute; reflexivity | right; vm_compute; reflexivity].

Lemma zeroish_is_zero w : zeroish w → is_zero w = true.
Proof. intros [-> | ->]; reflexivity. Qed.


Lemma zeroish_fround w : zeroish w → zeroish (fround w).
Proof. intros H. zero_cases. Qed.

Lemma zeroish_source a b : zeroish a → zeroish b → zeroish (fround (a + dt * b)).
Proof. intros Ha Hb. zero_cases. Qed.

Lemma zeroish_ghost (f : bool) c : zeroish c → zeroish (fround (flip f c)).
Proof. intros Hc. destruct f; cbn [flip]; zero_cases. Qed.

Lemma zeroish_corner a b : zeroish a → zeroish b → zeroish (fround (0.5 * (a + b))).
Proof. intros Ha Hb. zero_cases. Qed.

Lemma zeroish_diffuse_1 x0 a b c d :
  zeroish x0 → zeroish a → zeroish b → zeroish c → zeroish d →
  zeroish (fround (x0 + diffuse_a * (a + b + c + d))).
Proof. intros H0 Ha Hb Hc Hd. zero_cases. Qed.

Lemma zeroish_diffuse_2 w : zeroish w → zeroish (fround (w / (1 + 4 * diffuse_a))).
Proof. intros Hw. zero_cases. Qed.

Lemma zeroish_divergence a b c d :
  zeroish a → zeroish b → zeroish c → zeroish d →
  zeroish ((a - b) / -2 * h + (c - d) / -2 * h)%float.
Proof. intros Ha Hb Hc Hd. zero_cases. Qed.

Lemma zeroish_project_cell a b c d dv :
  zeroish a → zeroish b → zeroish c → zeroish d → zeroish dv →
  zeroish (fround ((a + b + c + d + dv) / 4)).
Proof. intros Ha Hb Hc Hd Hv. zero_cases. Qed.

Lemma zeroish_project_grad w a b :
  zeroish w → zeroish a → zeroish b → zeroish (fround (w - (a - b) / (2 * h))).
Proof. intros Hw Ha Hb. zero_cases. Qed.

Lemma zeroish_bilinear a b c d :
  zeroish a → zeroish b → zeroish c → zeroish d →
  zeroish (fround ((1 - 0) * ((1 - 0) * a + 0 * b) + 0 * ((1 - 0) * c + 0 * d))).
Proof. intros Ha Hb Hc Hd. zero_cases. Qed.

Lemma zero_field_zeros : zero_field zeros.
Proof.
  split; [exact length_zeros |]. unfold zeros. apply Forall_replicate. left. reflexivity.
Qed.

Lemma zero_field_load (x : array) k : zero_field x → 0 ≤ k < size → zeroish (load x k).
Proof.
  intros [Hx Hz] Hk. apply (load_in_Forall zeroish); [exact Hz |].
  apply wf_range; assumption.
Qed.

Lemma zero_field_cell (x : array) a b : zero_field x → in_grid a b → zeroish (load x (index a b)).
Proof. intros Hx Hg. apply zero_field_load; [exact Hx | apply index_range, Hg]. Qed.

Lemma zero_field_store (x : array) k w :
  zero_field x → zeroish (fround w) → zero_field (store x k w).
Proof.
  intros [Hx Hz] Hw. split; [apply wf_store, Hx | apply Forall_store; assumption].
Qed.


Lemma zero_field_addSource (x s : array) :
  zero_field x → zero_field s → zero_field (addSource x s).
Proof.
  intros Hx Hs. unfold addSource.
  apply (for_range_inv zero_field); [exact Hx |].
  intros i y Hi Hy. apply zero_field_store; [exact Hy |].
  apply zeroish_source; apply zero_field_load; first [assumption | lia].
Qed.

Lemma zero_field_corner (y : array) k a1 b1 a2 b2 :
  zero_field y → in_grid a1 b1 → in_grid a2 b2 →
  zero_field (store y k (0.5 * (load y (index a1 b1) + load y (index a2 b2)))).
Proof.
  intros Hy H1 H2. apply zero_field_store; [exact Hy |].
  apply zeroish_corner; apply zero_field_cell; assumption.
Qed.

Lemma zero_field_setBoundary (x : array) bt : zero_field x → zero_field (setBoundary x bt).
Proof.
  intros Hx. unfold setBoundary. cbv zeta.
  assert (H1 : zero_field (for_range 1 numCells (setBoundary_top_bottom bt) x)).
  { apply (for_range_inv zero_field); [exact Hx |].
    intros i y Hi Hy. rewrite setBoundary_top_bottom_eq. cbv zeta.
    assert (Hy' : zero_field (store y (index i 0) (flip (wallTB bt) (load y (index i 1))))).
    { apply zero_field_store; [exact Hy |].
      apply zeroish_ghost, zero_field_cell; [exact Hy | grid]. }
    apply zero_field_store; [exact Hy' |].
    apply zeroish_ghost, zero_field_cell; [exact Hy' | grid]. }
  assert (H2 : zero_field (for_range 1 numCells (setBoundary_left_right bt)
                             (for_range 1 numCells (setBoundary_top_bottom bt) x))).
  { apply (for_range_inv zero_field); [exact H1 |].
    intros j y Hj Hy. rewrite setBoundary_left_right_eq. cbv zeta.
    assert (Hy' : zero_field (store y (index 0 j) (flip (wallLR bt) (load y (index 1 j))))).
    { apply zero_field_store; [exact Hy |].
      apply zeroish_ghost, zero_field_cell; [exact Hy | grid]. }
    apply zero_field_store; [exact Hy' |].
    apply zeroish_ghost, zero_field_cell; [exact Hy' | grid]. }
  revert H2. generalize (for_range 1 numCells (setBoundary_left_right bt)
                           (for_range 1 numCells (setBoundary_top_bottom bt) x)).
  intros y Hy. unfold setBoundary_corners. cbv zeta.
  repeat (apply zero_field_corner; [| grid | grid]). exact Hy.
Qed.

Lemma zero_field_diffuse (x x_0 : array) bt :
  zero_field x → zero_field x_0 → zero_field (diffuse x x_0 bt).
Proof.
  intros Hx H0. unfold diffuse.
  apply (for_range_inv zero_field); [exact Hx |].
  intros k y _ Hy. apply zero_field_setBoundary. unfold diffuse_sweep.
  apply (for_range_inv zero_field); [exact Hy |].
  intros i z Hi Hz.
  apply (for_range_inv zero_field); [exact Hz |].
  intros j t Hj Ht. unfold diffuse_cell. cbv zeta.
  assert (Ht' : zero_field
    (store t (index i j)
       (load x_0 (index i j)
        + diffuse_a * (load t (index (i - 1) j) + load t (index (i + 1) j)
                       + load t (index i (j - 1)) + load t (index i (j + 1)))))).
  { apply zero_field_store; [exact Ht |].
    apply zeroish_diffuse_1; apply zero_field_cell; first [assumption | grid]. }
  apply zero_field_store; [exact Ht' |].
  apply zeroish_diffuse_2, zero_field_cell; [exact Ht' | grid].
Qed.

(** ** Small integers as numbers: facts checked by evaluation *)

Lemma forallb_seqZ (f : Z → bool) lo n :
  forallb f (seqZ lo n) = true → ∀ z, lo ≤ z < lo + n → f z = true.
Proof.
  intros H z Hz. rewrite forallb_forall in H. apply H.
  apply list_elem_of_In, elem_of_seqZ. lia.
Qed.

Lemma check_coord_ok c : 1 ≤ c ≤ numCells → check_coord c = true.
Proof.
  intros Hc. apply (forallb_seqZ check_coord 1 numCells); [| lia].
  vm_compute. reflexivity.
Qed.

Lemma check_succ_ok z : 0 ≤ z ≤ numCells → check_succ z = true.
Proof.
  intros Hz. apply (forallb_seqZ check_succ 0 (numCells + 1)); [| lia].
  vm_compute. reflexivity.
Qed.

Lemma check_index_ok a b : in_grid a b → check_index a b = true.
Proof.
  intros [Ha Hb].
  assert (H : forallb (fun a => forallb (check_index a) (seqZ 0 (numCells + 2)))
                (seqZ 0 (numCells + 2)) = true) by (vm_compute; reflexivity).
  apply (forallb_seqZ (check_index a) 0 (numCells + 2)); [| lia].
  apply (forallb_seqZ (fun a => forallb (check_index a) (seqZ 0 (numCells + 2)))
           0 (numCells + 2)); [exact H | lia].
Qed.

Lemma Z2F_succ z : 0 ≤ z ≤ numCells → (Z2F z + 1)%float = Z2F (z + 1).
Proof. intros Hz. apply Leibniz.eqb_spec, check_succ_ok, Hz. Qed.

Lemma toIndex_indexF a b : in_grid a b → toIndex (indexF (Z2F a) (Z2F b)) = Some (index a b).
Proof.
  intros Hg. pose proof (check_index_ok a b Hg) as H. unfold check_index in H.
  destruct (toIndex (indexF (Z2F a) (Z2F b))) as [k|]; [|discriminate].
  apply Z.eqb_eq in H. congruence.
Qed.

(** On grid coordinates, the offset [advect] computes with numbers is the
    offset [index] computes with integers. *)
Lemma loadF_indexF (x : array) a b :
  in_grid a b → loadF x (indexF (Z2F a) (Z2F b)) = load x (index a b).
Proof. intros Hg. unfold loadF. rewrite toIndex_indexF by exact Hg. reflexivity. Qed.

Lemma coord_facts c w :
  1 ≤ c ≤ numCells → zeroish w →
  backtrace c w = Z2F c ∧ Math_floor (Z2F c) = Z2F c ∧ (Z2F c - Z2F c)%float = zero.
Proof.
  intros Hc Hw. pose proof (check_coord_ok c Hc) as H. unfold check_coord in H.
  repeat (apply andb_true_iff in H; destruct H as [H ?]).
  repeat match goal with
  | E : Leibniz.eqb _ _ = true |- _ => apply Leibniz.eqb_spec in E
  end.
  destruct Hw as [-> | ->]; auto.
Qed.

Lemma zeroish_advect_cell (x_0 : array) i j wu wv :
  zero_field x_0 → interior i j → zeroish wu → zeroish wv →
  zeroish (fround (bilinear x_0 (backtrace i wu) (backtrace j wv))).
Proof.
  intros H0 Hi Hu Hv.
  destruct (coord_facts i wu ltac:(grid) Hu) as (-> & Fi & Si).
  destruct (coord_facts j wv ltac:(grid) Hv) as (-> & Fj & Sj).
  unfold bilinear. cbv zeta. rewrite Fi, Fj, Si, Sj.
  rewrite !Z2F_succ by grid.
  rewrite !loadF_indexF by grid.
  apply zeroish_bilinear; apply zero_field_cell; first [assumption | grid].
Qed.

Lemma zero_field_advect (x x_0 u_0 v_0 : array) bt :
  zero_field x → zero_field x_0 → zero_field u_0 → zero_field v_0 →
  zero_field (advect x x_0 u_0 v_0 bt).
Proof.
  intros Hx H0 Hu Hv. rewrite advect_eq. apply zero_field_setBoundary.
  unfold advect_pass.
  apply (for_range_inv zero_field); [exact Hx |].
  intros i z Hi Hz.
  apply (for_range_inv zero_field); [exact Hz |].
  intros j t Hj Ht. unfold advect_cell. cbv zeta.
  apply zero_field_store; [exact Ht |].
  apply zeroish_advect_cell; try assumption; try (split; assumption).
  all: apply zero_field_cell; first [assumption | grid].
Qed.

Lemma zero_field_project_sweep (div p : array) :
  zero_field div → zero_field p → zero_field (project_sweep div p).
Proof.
  intros Hd Hp. unfold project_sweep.
  apply (for_range_inv zero_field); [exact Hp |].
  intros i z Hi Hz.
  apply (for_range_inv zero_field); [exact Hz |].
  intros j t Hj Ht. unfold project_cell.
  apply zero_field_store; [exact Ht |].
  apply zeroish_project_cell; apply zero_field_cell; first [assumption | grid].
Qed.

Lemma zero_field_project_div (u v div : array) :
  zero_field u → zero_field v → zero_field div → zero_field (project_div u v div).
Proof.
  intros Hu Hv Hd. unfold project_div.
  apply (for_range_inv zero_field); [exact Hd |].
  intros i z Hi Hz.
  apply (for_range_inv zero_field); [exact Hz |].
  intros j t Hj Ht.
  apply zero_field_store; [exact Ht |].
  apply zeroish_fround. unfold divergence.
  apply zeroish_divergence; apply zero_field_cell; first [assumption | grid].
Qed.

Lemma zero_field_project_grad (p u v : array) :
  zero_field p → zero_field u → zero_field v →
  zero_field (for_range 1 numCells (fun i =>
                for_range 1 numCells (fun j => project_grad p i j)) (u, v)).1 ∧
  zero_field (for_range 1 numCells (fun i =>
                for_range 1 numCells (fun j => project_grad p i j)) (u, v)).2.
Proof.
  intros Hp Hu Hv.
  apply (for_range_inv (fun uv : array * array => zero_field uv.1 ∧ zero_field uv.2));
    [split; assumption |].
  intros i z Hi Hz.
  apply (for_range_inv (fun uv : array * array => zero_field uv.1 ∧ zero_field uv.2));
    [exact Hz |].
  intros j [u' v'] Hj [Hu' Hv']. cbn [fst snd] in Hu', Hv'.
  unfold project_grad. cbn [fst snd].
  split; (apply zero_field_store; [assumption |]);
    apply zeroish_project_grad; apply zero_field_cell; first [assumption | grid].
Qed.

Lemma zero_field_project (u v p div : array) :
  zero_field u → zero_field v → zero_field p → zero_field div →
  ∀ u' v' p' div', project u v p div = (u', v', p', div') →
  zero_field u' ∧ zero_field v' ∧ zero_field p' ∧ zero_field div'.
Proof.
  intros Hu Hv Hp Hd u' v' p' div'. unfold project. cbv zeta.
  rewrite (zero_fill p (proj1 Hp)).
  assert (HD : zero_field (setBoundary (project_div u v div) continuous)).
  { apply zero_field_setBoundary, zero_field_project_div; assumption. }
  revert HD. generalize (setBoundary (project_div u v div) continuous). intros D HD.
  assert (HP : zero_field (for_range 0 (10 - 1)
                 (fun _ p0 => setBoundary (project_sweep D p0) continuous) zeros)).
  { apply (for_range_inv zero_field); [exact zero_field_zeros |].
    intros k y _ Hy. apply zero_field_setBoundary, zero_field_project_sweep; assumption. }
  revert HP. generalize (for_range 0 (10 - 1)
                 (fun _ p0 => setBoundary (project_sweep D p0) continuous) zeros).
  intros P HP.
  pose proof (zero_field_project_grad P u v HP Hu Hv) as [H1 H2].
  destruct (for_range 1 numCells (fun i =>
              for_range 1 numCells (fun j => project_grad P i j)) (u, v)) as [u1 v1].
  cbn [fst snd] in H1, H2.
  intros [= <- <- <- <-].
  repeat split; try apply zero_field_setBoundary; first [apply H1 | apply H2 | apply HP | apply HD].
Qed.

(** ** Claim on zero sources *)

Lemma zero_state_velocityStep (s : State) : zero_state s → zero_state (velocityStep s).
Proof.
  destruct s as [u v d uPrev vPrev dPrev dSource uSource vSource].
  intros (Hu & Hv & Hd & Hup & Hvp & Hdp & Hds & Hus & Hvs). cbn in * |-.
  unfold velocityStep.
  pose proof (zero_field_addSource u uSource Hu Hus) as Hu1.
  pose proof (zero_field_addSource v vSource Hv Hvs) as Hv1.
  pose proof (zero_field_diffuse uPrev _ left_right_walls Hup Hu1) as Hu2.
  pose proof (zero_field_diffuse vPrev _ top_bottom_walls Hvp Hv1) as Hv2.
  pose proof (zero_field_project _ _ _ _ Hu2 Hv2 Hu1 Hv1) as HP1.
  destruct (project (diffuse uPrev (addSource u uSource) left_right_walls)
              (diffuse vPrev (addSource v vSource) top_bottom_walls)
              (addSource u uSource) (addSource v vSource))
    as [[[u1 v1] p1] div1].
  destruct (HP1 _ _ _ _ eq_refl) as (Hu3 & Hv3 & Hp3 & Hd3).
  pose proof (zero_field_advect p1 u1 u1 v1 left_right_walls Hp3 Hu3 Hu3 Hv3) as Hu4.
  pose proof (zero_field_advect div1 v1 u1 v1 top_bottom_walls Hd3 Hv3 Hu3 Hv3) as Hv4.
  pose proof (zero_field_project _ _ _ _ Hu4 Hv4 Hu3 Hv3) as HP2.
  destruct (project (advect p1 u1 u1 v1 left_right_walls)
              (advect div1 v1 u1 v1 top_bottom_walls) u1 v1)
    as [[[u2 v2] p2] div2].
  destruct (HP2 _ _ _ _ eq_refl) as (Hu5 & Hv5 & Hp5 & Hd5).
  unfold zero_state.
  exact (conj Hu5 (conj Hv5 (conj Hd (conj Hp5 (conj Hd5 (conj Hdp (conj Hds (conj Hus Hvs)))))))).
Qed.

Lemma zero_state_densityStep (s : State) : zero_state s → zero_state (densityStep s).
Proof.
  destruct s as [u v d uPrev vPrev dPrev dSource uSource vSource].
  intros (Hu & Hv & Hd & Hup & Hvp & Hdp & Hds & Hus & Hvs). cbn in * |-.
  unfold densityStep.
  pose proof (zero_field_addSource d dSource Hd Hds) as Hd1.
  pose proof (zero_field_diffuse dPrev _ continuous Hdp Hd1) as Hd2.
  pose proof (zero_field_advect _ _ u v continuous Hd1 Hd2 Hu Hv) as Hd3.
  unfold zero_state.
  exact (conj Hu (conj Hv (conj Hd3 (conj Hup (conj Hvp (conj Hd2 (conj Hds (conj Hus Hvs)))))))).
Qed.

Lemma zero_state_initial : zero_state initial.
Proof.
  unfold zero_state, initial.
  pose proof zero_field_zeros as Z.
  exact (conj Z (conj Z (conj Z (conj Z (conj Z (conj Z (conj Z (conj Z Z)))))))).
Qed.

Lemma zero_state_iter n : zero_state (Nat.iter n step initial).
Proof.
  induction n as [|n IH]; [exact zero_state_initial |].
  rewrite Nat.iter_succ. unfold step.
  apply zero_state_densityStep, zero_state_velocityStep, IH.
Qed.

Lemma zero_field_all_zero (x : array) :
  zero_field x → wf x ∧ Forall (fun w => is_zero w = true) x.
Proof.
  intros [Hx Hz]. split; [exact Hx |].
  eapply Forall_impl; [exact Hz |]. intros w Hw. apply zeroish_is_zero, Hw.
Qed.

(** C1. Starting from the buffers as the module creates them (the density,
    both velocity components, the previous buffers and the three source
    buffers all zero), any number of ticks leaves the density and both
    velocity components zero in every cell: every cell compares equal to zero
    (the ghost cells at a wall hold [-0], the negation of [+0]). *)
Theorem zero_source_stability (n : nat) :
  let s := Nat.iter n step initial in
  (wf (d s) ∧ Forall (fun w => is_zero w = true) (d s)) ∧
  (wf (u s) ∧ Forall (fun w => is_zero w = true) (u s)) ∧
  (wf (v s) ∧ Forall (fun w => is_zero w = true) (v s)).
Proof.
  cbv zeta. destruct (zero_state_iter n) as (Hu & Hv & Hd & _).
  split; [|split]; apply zero_field_all_zero; assumption.
Qed.

(** ** Claim on the divergence after [project] *)















Lemma setBoundary_twice (x : array) bt :
  wf x → setBoundary (setBoundary x bt) bt = setBoundary x bt.
Proof.
  intros Hx.
  apply cells_ext; [apply setBoundary_wf, setBoundary_wf, Hx | apply setBoundary_wf, Hx |].
  intros a b Hg.
  rewrite (setBoundary_cells (setBoundary x bt) bt a b)
    by (try exact Hg; apply setBoundary_wf, Hx).
  rewrite (setBoundary_cells x bt a b) by assumption.
  apply bnd_ext; [|exact Hg].
  intros a' b' Hi. rewrite setBoundary_cells by (try exact Hx; grid).
  apply bnd_interior, Hi.
Qed.






(** ** The checked execution agrees with the solver *)

Lemma bind_Some {A B : Type} (a : A) (f : A → option B) : Some a ≫= f = f a.
Proof. reflexivity. Qed.

Lemma for_fromC_ok {T : Type} (P : T → Prop) (bodyC : Z → T → option T)
    (body : Z → T → T) (n : nat) : ∀ i s,
  P s →
  (∀ k t, i ≤ k < i + Z.of_nat n → P t → bodyC k t = Some (body k t) ∧ P (body k t)) →
  for_from n i (fun i o => o ≫= bodyC i) (Some s) = Some (for_from n i body s)
  ∧ P (for_from n i body s).
Proof.
  induction n as [|n IH]; intros i s Hs Hb; [split; [reflexivity | exact Hs] |].
  cbn [for_from]. rewrite bind_Some.
  destruct (Hb i s ltac:(lia) Hs) as [-> Hs'].
  apply IH; [exact Hs' |]. intros k t Hk. apply Hb. lia.
Qed.

Lemma for_rangeC_ok {T : Type} (P : T → Prop) (bodyC : Z → T → option T)
    (body : Z → T → T) lo hi s :
  P s →
  (∀ k t, lo ≤ k ≤ hi → P t → bodyC k t = Some (body k t) ∧ P (body k t)) →
  for_rangeC lo hi bodyC s = Some (for_range lo hi body s) ∧ P (for_range lo hi body s).
Proof.
  intros Hs Hb. unfold for_rangeC, for_range.
  apply for_fromC_ok; [exact Hs |]. intros k t Hk. apply Hb. lia.
Qed.

Lemma loadC_ok (x : array) k : 0 ≤ k < Z.of_nat (length x) → loadC x k = Some (load x k).
Proof.
  intros Hk. unfold loadC, load. destruct (Z.ltb_spec k 0); [lia |].
  destruct (lookup_lt_is_Some_2 x (Z.to_nat k)) as [w Hw]; [lia |].
  rewrite Hw. reflexivity.
Qed.

Lemma storeC_ok (x : array) k w :
  0 ≤ k < Z.of_nat (length x) → storeC x k w = Some (store x k w).
Proof.
  intros Hk. unfold storeC.
  destruct (Z.leb_spec 0 k); [|lia]. destruct (Z.ltb_spec k (Z.of_nat (length x))); [|lia].
  reflexivity.
Qed.

Lemma loadC_cell (x : array) a b :
  wf x → in_grid a b → loadC x (index a b) = Some (load x (index a b)).
Proof. intros Hx Hg. apply loadC_ok, wf_range, index_range; assumption. Qed.

Lemma storeC_cell (x : array) a b w :
  wf x → in_grid a b → storeC x (index a b) w = Some (store x (index a b) w).
Proof. intros Hx Hg. apply storeC_ok, wf_range, index_range; assumption. Qed.

(** Rewrites the checked accesses of a goal into plain ones. *)
Ltac checked :=
  repeat first
    [ rewrite bind_Some
    | rewrite loadC_cell by (first [assumption | repeat apply wf_store; assumption | grid])
    | rewrite storeC_cell by (first [assumption | repeat apply wf_store; assumption | grid]) ].

Lemma setBoundary_top_bottomC_ok bt i (x : array) :
  wf x → 1 ≤ i ≤ numCells →
  setBoundary_top_bottomC bt i x = Some (setBoundary_top_bottom bt i x)
  ∧ wf (setBoundary_top_bottom bt i x).
Proof.
  intros Hx Hi. split.
  - unfold setBoundary_top_bottomC, setBoundary_top_bottom.
    destruct bt; checked; reflexivity.
  - rewrite setBoundary_top_bottom_eq. cbv zeta. apply wf_store, wf_store, Hx.
Qed.

Lemma setBoundary_left_rightC_ok bt j (x : array) :
  wf x → 1 ≤ j ≤ numCells →
  setBoundary_left_rightC bt j x = Some (setBoundary_left_right bt j x)
  ∧ wf (setBoundary_left_right bt j x).
Proof.
  intros Hx Hj. split.
  - unfold setBoundary_left_rightC, setBoundary_left_right.
    destruct bt; checked; reflexivity.
  - rewrite setBoundary_left_right_eq. cbv zeta. apply wf_store, wf_store, Hx.
Qed.

Lemma setBoundary_cornersC_ok (x : array) :
  wf x → setBoundary_cornersC x = Some (setBoundary_corners x).
Proof.
  intros Hx. unfold setBoundary_cornersC, setBoundary_corners. checked. reflexivity.
Qed.

Lemma setBoundaryC_ok (x : array) bt :
  wf x → setBoundaryC x bt = Some (setBoundary x bt).
Proof.
  intros Hx. unfold setBoundaryC, setBoundary. cbv zeta.
  destruct (for_rangeC_ok wf (setBoundary_top_bottomC bt) (setBoundary_top_bottom bt)
              1 numCells x Hx) as [-> H1].
  { intros k t Hk Ht. apply setBoundary_top_bottomC_ok; assumption. }
  rewrite bind_Some.
  destruct (for_rangeC_ok wf (setBoundary_left_rightC bt) (setBoundary_left_right bt)
              1 numCells _ H1) as [-> H2].
  { intros k t Hk Ht. apply setBoundary_left_rightC_ok; assumption. }
  rewrite bind_Some. apply setBoundary_cornersC_ok, H2.
Qed.

(** A double loop over the interior whose checked body agrees with the plain
    one on every buffer of the right size. *)
Lemma gridC_ok {T : Type} (P : T → Prop) (bodyC : Z → Z → T → option T)
    (body : Z → Z → T → T) (s : T) :
  P s →
  (∀ i j t, interior i j → P t → bodyC i j t = Some (body i j t) ∧ P (body i j t)) →
  for_rangeC 1 numCells (fun i => for_rangeC 1 numCells (fun j => bodyC i j)) s
  = Some (for_range 1 numCells (fun i => for_range 1 numCells (fun j => body i j)) s)
  ∧ P (for_range 1 numCells (fun i => for_range 1 numCells (fun j => body i j)) s).
Proof.
  intros Hs Hb.
  apply (for_rangeC_ok P); [exact Hs |].
  intros i t Hi Ht.
  apply (for_rangeC_ok P); [exact Ht |].
  intros j t' Hj Ht'. apply Hb; [split; assumption | exact Ht'].
Qed.

Lemma diffuse_cellC_ok (x_0 x : array) i j :
  wf x_0 → wf x → interior i j →
  diffuse_cellC x_0 i j x = Some (diffuse_cell x_0 i j x) ∧ wf (diffuse_cell x_0 i j x).
Proof.
  intros H0 Hx Hi. split; [|apply wf_diffuse_cell, Hx].
  unfold diffuse_cellC, diffuse_cell. checked. reflexivity.
Qed.

Lemma diffuseC_ok (x x_0 : array) bt :
  wf x → wf x_0 → diffuseC x x_0 bt = Some (diffuse x x_0 bt).
Proof.
  intros Hx H0. unfold diffuseC, diffuse.
  apply (for_rangeC_ok wf); [exact Hx |].
  intros k t _ Ht. unfold diffuse_sweep.
  destruct (gridC_ok wf (diffuse_cellC x_0) (diffuse_cell x_0) t Ht) as [-> Ht'].
  { intros i j t' Hi Ht'. apply diffuse_cellC_ok; assumption. }
  rewrite bind_Some. split; [apply setBoundaryC_ok, Ht' | apply setBoundary_wf, Ht'].
Qed.

Lemma project_div_cellC_ok (u v div : array) i j :
  wf u → wf v → wf div → interior i j →
  project_div_cellC u v i j div = Some (store div (index i j) (divergence u v i j))
  ∧ wf (store div (index i j) (divergence u v i j)).
Proof.
  intros Hu Hv Hd Hi. split; [|apply wf_store, Hd].
  unfold project_div_cellC, divergence. checked. reflexivity.
Qed.

Lemma project_cellC_ok (div p : array) i j :
  wf div → wf p → interior i j →
  project_cellC div i j p = Some (project_cell div i j p) ∧ wf (project_cell div i j p).
Proof.
  intros Hd Hp Hi. split; [|apply wf_store, Hp].
  unfold project_cellC, project_cell. checked. reflexivity.
Qed.

Lemma project_gradC_ok (p : array) i j (uv : array * array) :
  wf p → wf uv.1 ∧ wf uv.2 → interior i j →
  project_gradC p i j uv = Some (project_grad p i j uv)
  ∧ (wf (project_grad p i j uv).1 ∧ wf (project_grad p i j uv).2).
Proof.
  intros Hp [Hu Hv] Hi. destruct uv as [u v]. cbn [fst snd] in Hu, Hv.
  unfold project_gradC, project_grad. split.
  - checked. reflexivity.
  - cbn [fst snd]. split; apply wf_store; assumption.
Qed.

Lemma zero_fillC_ok (p : array) :
  wf p →
  for_rangeC 0 (size - 1) (fun i p => storeC p i 0%float) p
  = Some (for_range 0 (size - 1) (fun i p => store p i 0%float) p).
Proof.
  intros Hp. apply (for_rangeC_ok wf); [exact Hp |].
  intros k t Hk Ht. split; [|apply wf_store, Ht].
  apply storeC_ok, wf_range; [exact Ht | lia].
Qed.

Lemma projectC_ok (u v p div : array) :
  wf u → wf v → wf p → wf div →
  projectC u v p div = Some (project u v p div).
Proof.
  intros Hu Hv Hp Hd. unfold projectC, project. cbv zeta.
  rewrite (zero_fillC_ok p Hp), bind_Some.
  rewrite (zero_fill p Hp).
  destruct (gridC_ok wf (project_div_cellC u v)
              (fun i j div => store div (index i j) (divergence u v i j)) div Hd)
    as [-> HD].
  { intros i j t Hi Ht. apply project_div_cellC_ok; assumption. }
  rewrite bind_Some. fold (project_div u v div) in *.
  rewrite (setBoundaryC_ok _ continuous HD), bind_Some.
  pose proof (setBoundary_wf _ continuous HD) as HD'.
  revert HD'. generalize (setBoundary (project_div u v div) continuous). intros D HD'.
  destruct (for_rangeC_ok wf
              (fun _ p0 => p1 ← for_rangeC 1 numCells (fun i =>
                                  for_rangeC 1 numCells (fun j => project_cellC D i j)) p0;
                           setBoundaryC p1 continuous)
              (fun _ p0 => setBoundary (project_sweep D p0) continuous)
              0 (10 - 1) zeros length_zeros) as [-> HP].
  { intros k t _ Ht. unfold project_sweep.
    destruct (gridC_ok wf (project_cellC D) (project_cell D) t Ht) as [-> Ht'].
    { intros i j t' Hi Ht'. apply project_cellC_ok; assumption. }
    rewrite bind_Some. split; [apply setBoundaryC_ok, Ht' | apply setBoundary_wf, Ht']. }
  rewrite bind_Some.
  revert HP. generalize (for_range 0 (10 - 1)
                 (fun _ p0 => setBoundary (project_sweep D p0) continuous) zeros).
  intros P HP.
  destruct (gridC_ok (fun uv : array * array => wf uv.1 ∧ wf uv.2)
              (project_gradC P) (project_grad P) (u, v) (conj Hu Hv)) as [-> [HU HV]].
  { intros i j t Hi Ht. apply project_gradC_ok; assumption. }
  rewrite bind_Some.
  destruct (for_range 1 numCells (fun i =>
              for_range 1 numCells (fun j => project_grad P i j)) (u, v)) as [u1 v1].
  cbn [fst snd] in *.
  rewrite (setBoundaryC_ok u1 left_right_walls HU), bind_Some.
  rewrite (setBoundaryC_ok v1 top_bottom_walls HV), bind_Some.
  reflexivity.
Qed.

Lemma not_nan_is_nan (x : float) : Prim2SF x ≠ S754_nan → is_nan x = false.
Proof.
  unfold is_nan. rewrite eqb_spec. intros H.
  destruct (Prim2SF x) as [[]|[]| |s m e]; try reflexivity; [congruence |].
  unfold SFeqb. rewrite SFcompare_refl_finite. reflexivity.
Qed.

Lemma check_finite_ok c : 1 ≤ c ≤ numCells → check_finite c = true.
Proof.
  intros Hc. apply (forallb_seqZ check_finite 1 numCells); [| lia].
  vm_compute. reflexivity.
Qed.

(** The position [advect] traces back to is a number as soon as the velocity
    is one. *)
Lemma backtrace_position_not_nan (c : Z) (w : float) :
  1 ≤ c ≤ numCells → is_nan w = false →
  is_nan (Z2F c - dt * w * Z2F numCells)%float = false.
Proof.
  intros Hc Hw. apply is_nan_false in Hw. apply not_nan_is_nan.
  rewrite sub_spec, !mul_spec.
  pose proof (check_finite_ok c Hc) as Hf. unfold check_finite in Hf.
  destruct (Prim2SF (Z2F c)) as [| | |s m e]; try discriminate.
  apply SFsub_finite_l.
  change (Prim2SF (Z2F numCells)) with (S754_finite false 7036874417766400 (-47)).
  apply SFmul_finite_r.
  let v := eval vm_compute in (Prim2SF dt) in change (Prim2SF dt) with v.
  apply SFmul_finite_l, Hw.
Qed.

(** After the clamp, the cell a traced-back coordinate falls in is one of
    [0 .. numCells]. *)
Lemma backtrace_range (c : Z) (w : float) :
  1 ≤ c ≤ numCells → is_nan w = false →
  ∃ z, 0 ≤ z ≤ numCells ∧ Math_floor (backtrace c w) = Z2F z.
Proof.
  intros Hc Hw. rewrite backtrace_clamp. cbv zeta.
  pose proof (backtrace_position_not_nan c w Hc Hw) as Hn.
  revert Hn. generalize (Z2F c - dt * w * Z2F numCells)%float. intros p Hn.
  change (Z2F numCells + 0.5)%float with 50.5%float.
  destruct (p <? 0.5)%float eqn:Hlo.
  { exists 0. split; [unfold numCells; lia | reflexivity]. }
  destruct (50.5 <? p)%float eqn:Hhi.
  { exists 50. split; [unfold numCells; lia | reflexivity]. }
  apply floor_between; assumption.
Qed.

Lemma loadFC_indexF (x : array) a b :
  wf x → in_grid a b → loadFC x (indexF (Z2F a) (Z2F b)) = Some (loadF x (indexF (Z2F a) (Z2F b))).
Proof.
  intros Hx Hg. unfold loadFC, loadF. rewrite toIndex_indexF by exact Hg.
  apply loadC_cell; assumption.
Qed.

Lemma bilinearC_ok (x_0 : array) (p_x p_y : float) a b :
  wf x_0 → 0 ≤ a ≤ numCells → 0 ≤ b ≤ numCells →
  Math_floor p_x = Z2F a → Math_floor p_y = Z2F b →
  bilinearC x_0 p_x p_y = Some (bilinear x_0 p_x p_y).
Proof.
  intros H0 Ha Hb Ea Eb. unfold bilinearC, bilinear. cbv zeta.
  rewrite Ea, Eb, !Z2F_succ by assumption.
  rewrite !loadFC_indexF by (first [assumption | grid]).
  rewrite !bind_Some. reflexivity.
Qed.

Lemma no_nan_cell (x : array) a b : wf x → no_nan x → in_grid a b → is_nan (load x (index a b)) = false.
Proof.
  intros Hx Hn Hg.
  apply (load_in_Forall (fun w => is_nan w = false) x (index a b) Hn).
  apply wf_range; [exact Hx | apply index_range; exact Hg].
Qed.

Lemma advect_cellC_ok (x_0 u_0 v_0 x : array) i j :
  wf x_0 → wf u_0 → wf v_0 → no_nan u_0 → no_nan v_0 → wf x → interior i j →
  advect_cellC x_0 u_0 v_0 i j x = Some (advect_cell x_0 u_0 v_0 i j x)
  ∧ wf (advect_cell x_0 u_0 v_0 i j x).
Proof.
  intros H0 Hu Hv Nu Nv Hx Hi. split; [|apply wf_store, Hx].
  unfold advect_cellC, advect_cell. cbv zeta.
  rewrite (loadC_cell u_0 i j Hu) by grid. rewrite bind_Some.
  rewrite (loadC_cell v_0 i j Hv) by grid. rewrite bind_Some.
  destruct (backtrace_range i (load u_0 (index i j))) as (a & Ha & Ea);
    [grid | apply no_nan_cell; [assumption .. | grid] |].
  destruct (backtrace_range j (load v_0 (index i j))) as (b & Hb & Eb);
    [grid | apply no_nan_cell; [assumption .. | grid] |].
  rewrite (bilinearC_ok x_0 _ _ a b H0 Ha Hb Ea Eb), bind_Some.
  apply storeC_cell; [exact Hx | grid].
Qed.

Lemma advectC_ok (x x_0 u_0 v_0 : array) bt :
  wf x → wf x_0 → wf u_0 → wf v_0 → no_nan u_0 → no_nan v_0 →
  advectC x x_0 u_0 v_0 bt = Some (advect x x_0 u_0 v_0 bt).
Proof.
  intros Hx H0 Hu Hv Nu Nv. unfold advectC, advect, advect_pass.
  destruct (gridC_ok wf (advect_cellC x_0 u_0 v_0) (advect_cell x_0 u_0 v_0) x Hx)
    as [-> Hx'].
  { intros i j t Hi Ht. apply advect_cellC_ok; assumption. }
  rewrite bind_Some. apply setBoundaryC_ok, Hx'.
Qed.

Lemma length_nans : wf nans.
Proof. apply length_replicate. Qed.

Lemma advectC_nans : advectC zeros zeros nans zeros continuous = None.
Proof. vm_compute. reflexivity. Qed.

Lemma no_nan_zeros : no_nan zeros.
Proof. apply Forall_replicate. reflexivity. Qed.

(** ** Claim on element accesses *)

(** Claim C8, as stated, fails: a velocity that is [nan] passes both
    comparisons of the clamp, the traced-back position stays [nan], and the
    stencil offset computed from it designates no element of the buffer. *)
Lemma advect_nan_velocity_counterexample :
  ¬ (∀ (x x_0 u_0 v_0 : array) bt,
       wf x → wf x_0 → wf u_0 → wf v_0 →
       advectC x x_0 u_0 v_0 bt = Some (advect x x_0 u_0 v_0 bt)).
Proof.
  intros H.
  specialize (H zeros zeros nans zeros continuous
                length_zeros length_zeros length_nans length_zeros).
  rewrite advectC_nans in H. discriminate H.
Qed.

(** Claim C8, amended: on buffers of [size] elements, every element access of
    [diffuse] and [project] is in bounds (the checked run succeeds and returns
    what the plain run returns); so is every access of [advect] when the
    velocity buffers hold no [nan]; and the clamp sends every velocity that is
    not [nan] to stencil coordinates [i0], [j0] in [0 .. numCells] and [i1],
    [j1] in [1 .. numCells + 1]. *)
Theorem access_in_bounds (x x_0 u v p div u_0 v_0 : array) bt :
  wf x → wf x_0 → wf u → wf v → wf p → wf div → wf u_0 → wf v_0 →
  no_nan u_0 → no_nan v_0 →
  diffuseC x x_0 bt = Some (diffuse x x_0 bt)
  ∧ projectC u v p div = Some (project u v p div)
  ∧ advectC x x_0 u_0 v_0 bt = Some (advect x x_0 u_0 v_0 bt)
  ∧ ∀ c w, 1 ≤ c ≤ numCells → is_nan w = false →
      ∃ z, 0 ≤ z ≤ numCells
           ∧ Math_floor (backtrace c w) = Z2F z
           ∧ (Math_floor (backtrace c w) + 1)%float = Z2F (z + 1).
Proof.
  intros Hx H0 Hu Hv Hp Hd Hu0 Hv0 Nu Nv.
  split; [apply diffuseC_ok; assumption |].
  split; [apply projectC_ok; assumption |].
  split; [apply advectC_ok; assumption |].
  intros c w Hc Hw.
  destruct (backtrace_range c w Hc Hw) as (z & Hz & Ez).
  exists z. split; [exact Hz |]. split; [exact Ez |].
  rewrite Ez. apply Z2F_succ, Hz.
Qed.

Lemma access_in_bounds_witness :
  diffuseC zeros zeros continuous = Some (diffuse zeros zeros continuous)
  ∧ projectC zeros zeros zeros zeros = Some (project zeros zeros zeros zeros)
  ∧ advectC zeros zeros zeros zeros continuous = Some (advect zeros zeros zeros zeros continuous)
  ∧ ∀ c w, 1 ≤ c ≤ numCells → is_nan w = false →
      ∃ z, 0 ≤ z ≤ numCells
           ∧ Math_floor (backtrace c w) = Z2F z
           ∧ (Math_floor (backtrace c w) + 1)%float = Z2F (z + 1).
Proof.
  exact (access_in_bounds zeros zeros zeros zeros zeros zeros zeros zeros continuous
           length_zeros length_zeros length_zeros length_zeros
           length_zeros length_zeros length_zeros length_zeros
           no_nan_zeros no_nan_zeros).
Defined.

(** * Further properties of the code *)

Lemma wf_state_initial : wf_state initial.
Proof. repeat split; apply length_zeros. Qed.

Lemma finite_zeros : Forall (fun w => finite_number w = true) zeros.
Proof. apply Forall_replicate. reflexivity. Qed.

Lemma corner_store_interior (w : float) : same_interior zeros (store zeros (index 0 0) w).
Proof. intros a b Hab. symmetry. apply load_store_ne. grid. Qed.

(** ** The order of the numbers *)

Lemma SFcompare_key f g :
  f ≠ S754_nan → g ≠ S754_nan → SFcompare f g = Some (lex (key f) (key g)).
Proof.
  intros Hf Hg.
  destruct f as [sf|sf| |sf mf ef], g as [sg|sg| |sg mg eg]; try congruence;
    try (destruct sf, sg; reflexivity); try (destruct sf; reflexivity);
    try (destruct sg; reflexivity).
  destruct sf, sg; cbn [SFcompare key lex]; try reflexivity.
  rewrite Z.compare_opp, (Z.compare_antisym ef eg). cbn.
  destruct (ef ?= eg); reflexivity.
Qed.

Lemma lex_Lt k1 k2 : lex k1 k2 = Lt ↔ lex_lt k1 k2.
Proof.
  destruct k1 as [[c1 e1] m1], k2 as [[c2 e2] m2]. unfold lex, lex_lt.
  destruct (Z.compare_spec c1 c2); destruct (Z.compare_spec e1 e2);
    destruct (Z.compare_spec m1 m2); split; intros; try discriminate; try reflexivity; lia.
Qed.

Lemma lex_Gt k1 k2 : lex k1 k2 = Gt ↔ lex_lt k2 k1.
Proof.
  destruct k1 as [[c1 e1] m1], k2 as [[c2 e2] m2]. unfold lex, lex_lt.
  destruct (Z.compare_spec c1 c2); destruct (Z.compare_spec e1 e2);
    destruct (Z.compare_spec m1 m2); split; intros; try discriminate; try reflexivity; lia.
Qed.

Lemma lex_Eq k1 k2 : lex k1 k2 = Eq ↔ k1 = k2.
Proof.
  destruct k1 as [[c1 e1] m1], k2 as [[c2 e2] m2]. unfold lex.
  destruct (Z.compare_spec c1 c2); destruct (Z.compare_spec e1 e2);
    destruct (Z.compare_spec m1 m2); split; intros H'; try discriminate; try reflexivity;
    try (inversion H'; lia); congruence.
Qed.

Lemma lex_lt_trans k1 k2 k3 : lex_lt k1 k2 → lex_lt k2 k3 → lex_lt k1 k3.
Proof.
  destruct k1 as [[c1 e1] m1], k2 as [[c2 e2] m2], k3 as [[c3 e3] m3].
  unfold lex_lt. lia.
Qed.

Lemma lex_lt_irrefl k : ¬ lex_lt k k.
Proof. destruct k as [[c e] m]. unfold lex_lt. lia. Qed.

Lemma lex_total k1 k2 : lex_lt k1 k2 ∨ k1 = k2 ∨ lex_lt k2 k1.
Proof.
  destruct (lex k1 k2) eqn:E.
  - right. left. apply lex_Eq, E.
  - left. apply lex_Lt, E.
  - right. right. apply lex_Gt, E.
Qed.

(** The comparisons of two numbers that are not [nan], on their keys. *)
Lemma ltb_key (x y : float) :
  is_nan x = false → is_nan y = false →
  ((x <? y)%float = true ↔ lex_lt (key (Prim2SF x)) (key (Prim2SF y))).
Proof.
  intros Hx Hy. rewrite ltb_spec. unfold SFltb.
  rewrite SFcompare_key by (apply is_nan_false; assumption).
  rewrite <- lex_Lt. destruct (lex _ _); split; congruence.
Qed.

Lemma leb_key (x y : float) :
  is_nan x = false → is_nan y = false →
  ((x <=? y)%float = true ↔ ¬ lex_lt (key (Prim2SF y)) (key (Prim2SF x))).
Proof.
  intros Hx Hy. rewrite leb_spec. unfold SFleb.
  rewrite SFcompare_key by (apply is_nan_false; assumption).
  rewrite <- lex_Gt. destruct (lex _ _); split; congruence.
Qed.

Lemma leb_not_nan (x y : float) :
  (x <=? y)%float = true → is_nan x = false ∧ is_nan y = false.
Proof.
  rewrite leb_spec. unfold SFleb, is_nan. rewrite !eqb_spec. unfold SFeqb.
  destruct (Prim2SF x) as [[]|[]| |sx mx ex], (Prim2SF y) as [[]|[]| |sy my ey];
    try discriminate; intros _; rewrite ?SFcompare_refl_finite; split; reflexivity.
Qed.

(** Two numbers with the same key are the same number, or two zeros. *)
Lemma key_inj (x y : float) :
  is_nan x = false → is_nan y = false → key (Prim2SF x) = key (Prim2SF y) →
  x = y ∨ (zeroish x ∧ zeroish y).
Proof.
  intros Hx Hy Hk. apply is_nan_false in Hx, Hy.
  assert (Z : ∀ w s, Prim2SF w = S754_zero s → zeroish w).
  { intros w s Hw. destruct s; [right | left]; apply Prim2SF_inj; rewrite Hw; reflexivity. }
  destruct (Prim2SF x) as [sx|sx| |sx mx ex] eqn:Ex,
           (Prim2SF y) as [sy|sy| |sy my ey] eqn:Ey; try congruence.
  - right. split; eauto.
  - destruct sy; discriminate.
  - destruct sy; discriminate.
  - destruct sx; discriminate.
  - left. apply Prim2SF_inj. rewrite Ex, Ey.
    destruct sx, sy; try discriminate; reflexivity.
  - destruct sx, sy; discriminate.
  - destruct sx; discriminate.
  - destruct sx, sy; discriminate.
  - left. apply Prim2SF_inj. rewrite Ex, Ey.
    destruct sx, sy; cbn [key] in Hk; try discriminate; inversion Hk; f_equal; lia.
Qed.

Lemma eqb_key (x y : float) :
  is_nan x = false → is_nan y = false →
  ((x =? y)%float = true ↔ key (Prim2SF x) = key (Prim2SF y)).
Proof.
  intros Hx Hy. rewrite eqb_spec. unfold SFeqb.
  rewrite SFcompare_key by (apply is_nan_false; assumption).
  rewrite <- lex_Eq. destruct (lex _ _); split; congruence.
Qed.

(** ** [clamp] and the colour level of [draw] *)

Lemma zero_pair_key (x y : float) :
  is_pos_zero x && is_neg_zero y = true → key (Prim2SF x) = key (Prim2SF y).
Proof.
  unfold is_pos_zero, is_neg_zero. intros H. apply andb_true_iff in H as [H1 H2].
  destruct (Prim2SF x) as [[]|[]| |sx mx ex]; try discriminate.
  destruct (Prim2SF y) as [[]|[]| |sy my ey]; try discriminate.
  reflexivity.
Qed.

Lemma Math_min_props (x y : float) :
  is_nan x = false → is_nan y = false →
  is_nan (Math_min x y) = false
  ∧ (lex_lt (key (Prim2SF y)) (key (Prim2SF x)) → Math_min x y = y)
  ∧ (¬ lex_lt (key (Prim2SF y)) (key (Prim2SF x)) →
       key (Prim2SF (Math_min x y)) = key (Prim2SF x)
       ∧ (key (Prim2SF x) ≠ key (Prim2SF y) → Math_min x y = x)).
Proof.
  intros Hx Hy. unfold Math_min. rewrite Hx, Hy. cbn [orb].
  destruct (is_neg_zero y && is_pos_zero x) eqn:Z.
  - rewrite andb_comm in Z. apply zero_pair_key in Z.
    split; [exact Hy |]. split; [reflexivity |].
    intros _. split; [congruence | intros Hne; congruence].
  - destruct (y <? x)%float eqn:L.
    + apply (ltb_key y x Hy Hx) in L.
      split; [exact Hy |]. split; [reflexivity |]. intros Hn. contradiction.
    + split; [exact Hx |]. split.
      * intros Hl. apply (ltb_key y x Hy Hx) in Hl. congruence.
      * intros _. split; reflexivity.
Qed.

Lemma Math_max_props (x y : float) :
  is_nan x = false → is_nan y = false →
  is_nan (Math_max x y) = false
  ∧ (lex_lt (key (Prim2SF x)) (key (Prim2SF y)) → Math_max x y = y)
  ∧ (¬ lex_lt (key (Prim2SF x)) (key (Prim2SF y)) →
       key (Prim2SF (Math_max x y)) = key (Prim2SF x)
       ∧ (key (Prim2SF x) ≠ key (Prim2SF y) → Math_max x y = x)).
Proof.
  intros Hx Hy. unfold Math_max. rewrite Hx, Hy. cbn [orb].
  destruct (is_pos_zero y && is_neg_zero x) eqn:Z.
  - apply zero_pair_key in Z.
    split; [exact Hy |]. split; [reflexivity |].
    intros _. split; [congruence | intros Hne; congruence].
  - destruct (x <? y)%float eqn:L.
    + apply (ltb_key x y Hx Hy) in L.
      split; [exact Hy |]. split; [reflexivity |]. intros Hn. contradiction.
    + split; [exact Hx |]. split.
      * intros Hl. apply (ltb_key x y Hx Hy) in Hl. congruence.
      * intros _. split; reflexivity.
Qed.

(** What [clamp] returns, by the position of [x] (not [nan]) relative to the
    bounds: [kx], [kl], [kh] are the keys of [x], [x_min], [x_max]. *)
Lemma clamp_key (x lo hi : float) :
  is_nan x = false → is_nan lo = false → is_nan hi = false →
  let kx := key (Prim2SF x) in
  let kl := key (Prim2SF lo) in
  let kh := key (Prim2SF hi) in
  let kc := key (Prim2SF (clamp x lo hi)) in
  is_nan (clamp x lo hi) = false
  ∧ (lex_lt kx kl → ¬ lex_lt kh kl → clamp x lo hi = lo)
  ∧ (¬ lex_lt kx kl → ¬ lex_lt kh kx → kc = kx)
  ∧ (lex_lt kh kx → ¬ lex_lt kh kl → kc = kh)
  ∧ (lex_lt kh kl → clamp x lo hi = lo).
Proof.
  intros Hx Hl Hh. cbv zeta. unfold clamp.
  destruct (Math_min_props x hi Hx Hh) as (Hm & Hm1 & Hm2).
  destruct (Math_max_props lo (Math_min x hi) Hl Hm) as (HM & HM1 & HM2).
  pose proof lex_lt_trans as T. pose proof lex_lt_irrefl as I.
  pose proof (lex_total (key (Prim2SF x)) (key (Prim2SF lo))) as T1.
  pose proof (lex_total (key (Prim2SF hi)) (key (Prim2SF x))) as T2.
  pose proof (lex_total (key (Prim2SF hi)) (key (Prim2SF lo))) as T3.
  split; [exact HM |]. split; [|split; [|split]].
  - intros H1 H2.
    assert (Hn : ¬ lex_lt (key (Prim2SF hi)) (key (Prim2SF x))).
    { intros H3. apply H2. eapply T; eassumption. }
    destruct (Hm2 Hn) as [E _].
    apply HM2; rewrite E.
    + intros H3. eapply I, T; eassumption.
    + intros E'. rewrite E' in H1. eapply I, H1.
  - intros H1 H2. destruct (Hm2 H2) as [E _].
    destruct T1 as [T1|[T1|T1]]; [contradiction | |].
    + destruct HM2 as [E' _]; [rewrite E, <- T1; apply I |]. congruence.
    + rewrite HM1 by (rewrite E; exact T1). exact E.
  - intros H1 H2. rewrite (Hm1 H1).
    destruct T3 as [T3|[T3|T3]]; [contradiction | |].
    + destruct (Math_max_props lo hi Hl Hh) as (_ & _ & HM3).
      destruct HM3 as [E' _]; [rewrite T3; apply I |]. congruence.
    + destruct (Math_max_props lo hi Hl Hh) as (_ & HM3 & _).
      rewrite HM3 by exact T3. reflexivity.
  - intros H1.
    assert (Hlt : lex_lt (key (Prim2SF (Math_min x hi))) (key (Prim2SF lo))).
    { destruct T2 as [T2|[T2|T2]].
      - rewrite (Hm1 T2). exact H1.
      - destruct Hm2 as [E _]; [rewrite T2; apply I |]. rewrite E, <- T2. exact H1.
      - destruct Hm2 as [E _]; [intros H3; eapply I, T; eassumption |].
        rewrite E. eapply T; eassumption. }
    apply HM2.
    + intros H3. eapply I, T; eassumption.
    + intros E. rewrite E in Hlt. eapply I, Hlt.
Qed.

Lemma is_nan_SF (x : float) : is_nan x = true → Prim2SF x = S754_nan.
Proof.
  unfold is_nan. rewrite eqb_spec. unfold SFeqb.
  destruct (Prim2SF x) as [[]|[]| |s m e]; try discriminate; [reflexivity |].
  rewrite SFcompare_refl_finite. discriminate.
Qed.

Lemma is_nan_eq (x : float) : is_nan x = true → x = nan.
Proof. intros H. apply Prim2SF_inj. rewrite (is_nan_SF x H). reflexivity. Qed.

Lemma ltb_not_nan (x y : float) :
  (x <? y)%float = true → is_nan x = false ∧ is_nan y = false.
Proof.
  rewrite ltb_spec. unfold SFltb, is_nan. rewrite !eqb_spec. unfold SFeqb.
  destruct (Prim2SF x) as [[]|[]| |sx mx ex], (Prim2SF y) as [[]|[]| |sy my ey];
    try discriminate; intros _; rewrite ?SFcompare_refl_finite; split; reflexivity.
Qed.

Lemma clamp_bounds (x x_min x_max : float) :
  is_nan x = false → (x_min <=? x_max)%float = true →
  (x_min <=? clamp x x_min x_max)%float = true
  ∧ (clamp x x_min x_max <=? x_max)%float = true.
Proof.
  intros Hx Hb. destruct (leb_not_nan _ _ Hb) as [Hl Hh].
  apply (leb_key _ _ Hl Hh) in Hb.
  destruct (clamp_key x x_min x_max Hx Hl Hh) as (Hc & C1 & C2 & C3 & _).
  pose proof lex_lt_trans as T. pose proof lex_lt_irrefl as I.
  destruct (lex_total (key (Prim2SF x)) (key (Prim2SF x_min))) as [T1|T1].
  - rewrite (C1 T1 Hb). split; apply leb_key; try assumption. apply I.
  - assert (N1 : ¬ lex_lt (key (Prim2SF x)) (key (Prim2SF x_min))).
    { intros H'. destruct T1 as [T1|T1]; [rewrite T1 in H' | ]; eapply I; eauto. }
    destruct (lex_total (key (Prim2SF x_max)) (key (Prim2SF x))) as [T2|T2].
    + specialize (C3 T2 Hb). split; apply leb_key; try assumption; rewrite C3.
      * exact Hb.
      * apply I.
    + assert (N2 : ¬ lex_lt (key (Prim2SF x_max)) (key (Prim2SF x))).
      { intros H'. destruct T2 as [T2|T2]; [rewrite T2 in H' | ]; eapply I; eauto. }
      specialize (C2 N1 N2). split; apply leb_key; try assumption; rewrite C2; assumption.
Qed.

(** X1. [clamp] returns a number between the bounds. *)
Theorem clamp_within_bounds (x x_min x_max : float) :
  is_nan x = false → (x_min <=? x_max)%float = true →
  (x_min <=? clamp x x_min x_max)%float = true
  ∧ (clamp x x_min x_max <=? x_max)%float = true.
Proof.
  intros Hx Hb. destruct (clamp_bounds x x_min x_max Hx Hb) as [H1 H2].
  split; [exact H1 | exact H2].
Qed.

Lemma clamp_within_bounds_witness :
  (0 <=? clamp 7 0 1)%float = true ∧ (clamp 7 0 1 <=? 1)%float = true.
Proof. apply (clamp_within_bounds 7 0 1); reflexivity. Defined.

(** X2. Below the range [clamp] returns the lower bound, above it a number
    equal to the upper bound, and inside it a number equal to [x]. *)
Theorem clamp_value (x x_min x_max : float) :
  (x_min <=? x_max)%float = true →
  ((x <? x_min)%float = true → clamp x x_min x_max = x_min)
  ∧ ((x_min <=? x)%float = true → (x <=? x_max)%float = true →
       (clamp x x_min x_max =? x)%float = true)
  ∧ ((x_max <? x)%float = true → (clamp x x_min x_max =? x_max)%float = true).
Proof.
  intros Hb. destruct (leb_not_nan _ _ Hb) as [Hl Hh].
  apply (leb_key _ _ Hl Hh) in Hb.
  split; [|split].
  - intros H1. destruct (ltb_not_nan _ _ H1) as [Hx _].
    apply (ltb_key _ _ Hx Hl) in H1.
    destruct (clamp_key x x_min x_max Hx Hl Hh) as (_ & C1 & _).
    apply C1; assumption.
  - intros H1 H2. destruct (leb_not_nan _ _ H1) as [_ Hx].
    apply (leb_key _ _ Hl Hx) in H1. apply (leb_key _ _ Hx Hh) in H2.
    destruct (clamp_key x x_min x_max Hx Hl Hh) as (Hc & _ & C2 & _).
    apply (eqb_key _ _ Hc Hx). apply C2; assumption.
  - intros H1. destruct (ltb_not_nan _ _ H1) as [_ Hx].
    apply (ltb_key _ _ Hh Hx) in H1.
    destruct (clamp_key x x_min x_max Hx Hl Hh) as (Hc & _ & _ & C3 & _).
    apply (eqb_key _ _ Hc Hh). apply C3; assumption.
Qed.

Lemma clamp_value_witness :
  ((-3 <? 0)%float = true → clamp (-3) 0 1 = 0%float)
  ∧ ((0 <=? -3)%float = true → (-3 <=? 1)%float = true → (clamp (-3) 0 1 =? -3)%float = true)
  ∧ ((1 <? -3)%float = true → (clamp (-3) 0 1 =? 1)%float = true).
Proof. apply (clamp_value (-3) 0 1). reflexivity. Defined.

Lemma clamp_nan (x x_min x_max : float) :
  is_nan x || is_nan x_min || is_nan x_max = true → clamp x x_min x_max = nan.
Proof.
  intros H. unfold clamp.
  destruct (is_nan x_min) eqn:Hl.
  { unfold Math_max. rewrite Hl. reflexivity. }
  assert (Hm : Math_min x x_max = nan).
  { unfold Math_min. rewrite orb_false_r in H. cbn [orb] in H. rewrite H. reflexivity. }
  rewrite Hm. unfold Math_max. rewrite Hl. reflexivity.
Qed.

(** X3. [clamp] does not repair a [nan]: it returns [nan] as soon as one of its
    three arguments is [nan]; and with the bounds exchanged ([x_max < x_min])
    it returns [x_min] whatever [x] is. *)
Theorem clamp_edge_cases (x x_min x_max : float) :
  (is_nan x || is_nan x_min || is_nan x_max = true → clamp x x_min x_max = nan)
  ∧ (is_nan x = false → (x_max <? x_min)%float = true → clamp x x_min x_max = x_min).
Proof.
  split; [apply clamp_nan |].
  intros Hx H1. destruct (ltb_not_nan _ _ H1) as [Hh Hl].
    apply (ltb_key _ _ Hh Hl) in H1.
    destruct (clamp_key x x_min x_max Hx Hl Hh) as (_ & _ & _ & _ & C4).
    apply C4, H1.
Qed.

Lemma scale_not_nan (c : float) :
  is_nan c = false → is_nan (c * scale_density)%float = false.
Proof.
  intros Hc. apply not_nan_is_nan. rewrite mul_spec.
  change (Prim2SF scale_density) with (S754_finite false 5764607523034235 (-56)).
  apply SFmul_finite_r, is_nan_false, Hc.
Qed.

(** X4. The number [draw] hands to the colour map lies in [0, 1], unless the
    density cell is [nan]: then the colour map receives [nan]. *)
Theorem draw_level_range (d : array) (i j : Z) :
  (is_nan (load d (index i j)) = false →
     (0 <=? draw_level d i j)%float = true ∧ (draw_level d i j <=? 1)%float = true)
  ∧ (is_nan (load d (index i j)) = true → draw_level d i j = nan).
Proof.
  unfold draw_level. split.
  - intros Hc. apply clamp_bounds; [apply scale_not_nan, Hc | reflexivity].
  - intros Hc. rewrite (is_nan_eq _ Hc).
    apply clamp_nan. reflexivity.
Qed.

(** ** Offsets and sources *)

(** X5. [index] and [unindex] are inverse bijections between the cells of the
    grid and the offsets [0 .. size - 1]: no two cells share an element. *)
Theorem index_round_trip (a b k : Z) :
  (in_grid a b → 0 ≤ index a b < size ∧ unindex (index a b) = (a, b))
  ∧ (0 ≤ k < size →
       in_grid (unindex k).1 (unindex k).2 ∧ index (unindex k).1 (unindex k).2 = k).
Proof.
  unfold unindex, in_grid, index, size, numCells. change (50 + 2) with 52.
  split.
  - intros [Ha Hb]. split; [lia |].
    replace (a + 52 * b) with (a + b * 52) by lia.
    rewrite Z.mod_add, Z.div_add by lia.
    rewrite Z.mod_small, Z.div_small by lia. reflexivity.
  - intros Hk. cbn [fst snd].
    pose proof (Z.div_mod k 52 ltac:(lia)).
    pose proof (Z.mod_pos_bound k 52 ltac:(lia)).
    assert (0 ≤ k / 52 < 52)
      by (split; [apply Z.div_pos | apply Z.div_lt_upper_bound]; lia).
    lia.
Qed.

Lemma addSource_inv (x s : array) :
  wf x →
  wf (addSource x s)
  ∧ ∀ k, 0 ≤ k < size → load (addSource x s) k = fround (load x k + dt * load s k).
Proof.
  intros Hx. unfold addSource.
  pose (P := fun (n : Z) (y : array) =>
    wf y ∧ ∀ k, 0 ≤ k < size →
      load y k = if k <? n then fround (load x k + dt * load s k) else load x k).
  assert (HP : P (size - 1 + 1)
                 (for_range 0 (size - 1)
                    (fun i x0 => store x0 i (load x0 i + dt * load s i)%float) x)).
  { apply (for_range_ind P).
    - unfold size, numCells. lia.
    - split; [exact Hx |]. intros k Hk. destruct (Z.ltb_spec k 0); [lia | reflexivity].
    - intros n y Hn [Hy Hl]. split; [apply wf_store, Hy |].
      intros k Hk. destruct (Z.eq_dec k n) as [->|Hne].
      + rewrite load_store_eq by (apply wf_range; [exact Hy | lia]).
        rewrite (Hl n Hk).
        destruct (Z.ltb_spec n n); [lia |]. destruct (Z.ltb_spec n (n + 1)); [|lia].
        reflexivity.
      + rewrite load_store_ne by congruence. rewrite (Hl k Hk).
        destruct (Z.ltb_spec k n), (Z.ltb_spec k (n + 1)); try lia; reflexivity. }
  destruct HP as [Hw Hl]. split; [exact Hw |].
  intros k Hk. rewrite (Hl k Hk). destruct (Z.ltb_spec k (size - 1 + 1)); [reflexivity | lia].
Qed.

(** X6. [addSource(x, s)] adds [dt * s[i]] to each of the [size] elements of
    [x], rounding the sum once to binary32; an element missing from [s] makes
    the sum [nan]; the length of [x] does not change. *)
Theorem addSource_cells (x s : array) (k : Z) :
  wf x → 0 ≤ k < size →
  load (addSource x s) k = fround (load x k + dt * load s k)
  ∧ length (addSource x s) = length x
  ∧ (Z.of_nat (length s) ≤ k → load (addSource x s) k = nan).
Proof.
  intros Hx Hk. destruct (addSource_inv x s Hx) as [Hw Hl].
  split; [apply Hl, Hk |]. split; [congruence |].
  intros Hs. rewrite (Hl k Hk).
  assert (E : load s k = nan).
  { unfold load. destruct (Z.ltb_spec k 0); [reflexivity |].
    rewrite (proj2 (lookup_ge_None s (Z.to_nat k))) by lia. reflexivity. }
  rewrite E.
  assert (N : (load x k + dt * nan)%float = nan).
  { apply Prim2SF_inj. rewrite add_spec, mul_spec.
    change (Prim2SF nan) with S754_nan.
    destruct (Prim2SF dt), (Prim2SF (load x k)); reflexivity. }
  rewrite N. reflexivity.
Qed.

Lemma addSource_cells_witness :
  load (addSource zeros zeros) 0 = fround (load zeros 0 + dt * load zeros 0)
  ∧ length (addSource zeros zeros) = length zeros
  ∧ (Z.of_nat (length zeros) ≤ 0 → load (addSource zeros zeros) 0 = nan).
Proof. apply (addSource_cells zeros zeros 0); [apply length_zeros | unfold size, numCells; lia]. Defined.

(** ** Sizes, and the buffers a tick leaves alone *)

Lemma wf_addSource (x s : array) : wf x → wf (addSource x s).
Proof.
  intros Hx. unfold addSource. apply (for_range_inv wf); [exact Hx |].
  intros k t _ Ht. apply wf_store, Ht.
Qed.

Lemma wf_grid_loop (body : Z → Z → array → array) (x : array) :
  (∀ i j t, wf t → wf (body i j t)) → wf x →
  wf (for_range 1 numCells (fun i => for_range 1 numCells (fun j => body i j)) x).
Proof.
  intros Hb Hx. apply (for_range_inv wf); [exact Hx |].
  intros i t _ Ht. apply (for_range_inv wf); [exact Ht |].
  intros j t' _ Ht'. apply Hb, Ht'.
Qed.

Lemma wf_diffuse (x x_0 : array) bt : wf x → wf (diffuse x x_0 bt).
Proof.
  intros Hx. unfold diffuse. apply (for_range_inv wf); [exact Hx |].
  intros k t _ Ht. apply setBoundary_wf. unfold diffuse_sweep.
  apply wf_grid_loop; [|exact Ht]. intros i j t'. apply wf_diffuse_cell.
Qed.

Lemma wf_advect_pass (x x_0 u_0 v_0 : array) : wf x → wf (advect_pass x x_0 u_0 v_0).
Proof.
  intros Hx. unfold advect_pass. apply wf_grid_loop; [|exact Hx].
  intros i j t Ht. apply wf_store, Ht.
Qed.

Lemma wf_advect (x x_0 u_0 v_0 : array) bt : wf x → wf (advect x x_0 u_0 v_0 bt).
Proof. intros Hx. rewrite advect_eq. apply setBoundary_wf, wf_advect_pass, Hx. Qed.

Lemma wf_project_sweeps (D p : array) :
  wf p → wf (for_range 0 (10 - 1) (fun _ p0 => setBoundary (project_sweep D p0) continuous) p).
Proof.
  intros Hp. apply (for_range_inv wf); [exact Hp |].
  intros k t _ Ht. apply setBoundary_wf. unfold project_sweep.
  apply wf_grid_loop; [|exact Ht]. intros i j t' Ht'. apply wf_store, Ht'.
Qed.

Lemma wf_project_grads (P : array) (uv : array * array) :
  wf uv.1 → wf uv.2 →
  wf (for_range 1 numCells (fun i =>
        for_range 1 numCells (fun j => project_grad P i j)) uv).1
  ∧ wf (for_range 1 numCells (fun i =>
          for_range 1 numCells (fun j => project_grad P i j)) uv).2.
Proof.
  intros Hu Hv.
  apply (for_range_inv (fun uv : array * array => wf uv.1 ∧ wf uv.2)); [split; assumption |].
  intros i t _ Ht.
  apply (for_range_inv (fun uv : array * array => wf uv.1 ∧ wf uv.2)); [exact Ht |].
  intros j [u1 v1] _ [H1 H2]. cbn [fst snd] in *. unfold project_grad. cbn [fst snd].
  split; apply wf_store; assumption.
Qed.

(** [project] in one piece: the four buffers it returns. *)
Lemma project_unfold (u v p div : array) :
  project u v p div =
  let p0 := for_range 0 (size - 1) (fun i p => store p i 0%float) p in
  let D := setBoundary (project_div u v div) continuous in
  let P := for_range 0 (10 - 1) (fun _ p0 => setBoundary (project_sweep D p0) continuous) p0 in
  let uv := for_range 1 numCells (fun i =>
              for_range 1 numCells (fun j => project_grad P i j)) (u, v) in
  (setBoundary uv.1 left_right_walls, setBoundary uv.2 top_bottom_walls, P, D).
Proof.
  unfold project. cbv zeta.
  destruct (for_range 1 numCells _ (u, v)) as [u1 v1]. reflexivity.
Qed.

Lemma wf_project (u v p div : array) :
  wf u → wf v → wf p → wf div →
  wf (project u v p div).1.1.1 ∧ wf (project u v p div).1.1.2
  ∧ wf (project u v p div).1.2 ∧ wf (project u v p div).2.
Proof.
  intros Hu Hv Hp Hd. rewrite project_unfold. cbv zeta. cbn [fst snd].
  rewrite (zero_fill p Hp).
  pose proof (setBoundary_wf _ continuous (wf_project_div u v div Hd)) as HD.
  revert HD. generalize (setBoundary (project_div u v div) continuous). intros D HD.
  pose proof (wf_project_sweeps D zeros length_zeros) as HP.
  revert HP. generalize (for_range 0 (10 - 1)
     (fun _ p0 => setBoundary (project_sweep D p0) continuous) zeros). intros P HP.
  destruct (wf_project_grads P (u, v) Hu Hv) as [H1 H2].
  split; [apply setBoundary_wf, H1 |]. split; [apply setBoundary_wf, H2 |].
  split; assumption.
Qed.

Lemma wf_state_velocityStep (s : State) : wf_state s → wf_state (velocityStep s).
Proof.
  destruct s as [u0 v0 d0 uP vP dP dS uS vS].
  intros (Hu & Hv & Hd & HuP & HvP & HdP & HdS & HuS & HvS). cbn [u v d uPrev vPrev dPrev dSource uSource vSource] in *.
  unfold velocityStep.
  pose proof (wf_diffuse uP (addSource u0 uS) left_right_walls HuP) as H1.
  pose proof (wf_diffuse vP (addSource v0 vS) top_bottom_walls HvP) as H2.
  pose proof (wf_addSource u0 uS Hu) as H3.
  pose proof (wf_addSource v0 vS Hv) as H4.
  revert H1 H2 H3 H4.
  generalize (diffuse uP (addSource u0 uS) left_right_walls).
  generalize (diffuse vP (addSource v0 vS) top_bottom_walls).
  generalize (addSource u0 uS). generalize (addSource v0 vS).
  intros a4 a3 a2 a1 H1 H2 H3 H4.
  pose proof (wf_project a1 a2 a3 a4 H1 H2 H3 H4) as W.
  destruct (project a1 a2 a3 a4) as [[[u1 v1] p1] q1]. cbn [fst snd] in W.
  destruct W as (W1 & W2 & W3 & W4).
  pose proof (wf_advect p1 u1 u1 v1 left_right_walls W3) as A1.
  pose proof (wf_advect q1 v1 u1 v1 top_bottom_walls W4) as A2.
  revert A1 A2.
  generalize (advect p1 u1 u1 v1 left_right_walls).
  generalize (advect q1 v1 u1 v1 top_bottom_walls).
  intros b2 b1 A1 A2.
  pose proof (wf_project b1 b2 u1 v1 A1 A2 W1 W2) as W'.
  destruct (project b1 b2 u1 v1) as [[[u2 v2] p2] q2]. cbn [fst snd] in W'.
  destruct W' as (V1 & V2 & V3 & V4).
  exact (conj V1 (conj V2 (conj Hd (conj V3 (conj V4 (conj HdP (conj HdS (conj HuS HvS)))))))).
Qed.

Lemma wf_state_densityStep (s : State) : wf_state s → wf_state (densityStep s).
Proof.
  destruct s as [u0 v0 d0 uP vP dP dS uS vS].
  intros (Hu & Hv & Hd & HuP & HvP & HdP & HdS & HuS & HvS). cbn [u v d uPrev vPrev dPrev dSource uSource vSource] in *.
  unfold densityStep.
  pose proof (wf_addSource d0 dS Hd) as H1.
  pose proof (wf_diffuse dP (addSource d0 dS) continuous HdP) as H2.
  revert H1 H2. generalize (diffuse dP (addSource d0 dS) continuous).
  generalize (addSource d0 dS). intros a1 a2 H1 H2.
  pose proof (wf_advect a1 a2 u0 v0 continuous H1) as H3.
  revert H3. generalize (advect a1 a2 u0 v0 continuous). intros a3 H3.
  exact (conj Hu (conj Hv (conj H3 (conj HuP (conj HvP (conj H2 (conj HdS (conj HuS HvS)))))))).
Qed.

Lemma sources_velocityStep (s : State) :
  dSource (velocityStep s) = dSource s ∧ uSource (velocityStep s) = uSource s
  ∧ vSource (velocityStep s) = vSource s.
Proof.
  destruct s as [u0 v0 d0 uP vP dP dS uS vS]. unfold velocityStep.
  destruct (project _ _ _ _) as [[[u1 v1] p1] q1].
  destruct (project _ _ _ _) as [[[u2 v2] p2] q2].
  repeat split.
Qed.

Lemma sources_densityStep (s : State) :
  dSource (densityStep s) = dSource s ∧ uSource (densityStep s) = uSource s
  ∧ vSource (densityStep s) = vSource s.
Proof. destruct s as [u0 v0 d0 uP vP dP dS uS vS]. repeat split. Qed.

(** X7. Across any number of ticks every buffer keeps the size the module gave
    it, and the three source buffers are never written. *)
Theorem step_keeps_sizes_and_sources (n : nat) (s : State) :
  wf_state s →
  wf_state (Nat.iter n step s)
  ∧ dSource (Nat.iter n step s) = dSource s
  ∧ uSource (Nat.iter n step s) = uSource s
  ∧ vSource (Nat.iter n step s) = vSource s.
Proof.
  intros Hs. induction n as [|n (IH & Sd & Su & Sv)]; [split; [exact Hs | repeat split] |].
  change (Nat.iter (S n) step s) with (step (Nat.iter n step s)).
  revert IH Sd Su Sv. generalize (Nat.iter n step s). intros t IH Sd Su Sv.
  unfold step.
  destruct (sources_velocityStep t) as (Vd & Vu & Vv).
  destruct (sources_densityStep (velocityStep t)) as (Dd & Du & Dv).
  split; [apply wf_state_densityStep, wf_state_velocityStep, IH |].
  split; [congruence |]. split; congruence.
Qed.

Lemma step_keeps_sizes_and_sources_witness :
  wf_state (Nat.iter 2 step initial)
  ∧ dSource (Nat.iter 2 step initial) = dSource initial
  ∧ uSource (Nat.iter 2 step initial) = uSource initial
  ∧ vSource (Nat.iter 2 step initial) = vSource initial.
Proof. apply (step_keeps_sizes_and_sources 2 initial). apply wf_state_initial. Defined.

(** ** What the routines read and what they leave *)

Lemma for_from_last {T : Type} (body : Z → T → T) (n : nat) : ∀ i s,
  for_from (S n) i body s = body (i + Z.of_nat n) (for_from n i body s).
Proof.
  induction n as [|n IH]; intros i s.
  - cbn [for_from]. replace (i + Z.of_nat 0) with i by lia. reflexivity.
  - change (for_from (S (S n)) i body s) with (for_from (S n) (i + 1) body (body i s)).
    rewrite IH. cbn [for_from]. f_equal. lia.
Qed.

(** The last iteration of a counted loop. *)
Lemma for_range_last {T : Type} (body : Z → T → T) lo hi s :
  lo ≤ hi → for_range lo hi body s = body hi (for_range lo (hi - 1) body s).
Proof.
  intros Hle. unfold for_range.
  replace (Z.to_nat (hi + 1 - lo)) with (S (Z.to_nat (hi - 1 + 1 - lo))) by lia.
  rewrite for_from_last. f_equal. lia.
Qed.

Lemma setBoundary_interior (x y : array) bt :
  wf x → wf y →
  (∀ a b, interior a b → cells x a b = cells y a b) →
  setBoundary x bt = setBoundary y bt.
Proof.
  intros Hx Hy Hi.
  apply cells_ext; [apply setBoundary_wf, Hx | apply setBoundary_wf, Hy |].
  intros a b Hg.
  rewrite (setBoundary_cells x bt a b Hx Hg), (setBoundary_cells y bt a b Hy Hg).
  apply bnd_ext; assumption.
Qed.

(** X8. The buffer [setBoundary] returns is a function of the interior cells
    alone: what the ghost cells held before the call is never used. *)
Theorem setBoundary_reads_interior_only (x y : array) (bt : boundaryType) :
  wf x → wf y →
  (∀ a b, interior a b → load x (index a b) = load y (index a b)) →
  setBoundary x bt = setBoundary y bt.
Proof.
  intros Hx Hy Hi. apply setBoundary_interior; [exact Hx | exact Hy |].
  intros a b Hab. rewrite !cells_eq. apply Hi, Hab.
Qed.

Lemma setBoundary_reads_interior_only_witness :
  setBoundary zeros left_right_walls = setBoundary (store zeros (index 0 0) 1) left_right_walls.
Proof.
  apply (setBoundary_reads_interior_only zeros (store zeros (index 0 0) 1) left_right_walls);
    [apply length_zeros | apply wf_store, length_zeros | apply corner_store_interior].
Defined.

Lemma advect_any_output (x x' x_0 u_0 v_0 : array) bt :
  wf x → wf x' → advect x x_0 u_0 v_0 bt = advect x' x_0 u_0 v_0 bt.
Proof.
  intros Hx Hx'. rewrite !advect_eq, !advect_pass_fill.
  set (g := fun i j => bilinear x_0 (backtrace i (load u_0 (index i j)))
                         (backtrace j (load v_0 (index i j)))).
  destruct (fill_pass_cells g x Hx) as [W1 _].
  destruct (fill_pass_cells g x' Hx') as [W2 _].
  apply setBoundary_interior; [exact W1 | exact W2 |].
  intros a b Hab.
  rewrite (fill_pass_interior g x a b Hx Hab), (fill_pass_interior g x' a b Hx' Hab).
  reflexivity.
Qed.

(** X9. [advect] overwrites every cell of its output buffer: the result does
    not depend on what the output buffer held. *)
Theorem advect_overwrites_output (x x' x_0 u_0 v_0 : array) (bt : boundaryType) :
  wf x → wf x' → advect x x_0 u_0 v_0 bt = advect x' x_0 u_0 v_0 bt.
Proof.
  intros Hx Hx'. rewrite (advect_any_output x x' x_0 u_0 v_0 bt Hx Hx'). reflexivity.
Qed.

Lemma advect_overwrites_output_witness :
  advect zeros zeros zeros zeros continuous
  = advect (replicate (Z.to_nat size) 1%float) zeros zeros zeros continuous.
Proof.
  apply (advect_overwrites_output zeros (replicate (Z.to_nat size) 1%float) zeros zeros zeros
           continuous); [apply length_zeros | apply length_replicate].
Defined.

Lemma diffuse_cell_source (x_0 x_0' : array) i j (y : array) :
  load x_0 (index i j) = load x_0' (index i j) →
  diffuse_cell x_0 i j y = diffuse_cell x_0' i j y.
Proof. intros E. unfold diffuse_cell. rewrite E. reflexivity. Qed.

Lemma diffuse_source_interior (x x_0 x_0' : array) bt :
  same_interior x_0 x_0' → diffuse x x_0 bt = diffuse x x_0' bt.
Proof.
  intros Hi.
  assert (E : ∀ t, diffuse_sweep x_0 t = diffuse_sweep x_0' t).
  { intros t. unfold diffuse_sweep.
    apply for_range_ext. intros i t1 Hi1.
    apply for_range_ext. intros j t2 Hj.
    apply diffuse_cell_source, Hi. split; assumption. }
  unfold diffuse. apply for_range_ext. intros k t _. cbv beta.
  rewrite (E t). reflexivity.
Qed.

(** X10. [diffuse] reads the interior cells of [x_0] only: two source fields
    that agree on the interior give the same result, whatever their ghost
    cells hold (and whatever their lengths). *)
Theorem diffuse_reads_interior_of_source (x x_0 x_0' : array) (bt : boundaryType) :
  (∀ i j, interior i j → load x_0 (index i j) = load x_0' (index i j)) →
  diffuse x x_0 bt = diffuse x x_0' bt.
Proof.
  intros Hi. apply diffuse_source_interior.
  intros a b Hab. apply Hi, Hab.
Qed.

Lemma diffuse_reads_interior_of_source_witness :
  diffuse zeros zeros continuous = diffuse zeros (store zeros (index 0 0) 1) continuous.
Proof.
  apply (diffuse_reads_interior_of_source zeros zeros (store zeros (index 0 0) 1) continuous).
  apply corner_store_interior.
Defined.

Lemma diffuse_enforced (x x_0 : array) bt :
  wf x → setBoundary (diffuse x x_0 bt) bt = diffuse x x_0 bt.
Proof.
  intros Hx. unfold diffuse. rewrite for_range_last by lia.
  apply setBoundary_twice. unfold diffuse_sweep.
  apply wf_grid_loop; [intros i j t; apply wf_diffuse_cell |].
  apply (for_range_inv wf); [exact Hx |].
  intros k t _ Ht. apply setBoundary_wf. unfold diffuse_sweep.
  apply wf_grid_loop; [|exact Ht]. intros i j t'. apply wf_diffuse_cell.
Qed.

Lemma advect_enforced (x x_0 u_0 v_0 : array) bt :
  wf x → setBoundary (advect x x_0 u_0 v_0 bt) bt = advect x x_0 u_0 v_0 bt.
Proof.
  intros Hx. rewrite advect_eq. apply setBoundary_twice, wf_advect_pass, Hx.
Qed.

Lemma project_enforced (u v p div : array) :
  wf u → wf v →
  setBoundary (project u v p div).1.1.1 left_right_walls = (project u v p div).1.1.1
  ∧ setBoundary (project u v p div).1.1.2 top_bottom_walls = (project u v p div).1.1.2.
Proof.
  intros Hu Hv. rewrite project_unfold. cbv zeta. cbn [fst snd].
  generalize (for_range 0 (10 - 1)
    (fun _ p0 => setBoundary (project_sweep (setBoundary (project_div u v div) continuous) p0)
                   continuous)
    (for_range 0 (size - 1) (fun i p0 => store p0 i 0%float) p)).
  intros P. destruct (wf_project_grads P (u, v) Hu Hv) as [H1 H2].
  split; apply setBoundary_twice; assumption.
Qed.

(** X11. Every routine returns fields on which its boundary policy is already
    enforced: enforcing it once more changes nothing. *)
Theorem routines_leave_boundary_enforced (x x_0 u_0 v_0 u v p div : array) (bt : boundaryType) :
  wf x → wf u → wf v →
  setBoundary (diffuse x x_0 bt) bt = diffuse x x_0 bt
  ∧ setBoundary (advect x x_0 u_0 v_0 bt) bt = advect x x_0 u_0 v_0 bt
  ∧ setBoundary (project u v p div).1.1.1 left_right_walls = (project u v p div).1.1.1
  ∧ setBoundary (project u v p div).1.1.2 top_bottom_walls = (project u v p div).1.1.2.
Proof.
  intros Hx Hu Hv.
  split; [apply diffuse_enforced, Hx |].
  split; [apply advect_enforced, Hx |].
  apply project_enforced; assumption.
Qed.

Lemma routines_leave_boundary_enforced_witness :
  setBoundary (diffuse zeros zeros left_right_walls) left_right_walls
  = diffuse zeros zeros left_right_walls
  ∧ setBoundary (advect zeros zeros zeros zeros left_right_walls) left_right_walls
    = advect zeros zeros zeros zeros left_right_walls
  ∧ setBoundary (project zeros zeros zeros zeros).1.1.1 left_right_walls
    = (project zeros zeros zeros zeros).1.1.1
  ∧ setBoundary (project zeros zeros zeros zeros).1.1.2 top_bottom_walls
    = (project zeros zeros zeros zeros).1.1.2.
Proof.
  apply (routines_leave_boundary_enforced zeros zeros zeros zeros zeros zeros zeros zeros
           left_right_walls); apply length_zeros.
Defined.

(** ** The clamp of [advect] *)

Lemma backtrace_range_key (c : Z) (w : float) :
  1 ≤ c ≤ numCells → is_nan w = false →
  (0.5 <=? backtrace c w)%float = true ∧ (backtrace c w <=? Z2F numCells + 0.5)%float = true.
Proof.
  intros Hc Hw. rewrite backtrace_clamp. cbv zeta.
  pose proof (backtrace_position_not_nan c w Hc Hw) as Hn.
  revert Hn. generalize (Z2F c - dt * w * Z2F numCells)%float. intros p Hn.
  change (Z2F numCells + 0.5)%float with 50.5%float.
  destruct (p <? 0.5)%float eqn:Hlo; [split; reflexivity |].
  destruct (50.5 <? p)%float eqn:Hhi; [split; reflexivity |].
  split.
  - apply (leb_key 0.5 p eq_refl Hn). intros H. apply (ltb_key p 0.5 Hn eq_refl) in H. congruence.
  - apply (leb_key p 50.5 Hn eq_refl). intros H. apply (ltb_key 50.5 p eq_refl Hn) in H. congruence.
Qed.

Lemma backtrace_nan (c : Z) : backtrace c nan = nan.
Proof.
  rewrite backtrace_clamp. cbv zeta.
  assert (E : (Z2F c - dt * nan * Z2F numCells)%float = nan).
  { apply Prim2SF_inj. rewrite sub_spec, !mul_spec. change (Prim2SF nan) with S754_nan.
    destruct (Prim2SF dt), (Prim2SF (Z2F numCells)), (Prim2SF (Z2F c)); reflexivity. }
  rewrite E. reflexivity.
Qed.

(** X12. The coordinate [advect] traces back to is clamped to
    [0.5, numCells + 0.5] for every velocity that is a number, infinite ones
    included; a velocity that is [nan] passes the clamp and stays [nan]. *)
Theorem backtrace_bounds (c : Z) (w : float) :
  1 ≤ c ≤ numCells →
  (is_nan w = false →
     (0.5 <=? backtrace c w)%float = true
     ∧ (backtrace c w <=? Z2F numCells + 0.5)%float = true)
  ∧ (is_nan w = true → backtrace c w = nan).
Proof.
  intros Hc. split.
  - intros Hw. apply backtrace_range_key; assumption.
  - intros Hw. rewrite (is_nan_eq w Hw). apply backtrace_nan.
Qed.

Lemma backtrace_bounds_witness :
  (is_nan infinity = false →
     (0.5 <=? backtrace 3 infinity)%float = true
     ∧ (backtrace 3 infinity <=? Z2F numCells + 0.5)%float = true)
  ∧ (is_nan infinity = true → backtrace 3 infinity = nan).
Proof. apply (backtrace_bounds 3 infinity). unfold numCells. lia. Defined.

(** ** Advection by a fluid at rest *)

Lemma mul_one_l (a : float) : (1 * a)%float = a.
Proof.
  apply Prim2SF_inj. rewrite mul_spec.
  change (Prim2SF 1) with (S754_finite false 4503599627370496 (-52)).
  pose proof (Prim2SF_valid a) as Hv.
  destruct (Prim2SF a) as [[]|[]| |s m e]; try reflexivity.
  apply valid_cases in Hv.
  unfold SF64mul, SFmul. cbn [xorb].
  change (4503599627370496 * m)%positive with (Nat.iter (Pos.to_nat 52) xO m).
  rewrite round_aux_shift.
  - replace (-52 + e + 52) with e by lia.
    destruct (Z.leb_spec e 971); [reflexivity | lia].
  - unfold fexp, SpecFloat.emin, emax, prec; lia.
Qed.

Lemma SF_zeroish (w : float) s : Prim2SF w = S754_zero s → zeroish w.
Proof. intros H. destruct s; [right | left]; apply Prim2SF_inj; rewrite H; reflexivity. Qed.

Lemma zeroish_SF (w : float) : zeroish w → ∃ s, Prim2SF w = S754_zero s.
Proof. intros [-> | ->]; [exists false | exists true]; reflexivity. Qed.

Lemma zeroish_finite (w : float) : zeroish w → finite_number w = true.
Proof. intros [-> | ->]; reflexivity. Qed.

Lemma mul_zero_finite (b : float) : finite_number b = true → zeroish (0 * b)%float.
Proof.
  unfold finite_number. intros Hb.
  assert (H : ∃ s, Prim2SF (0 * b)%float = S754_zero s).
  { rewrite mul_spec. change (Prim2SF 0) with (S754_zero false).
    destruct (Prim2SF b) as [sb|sb| |sb mb eb]; try discriminate; eexists; reflexivity. }
  destruct H as [s H]. exact (SF_zeroish _ s H).
Qed.

(** Adding a zero to a finite number gives the number; the sign of a zero
    can change. *)
Lemma add_zeroish (a z : float) :
  finite_number a = true → zeroish z →
  (a + z)%float = a ∨ (zeroish (a + z)%float ∧ zeroish a).
Proof.
  unfold finite_number. intros Ha Hz. apply zeroish_SF in Hz as [sz Hz].
  destruct (Prim2SF a) as [sa|sa| |sa ma ea] eqn:Ea; try discriminate.
  - right. split; [|exact (SF_zeroish _ sa Ea)].
    assert (H : ∃ s, Prim2SF (a + z)%float = S754_zero s).
    { rewrite add_spec, Ea, Hz. destruct sa, sz; eexists; reflexivity. }
    destruct H as [s H]. exact (SF_zeroish _ s H).
  - left. apply Prim2SF_inj. rewrite add_spec, Ea, Hz. reflexivity.
Qed.

Lemma bilinear_rest (a b c e : float) :
  finite_number a = true → finite_number b = true →
  finite_number c = true → finite_number e = true →
  let r := (1 * (1 * a + 0 * b) + 0 * (1 * c + 0 * e))%float in
  r = a ∨ (zeroish r ∧ zeroish a).
Proof.
  intros Ha Hb Hc He. cbv zeta. rewrite !mul_one_l.
  pose proof (mul_zero_finite b Hb) as Zb. pose proof (mul_zero_finite e He) as Ze.
  assert (Fc : finite_number (c + 0 * e)%float = true).
  { destruct (add_zeroish c _ Hc Ze) as [-> | [Z _]]; [exact Hc | apply zeroish_finite, Z]. }
  pose proof (mul_zero_finite _ Fc) as Z2.
  destruct (add_zeroish a _ Ha Zb) as [-> | [Z1 Za]].
  - apply add_zeroish; assumption.
  - right. split; [|exact Za].
    destruct (add_zeroish _ _ (zeroish_finite _ Z1) Z2) as [-> | [Z _]]; assumption.
Qed.

Lemma advect_cell_value (x x_0 u_0 v_0 : array) bt i j :
  wf x → interior i j →
  load (advect x x_0 u_0 v_0 bt) (index i j)
  = fround (bilinear x_0 (backtrace i (load u_0 (index i j)))
              (backtrace j (load v_0 (index i j)))).
Proof.
  intros Hx Hi. rewrite advect_eq, advect_pass_fill.
  set (g := fun i j => bilinear x_0 (backtrace i (load u_0 (index i j)))
                         (backtrace j (load v_0 (index i j)))).
  destruct (fill_pass_cells g x Hx) as [W _].
  rewrite <- cells_eq.
  rewrite (setBoundary_cells (fill_pass g x) bt i j W) by grid.
  rewrite (bnd_interior bt _ i j Hi).
  apply (fill_pass_interior g x i j Hx Hi).
Qed.

(** X13. A fluid at rest carries nothing away: with a velocity that is zero in
    every cell, [advect] leaves in each interior cell the value of [x_0] at
    that cell (a zero may change its sign), provided the values of [x_0] are
    finite. *)
Theorem advect_at_rest (x x_0 u_0 v_0 : array) (bt : boundaryType) (i j : Z) :
  wf x → wf x_0 → is_float32 x_0 → Forall (fun w => finite_number w = true) x_0 →
  zero_field u_0 → zero_field v_0 → interior i j →
  load (advect x x_0 u_0 v_0 bt) (index i j) = load x_0 (index i j)
  ∨ (zeroish (load (advect x x_0 u_0 v_0 bt) (index i j)) ∧ zeroish (load x_0 (index i j))).
Proof.
  intros Hx H0 F0 N0 Zu Zv Hi.
  rewrite (advect_cell_value x x_0 u_0 v_0 bt i j Hx Hi).
  destruct (coord_facts i (load u_0 (index i j)) ltac:(grid)) as (-> & Fi & Si);
    [apply zero_field_cell; [exact Zu | grid] |].
  destruct (coord_facts j (load v_0 (index i j)) ltac:(grid)) as (-> & Fj & Sj);
    [apply zero_field_cell; [exact Zv | grid] |].
  unfold bilinear. cbv zeta. rewrite Fi, Fj, Si, Sj.
  rewrite !Z2F_succ by grid.
  rewrite !loadF_indexF by grid.
  change (1 - zero)%float with 1%float. change zero with 0%float.
  assert (Fin : ∀ a b, in_grid a b → finite_number (load x_0 (index a b)) = true).
  { intros a b Hg. apply (load_in_Forall (fun w => finite_number w = true) x_0 _ N0).
    apply wf_range; [exact H0 | apply index_range, Hg]. }
  destruct (bilinear_rest (load x_0 (index i j)) (load x_0 (index i (j + 1)))
              (load x_0 (index (i + 1) j)) (load x_0 (index (i + 1) (j + 1))))
    as [E | [Zr Za]]; try (apply Fin; grid).
  - left. cbv zeta in E. rewrite E.
    rewrite <- cells_eq. apply cells_float32; [exact H0 | exact F0 | grid].
  - right. cbv zeta in Zr. split; [apply zeroish_fround, Zr | exact Za].
Qed.

Lemma advect_at_rest_witness :
  load (advect zeros zeros zeros zeros continuous) (index 1 1) = load zeros (index 1 1)
  ∨ (zeroish (load (advect zeros zeros zeros zeros continuous) (index 1 1))
     ∧ zeroish (load zeros (index 1 1))).
Proof.
  apply (advect_at_rest zeros zeros zeros zeros continuous 1 1);
    first [apply length_zeros | apply float32_zeros | apply finite_zeros
          | apply zero_field_zeros | (unfold interior, numCells; lia)].
Defined.

(** ** The fields after a tick *)

Lemma velocityStep_enforced (s : State) :
  wf_state s →
  setBoundary (u (velocityStep s)) left_right_walls = u (velocityStep s)
  ∧ setBoundary (v (velocityStep s)) top_bottom_walls = v (velocityStep s).
Proof.
  destruct s as [u0 v0 d0 uP vP dP dS uS vS].
  intros (Hu & Hv & Hd & HuP & HvP & HdP & HdS & HuS & HvS).
  cbn [u v d uPrev vPrev dPrev dSource uSource vSource] in *.
  unfold velocityStep.
  pose proof (wf_diffuse uP (addSource u0 uS) left_right_walls HuP) as H1.
  pose proof (wf_diffuse vP (addSource v0 vS) top_bottom_walls HvP) as H2.
  pose proof (wf_addSource u0 uS Hu) as H3.
  pose proof (wf_addSource v0 vS Hv) as H4.
  revert H1 H2 H3 H4.
  generalize (diffuse uP (addSource u0 uS) left_right_walls).
  generalize (diffuse vP (addSource v0 vS) top_bottom_walls).
  generalize (addSource u0 uS). generalize (addSource v0 vS).
  intros a4 a3 a2 a1 H1 H2 H3 H4.
  pose proof (wf_project a1 a2 a3 a4 H1 H2 H3 H4) as W.
  destruct (project a1 a2 a3 a4) as [[[u1 v1] p1] q1]. cbn [fst snd] in W.
  destruct W as (W1 & W2 & W3 & W4).
  pose proof (wf_advect p1 u1 u1 v1 left_right_walls W3) as A1.
  pose proof (wf_advect q1 v1 u1 v1 top_bottom_walls W4) as A2.
  revert A1 A2.
  generalize (advect p1 u1 u1 v1 left_right_walls).
  generalize (advect q1 v1 u1 v1 top_bottom_walls).
  intros b2 b1 A1 A2.
  pose proof (project_enforced b1 b2 u1 v1 A1 A2) as E.
  destruct (project b1 b2 u1 v1) as [[[u2 v2] p2] q2]. cbn [fst snd] in E.
  exact E.
Qed.

Lemma densityStep_velocity (s : State) :
  u (densityStep s) = u s ∧ v (densityStep s) = v s
  ∧ uPrev (densityStep s) = uPrev s ∧ vPrev (densityStep s) = vPrev s.
Proof. destruct s as [u0 v0 d0 uP vP dP dS uS vS]. repeat split. Qed.

Lemma densityStep_enforced (s : State) :
  wf_state s → setBoundary (d (densityStep s)) continuous = d (densityStep s).
Proof.
  destruct s as [u0 v0 d0 uP vP dP dS uS vS].
  intros (Hu & Hv & Hd & HuP & HvP & HdP & HdS & HuS & HvS).
  cbn [u v d uPrev vPrev dPrev dSource uSource vSource] in *.
  unfold densityStep. cbn [d].
  apply advect_enforced, wf_addSource, Hd.
Qed.

(** X14. After every tick the three fields satisfy their boundary policies:
    [u] the left and right walls, [v] the top and bottom walls, [d] the
    continuous policy. *)
Theorem step_leaves_boundaries_enforced (s : State) :
  wf_state s →
  setBoundary (u (step s)) left_right_walls = u (step s)
  ∧ setBoundary (v (step s)) top_bottom_walls = v (step s)
  ∧ setBoundary (d (step s)) continuous = d (step s).
Proof.
  intros Hs. unfold step.
  destruct (densityStep_velocity (velocityStep s)) as (Eu & Ev & _).
  destruct (velocityStep_enforced s Hs) as [Bu Bv].
  rewrite Eu, Ev.
  split; [exact Bu |]. split; [exact Bv |].
  apply densityStep_enforced, wf_state_velocityStep, Hs.
Qed.

Lemma step_leaves_boundaries_enforced_witness :
  setBoundary (u (step initial)) left_right_walls = u (step initial)
  ∧ setBoundary (v (step initial)) top_bottom_walls = v (step initial)
  ∧ setBoundary (d (step initial)) continuous = d (step initial).
Proof. apply (step_leaves_boundaries_enforced initial). apply wf_state_initial. Defined.

Lemma same_velocity_velocityStep (s s' : State) :
  same_velocity s s' → same_velocity (velocityStep s) (velocityStep s').
Proof.
  destruct s as [u0 v0 d0 uP vP dP dS uS vS], s' as [u0' v0' d0' uP' vP' dP' dS' uS' vS'].
  unfold same_velocity. cbn [u v d uPrev vPrev dPrev dSource uSource vSource].
  intros (-> & -> & -> & -> & -> & ->).
  unfold velocityStep.
  destruct (project _ _ _ _) as [[[u1 v1] p1] q1].
  destruct (project _ _ _ _) as [[[u2 v2] p2] q2].
  cbn [u v d uPrev vPrev dPrev dSource uSource vSource]. repeat split.
Qed.

Lemma same_velocity_densityStep (s s' : State) :
  same_velocity s s' → same_velocity (densityStep s) (densityStep s').
Proof.
  destruct s as [u0 v0 d0 uP vP dP dS uS vS], s' as [u0' v0' d0' uP' vP' dP' dS' uS' vS'].
  unfold same_velocity. cbn [u v d uPrev vPrev dPrev dSource uSource vSource].
  intros H. exact H.
Qed.

(** X15. The density is a passive quantity: the velocity buffers after any
    number of ticks are the same whatever the density buffers [d], [dPrev]
    and [dSource] hold. *)
Theorem velocity_ignores_density (n : nat) (s s' : State) :
  same_velocity s s' → same_velocity (Nat.iter n step s) (Nat.iter n step s').
Proof.
  intros Hs. induction n as [|n IH]; [exact Hs |].
  change (Nat.iter (S n) step s) with (step (Nat.iter n step s)).
  change (Nat.iter (S n) step s') with (step (Nat.iter n step s')).
  unfold step. apply same_velocity_densityStep, same_velocity_velocityStep, IH.
Qed.

Lemma velocity_ignores_density_witness :
  same_velocity
    (Nat.iter 2 step initial)
    (Nat.iter 2 step (mkState zeros zeros [1%float] zeros zeros [] [2%float] zeros zeros)).
Proof.
  apply (velocity_ignores_density 2 initial
           (mkState zeros zeros [1%float] zeros zeros [] [2%float] zeros zeros)).
  repeat split.
Defined.

(** ** Ghost cells at the start of a tick *)

Lemma addSource_interior (x x' s s' : array) :
  wf x → wf x' → same_interior x x' → same_interior s s' →
  same_interior (addSource x s) (addSource x' s').
Proof.
  intros Hx Hx' Hi Hs a b Hab.
  destruct (addSource_inv x s Hx) as [_ L]. destruct (addSource_inv x' s' Hx') as [_ L'].
  rewrite L, L' by (apply index_range; grid).
  rewrite (Hi a b Hab), (Hs a b Hab). reflexivity.
Qed.

Lemma project_scratch (u v p div p' div' : array) :
  wf p → wf div → wf p' → wf div' → project u v p div = project u v p' div'.
Proof.
  intros Hp Hd Hp' Hd'. rewrite !project_unfold. cbv zeta.
  rewrite (zero_fill p Hp), (zero_fill p' Hp').
  rewrite (project_div_scratch u v div div' Hd Hd'). reflexivity.
Qed.

Lemma velocityStep_unfold (s : State) :
  velocityStep s =
  let u1 := addSource (u s) (uSource s) in
  let v1 := addSource (v s) (vSource s) in
  let r := project (diffuse (uPrev s) u1 left_right_walls)
             (diffuse (vPrev s) v1 top_bottom_walls) u1 v1 in
  let r' := project (advect r.1.2 r.1.1.1 r.1.1.1 r.1.1.2 left_right_walls)
              (advect r.2 r.1.1.2 r.1.1.1 r.1.1.2 top_bottom_walls) r.1.1.1 r.1.1.2 in
  mkState r'.1.1.1 r'.1.1.2 (d s) r'.1.2 r'.2 (dPrev s) (dSource s) (uSource s) (vSource s).
Proof.
  destruct s as [u0 v0 d0 uP vP dP dS uS vS]. unfold velocityStep. cbv zeta.
  cbn [u v d uPrev vPrev dPrev dSource uSource vSource].
  generalize (addSource u0 uS), (addSource v0 vS). intros a1 a2.
  generalize (diffuse uP a1 left_right_walls), (diffuse vP a2 top_bottom_walls). intros b1 b2.
  destruct (project b1 b2 a1 a2) as [[[u1 v1] p1] q1]. cbn [fst snd].
  destruct (project (advect p1 u1 u1 v1 left_right_walls)
              (advect q1 v1 u1 v1 top_bottom_walls) u1 v1) as [[[u2 v2] p2] q2].
  reflexivity.
Qed.

Lemma velocityStep_ghost (s s' : State) :
  wf_state s → wf_state s' →
  same_interior (u s) (u s') → same_interior (v s) (v s') →
  uPrev s = uPrev s' → vPrev s = vPrev s' →
  same_interior (uSource s) (uSource s') → same_interior (vSource s) (vSource s') →
  u (velocityStep s) = u (velocityStep s') ∧ v (velocityStep s) = v (velocityStep s')
  ∧ uPrev (velocityStep s) = uPrev (velocityStep s')
  ∧ vPrev (velocityStep s) = vPrev (velocityStep s').
Proof.
  intros (Hu & Hv & Hd & HuP & HvP & HdP & HdS & HuS & HvS)
         (Hu' & Hv' & Hd' & HuP' & HvP' & HdP' & HdS' & HuS' & HvS')
         Iu Iv Eu Ev Su Sv.
  rewrite !velocityStep_unfold. cbv zeta.
  cbn [u v d uPrev vPrev dPrev dSource uSource vSource].
  pose proof (addSource_interior _ _ _ _ Hu Hu' Iu Su) as I1.
  pose proof (addSource_interior _ _ _ _ Hv Hv' Iv Sv) as I2.
  pose proof (wf_addSource (u s) (uSource s) Hu) as W1.
  pose proof (wf_addSource (v s) (vSource s) Hv) as W2.
  pose proof (wf_addSource (u s') (uSource s') Hu') as W1'.
  pose proof (wf_addSource (v s') (vSource s') Hv') as W2'.
  rewrite <- Eu, <- Ev.
  revert I1 I2 W1 W2 W1' W2'.
  generalize (addSource (u s) (uSource s)), (addSource (v s) (vSource s)),
    (addSource (u s') (uSource s')), (addSource (v s') (vSource s')).
  intros u1 v1 u1' v1' I1 I2 W1 W2 W1' W2'.
  rewrite <- (diffuse_source_interior (uPrev s) u1 u1' left_right_walls I1).
  rewrite <- (diffuse_source_interior (vPrev s) v1 v1' top_bottom_walls I2).
  generalize (diffuse (uPrev s) u1 left_right_walls), (diffuse (vPrev s) v1 top_bottom_walls).
  intros D1 D2.
  rewrite (project_scratch D1 D2 u1' v1' u1 v1 W1' W2' W1 W2).
  repeat split.
Qed.

Lemma densityStep_ghost (t t' : State) :
  wf (d t) → wf (d t') →
  same_interior (d t) (d t') → dPrev t = dPrev t' →
  same_interior (dSource t) (dSource t') → u t = u t' → v t = v t' →
  d (densityStep t) = d (densityStep t') ∧ dPrev (densityStep t) = dPrev (densityStep t').
Proof.
  destruct t as [u0 v0 d0 uP vP dP dS uS vS], t' as [u0' v0' d0' uP' vP' dP' dS' uS' vS'].
  cbn [u v d uPrev vPrev dPrev dSource uSource vSource].
  intros Wd Wd' Id Ed Sd Eu Ev. subst dP' u0' v0'.
  unfold densityStep. cbn [d dPrev].
  pose proof (addSource_interior d0 d0' dS dS' Wd Wd' Id Sd) as I1.
  pose proof (wf_addSource d0 dS Wd) as A1.
  pose proof (wf_addSource d0' dS' Wd') as A1'.
  revert I1 A1 A1'. generalize (addSource d0 dS), (addSource d0' dS').
  intros d1 d1' I1 A1 A1'.
  rewrite <- (diffuse_source_interior dP d1 d1' continuous I1).
  generalize (diffuse dP d1 continuous). intros d2.
  rewrite (advect_any_output d1 d1' d2 u0 v0 continuous A1 A1').
  split; reflexivity.
Qed.

Lemma velocityStep_density (s : State) :
  d (velocityStep s) = d s ∧ dPrev (velocityStep s) = dPrev s.
Proof.
  destruct s as [u0 v0 d0 uP vP dP dS uS vS]. unfold velocityStep.
  destruct (project _ _ _ _) as [[[u1 v1] p1] q1].
  destruct (project _ _ _ _) as [[[u2 v2] p2] q2].
  split; reflexivity.
Qed.

Lemma step_ghost (s s' : State) :
  wf_state s → wf_state s' →
  same_interior (u s) (u s') → same_interior (v s) (v s') → same_interior (d s) (d s') →
  uPrev s = uPrev s' → vPrev s = vPrev s' → dPrev s = dPrev s' →
  same_interior (dSource s) (dSource s') →
  same_interior (uSource s) (uSource s') → same_interior (vSource s) (vSource s') →
  u (step s) = u (step s') ∧ v (step s) = v (step s') ∧ d (step s) = d (step s')
  ∧ uPrev (step s) = uPrev (step s') ∧ vPrev (step s) = vPrev (step s')
  ∧ dPrev (step s) = dPrev (step s').
Proof.
  intros Ws Ws' Iu Iv Id Eu Ev Ed Sd Su Sv.
  destruct (velocityStep_ghost s s' Ws Ws' Iu Iv Eu Ev Su Sv) as (Vu & Vv & VuP & VvP).
  pose proof (wf_state_velocityStep s Ws) as (_ & _ & Wd & _).
  pose proof (wf_state_velocityStep s' Ws') as (_ & _ & Wd' & _).
  destruct (sources_velocityStep s) as (Sd1 & _).
  destruct (sources_velocityStep s') as (Sd1' & _).
  destruct (velocityStep_density s) as [D1 D2].
  destruct (velocityStep_density s') as [D1' D2'].
  unfold step.
  revert Vu Vv VuP VvP Wd Wd' Sd1 Sd1' D1 D2 D1' D2'.
  generalize (velocityStep s), (velocityStep s'). intros t t' Vu Vv VuP VvP Wd Wd' Sd1 Sd1' D1 D2 D1' D2'.
  destruct (densityStep_velocity t) as (Tu & Tv & TuP & TvP).
  destruct (densityStep_velocity t') as (Tu' & Tv' & TuP' & TvP').
  destruct (densityStep_ghost t t' Wd Wd') as [Gd GdP].
  - rewrite D1, D1'. exact Id.
  - congruence.
  - rewrite Sd1, Sd1'. exact Sd.
  - exact Vu.
  - exact Vv.
  - repeat split; congruence.
Qed.

(** X16. The ghost cells the fields and the sources hold at the start of a tick
    have no influence: two states that agree on the interior cells of [u],
    [v], [d] and of the three sources, and on the previous buffers, reach the
    same six field buffers. *)
Theorem step_ignores_ghost_cells (s s' : State) :
  wf_state s → wf_state s' →
  same_interior (u s) (u s') → same_interior (v s) (v s') → same_interior (d s) (d s') →
  uPrev s = uPrev s' → vPrev s = vPrev s' → dPrev s = dPrev s' →
  same_interior (dSource s) (dSource s') →
  same_interior (uSource s) (uSource s') → same_interior (vSource s) (vSource s') →
  u (step s) = u (step s') ∧ v (step s) = v (step s') ∧ d (step s) = d (step s')
  ∧ uPrev (step s) = uPrev (step s') ∧ vPrev (step s) = vPrev (step s')
  ∧ dPrev (step s) = dPrev (step s').
Proof.
  intros Ws Ws' Iu Iv Id Eu Ev Ed Sd Su Sv.
  destruct (step_ghost s s' Ws Ws' Iu Iv Id Eu Ev Ed Sd Su Sv) as (H1 & H2 & H3 & H4 & H5 & H6).
  repeat split; assumption.
Qed.

Lemma step_ignores_ghost_cells_witness :
  let s := initial in
  let s' := mkState (store zeros (index 0 0) 1) zeros zeros zeros zeros zeros
              (store zeros (index 0 0) 1000) zeros zeros in
  u (step s) = u (step s') ∧ v (step s) = v (step s') ∧ d (step s) = d (step s')
  ∧ uPrev (step s) = uPrev (step s') ∧ vPrev (step s) = vPrev (step s')
  ∧ dPrev (step s) = dPrev (step s').
Proof.
  apply (step_ignores_ghost_cells initial
           (mkState (store zeros (index 0 0) 1) zeros zeros zeros zeros zeros
              (store zeros (index 0 0) 1000) zeros zeros));
    first [apply wf_state_initial | reflexivity | apply corner_store_interior
          | (intros a b Hab; reflexivity)
          | (repeat split; first [apply length_zeros | apply wf_store, length_zeros])].
Defined.

(** ** The page

    The listeners and [update], over the events the browser delivers. *)

(** *** The condition of [update] *)

Lemma bool_number_not_nan b : is_nan (bool_number b) = false.
Proof. destruct b; reflexivity. Qed.

Lemma above_one_positive (c : float) b :
  (1 <? c)%float = true → (bool_number b <? c)%float = true.
Proof.
  intros H. destruct (ltb_not_nan _ _ H) as [_ Hc].
  destruct b; [exact H |]. cbn [bool_number].
  apply (ltb_key 0 c eq_refl Hc).
  apply (ltb_key 1 c eq_refl Hc) in H.
  eapply lex_lt_trans; [|exact H].
  apply (ltb_key 0 1 eq_refl eq_refl). reflexivity.
Qed.

Lemma below_zero_negative (c : float) b :
  (0 <? c)%float = false → (bool_number b <? c)%float = false.
Proof.
  intros H. destruct b; [|exact H]. cbn [bool_number].
  destruct (1 <? c)%float eqn:E; [|reflexivity].
  pose proof (above_one_positive c false E) as H'. cbn [bool_number] in H'. congruence.
Qed.

(** X17. The condition [50 < prevMouseX < canvas.width - 50 && ...] of
    [update] does not test the mouse position: on a canvas more than 51 wide
    and high it holds for every position ([nan] included), and on a canvas at
    most 50 wide it fails for every position. *)
Theorem update_guard_ignores_mouse (cv : Canvas) (m : Mouse) :
  ((1 <? width cv - 50)%float = true → (1 <? height cv - 50)%float = true →
     update_guard cv m = true)
  ∧ ((0 <? width cv - 50)%float = false → update_guard cv m = false).
Proof.
  unfold update_guard, chained_lt. split.
  - intros Hw Hh.
    rewrite (above_one_positive _ _ Hw), (above_one_positive _ _ Hh). reflexivity.
  - intros Hw. rewrite (below_zero_negative _ _ Hw). reflexivity.
Qed.

(** *** The listeners *)

Lemma int32_ToInt32 (x : float) : int32 (ToInt32 x).
Proof.
  unfold ToInt32, int32. destruct (Prim2SF x) as [| | |s m e].
  1-3: exists 0; split; [lia | reflexivity].
  set (k := cond_Zopp s (Z.shiftl (Z.pos m) e) mod 2 ^ 32).
  assert (Hk : 0 ≤ k < 2 ^ 32) by (apply Z.mod_pos_bound; lia).
  exists (if 2 ^ 31 <=? k then k - 2 ^ 32 else k). split; [|reflexivity].
  destruct (Z.leb_spec (2 ^ 31) k); lia.
Qed.

Lemma sub_self (t : float) :
  Prim2SF (t - t)%float = S754_zero false ∨ Prim2SF (t - t)%float = S754_nan.
Proof.
  rewrite sub_spec. destruct (Prim2SF t) as [[]|[]| |s m e]; cbn; auto.
  left. unfold SF64sub, SFsub. rewrite Z.sub_diag. reflexivity.
Qed.

Lemma ToInt32_div_zero (x y : float) :
  Prim2SF y = S754_zero false ∨ Prim2SF y = S754_nan → ToInt32 (x / y) = 0%float.
Proof.
  intros Hy. unfold ToInt32. rewrite div_spec.
  destruct Hy as [-> | ->]; destruct (Prim2SF x) as [[]|[]| |s m e]; reflexivity.
Qed.

(** X18. Two events in the same millisecond set the mouse speed to 0: the
    quotient by the zero time difference is infinite or [nan], which [| 0]
    turns into 0. *)
Theorem same_instant_speed_zero (cv : Canvas) (clientX clientY t : float) (m : Mouse) :
  prevTimestamp m = Some t → truthy (Some t) = true →
  mouseSpeedX (mouse_move cv clientX clientY t m) = 0%float
  ∧ mouseSpeedY (mouse_move cv clientX clientY t m) = 0%float.
Proof.
  intros Ht Hy. unfold mouse_move. rewrite Ht, Hy. cbn [mouseSpeedX mouseSpeedY].
  split; apply ToInt32_div_zero, sub_self.
Qed.

Lemma same_instant_speed_zero_witness :
  mouseSpeedX (mouse_move (mkCanvas 600 600 0 0) 10 20 5 (mkMouse 0 0 3 4 0 0 (Some 5%float)))
  = 0%float
  ∧ mouseSpeedY (mouse_move (mkCanvas 600 600 0 0) 10 20 5 (mkMouse 0 0 3 4 0 0 (Some 5%float)))
    = 0%float.
Proof.
  apply (same_instant_speed_zero (mkCanvas 600 600 0 0) 10 20 5
           (mkMouse 0 0 3 4 0 0 (Some 5%float))); reflexivity.
Defined.

Lemma mouse_inv_mouse_move cv clientX clientY timestamp m :
  mouse_inv m → mouse_inv (mouse_move cv clientX clientY timestamp m).
Proof.
  intros (_ & _ & Sx & Sy). unfold mouse_move, mouse_inv.
  destruct (prevTimestamp m) as [t|]; [destruct (truthy (Some t)) |];
    cbn [mouseX mouseY mouseSpeedX mouseSpeedY prevMouseX prevMouseY];
    repeat split; first [assumption | apply int32_ToInt32].
Qed.

Lemma length_storeF (x : array) k w : length (storeF x k w) = length x.
Proof. unfold storeF. destruct (toIndex k); [apply length_store | reflexivity]. Qed.

Lemma wf_storeF (x : array) k w : wf x → wf (storeF x k w).
Proof. unfold wf. rewrite length_storeF. auto. Qed.

Lemma wf_fill0 (x : array) : wf x → wf (fill0 x).
Proof. unfold wf, fill0. rewrite length_replicate. auto. Qed.

Lemma wf_update_stamp x y sx sy src : wf_sources src → wf_sources (update_stamp x y sx sy src).
Proof.
  destruct src as [[dS uS] vS]. unfold wf_sources, update_stamp. cbn [fst snd].
  intros (H1 & H2 & H3). repeat split; repeat apply wf_storeF; assumption.
Qed.

Lemma wf_update_inject cv fs m src : wf_sources src → wf_sources (update_inject cv fs m src).
Proof.
  intros Hs. unfold update_inject. cbv zeta.
  apply (for_range_inv wf_sources); [exact Hs |].
  intros i t _ Ht. apply wf_update_stamp, Ht.
Qed.

Lemma wf_state_step (s : State) : wf_state s → wf_state (step s).
Proof. intros Hs. apply wf_state_densityStep, wf_state_velocityStep, Hs. Qed.

Lemma wf_state_update cv fs m s : wf_state s → wf_state (update cv fs m s).
Proof.
  intros (Hu & Hv & Hd & HuP & HvP & HdP & HdS & HuS & HvS). unfold update.
  assert (W : wf_sources (if update_guard cv m
                          then update_inject cv fs m
                                 (fill0 (dSource s), fill0 (uSource s), fill0 (vSource s))
                          else (fill0 (dSource s), fill0 (uSource s), fill0 (vSource s)))).
  { assert (W0 : wf_sources (fill0 (dSource s), fill0 (uSource s), fill0 (vSource s)))
      by (repeat split; apply wf_fill0; assumption).
    destruct (update_guard cv m); [apply wf_update_inject, W0 | exact W0]. }
  cbv zeta. destruct (if update_guard cv m then _ else _) as [[dS uS] vS].
  destruct W as (W1 & W2 & W3). cbn [fst snd] in *.
  apply (for_range_inv wf_state).
  - exact (conj Hu (conj Hv (conj Hd (conj HuP (conj HvP (conj HdP (conj W1 (conj W2 W3)))))))).
  - intros k t _ Ht. apply wf_state_step, Ht.
Qed.

Lemma fold_left_inv {A B : Type} (P : A → Prop) (f : A → B → A) (l : list B) : ∀ a,
  P a → (∀ a b, P a → P (f a b)) → P (fold_left f l a).
Proof.
  induction l as [|b l IH]; intros a Ha Hf; [exact Ha |].
  cbn [fold_left]. apply IH; [apply Hf, Ha | exact Hf].
Qed.

Lemma run_mouse_inv (cv : Canvas) (events : list event) : mouse_inv (mouse (run cv events)).
Proof.
  unfold run. apply (fold_left_inv (fun a => mouse_inv (mouse a))).
  - unfold mouse_inv, start. cbn [mouse mouseX mouseY mouseSpeedX mouseSpeedY prevMouseX prevMouseY].
    repeat split; exists 0; (split; [lia | reflexivity]).
  - intros a e Hm. destruct e as [cx cy t|touch t|w|]; cbn [handle mouse].
    + apply mouse_inv_mouse_move, Hm.
    + unfold touch_move. destruct touch as [[cx cy]|]; [apply mouse_inv_mouse_move, Hm | exact Hm].
    + exact Hm.
    + exact Hm.
Qed.

Lemma run_wf_state (cv : Canvas) (events : list event) : wf_state (fields (run cv events)).
Proof.
  unfold run. apply (fold_left_inv (fun a => wf_state (fields a))).
  - repeat split; apply length_zeros.
  - intros a e Hf. destruct e as [cx cy t|touch t|w|]; cbn [handle fields]; try exact Hf.
    apply wf_state_update, Hf.
Qed.

(** X19. Whatever events the browser delivers, between two events the previous
    mouse position equals the current one, the mouse speeds are 32-bit
    integers (never [nan] or infinite), and every buffer has its size. *)
Theorem reachable_invariant (cv : Canvas) (events : list event) :
  mouse_inv (mouse (run cv events)) ∧ wf_state (fields (run cv events)).
Proof.
  split; [apply run_mouse_inv | apply run_wf_state].
Qed.

(** *** The points [update] writes *)

Lemma load_storeF (x : array) kf w k :
  0 ≤ k < Z.of_nat (length x) →
  load (storeF x kf w) k
  = match toIndex kf with
    | Some z => if z =? k then fround w else load x k
    | None => load x k
    end.
Proof.
  intros Hk. unfold storeF. destruct (toIndex kf) as [z|]; [|reflexivity].
  destruct (Z.eqb_spec z k) as [->|Hne].
  - apply load_store_eq, Hk.
  - apply load_store_ne, Hne.
Qed.

(** Writing the same value again at the same places changes nothing. *)
Lemma storeF_again_1 (x : array) k0 w :
  storeF (storeF x k0 w) k0 w = storeF x k0 w.
Proof.
  apply array_ext; [rewrite !length_storeF; reflexivity |].
  intros k Hk. rewrite !length_storeF in Hk.
  rewrite !load_storeF by (rewrite ?length_storeF; exact Hk).
  destruct (toIndex k0) as [z0|]; [destruct (z0 =? k) |]; reflexivity.
Qed.

Lemma storeF_again_5 (x : array) k0 k1 k2 k3 k4 w :
  storeF (storeF (storeF (storeF (storeF
    (storeF (storeF (storeF (storeF (storeF x k0 w) k1 w) k2 w) k3 w) k4 w)
    k0 w) k1 w) k2 w) k3 w) k4 w
  = storeF (storeF (storeF (storeF (storeF x k0 w) k1 w) k2 w) k3 w) k4 w.
Proof.
  apply array_ext; [rewrite !length_storeF; reflexivity |].
  intros k Hk. rewrite !length_storeF in Hk.
  rewrite !load_storeF by (rewrite ?length_storeF; exact Hk).
  destruct (toIndex k0) as [z0|]; [destruct (z0 =? k) |];
    (destruct (toIndex k1) as [z1|]; [destruct (z1 =? k) |]);
    (destruct (toIndex k2) as [z2|]; [destruct (z2 =? k) |]);
    (destruct (toIndex k3) as [z3|]; [destruct (z3 =? k) |]);
    (destruct (toIndex k4) as [z4|]; [destruct (z4 =? k) |]); reflexivity.
Qed.

Lemma update_stamp_again x y sx sy src :
  update_stamp x y sx sy (update_stamp x y sx sy src) = update_stamp x y sx sy src.
Proof.
  destruct src as [[dS uS] vS]. unfold update_stamp.
  rewrite storeF_again_1, !storeF_again_5. reflexivity.
Qed.

Lemma for_from_again {T : Type} (g : T → T) (n : nat) : ∀ i s,
  (∀ t, g (g t) = g t) → for_from (S n) i (fun _ => g) s = g s.
Proof.
  induction n as [|n IH]; intros i s Hg; [reflexivity |].
  change (for_from (S (S n)) i (fun _ => g) s) with (for_from (S n) (i + 1) (fun _ => g) (g s)).
  rewrite IH by exact Hg. apply Hg.
Qed.

Lemma check_fifth_ok i : 0 ≤ i ≤ 9 → check_fifth i = true.
Proof.
  intros Hi. apply (forallb_seqZ check_fifth 0 10); [| lia].
  vm_compute. reflexivity.
Qed.

(** With [now = prev] the offset [(now - prev) * (i / 5)] does not depend on
    [i]: it is zero, or [nan] when [prev] is not finite. *)
Lemma inject_point_rest (a : float) (i : Z) :
  0 ≤ i ≤ 9 → inject_point a a i = inject_point a a 0.
Proof.
  intros Hi. unfold inject_point.
  assert (E : ∀ k, 0 ≤ k ≤ 9 → ((a - a) * (Z2F k / 5))%float = (a - a)%float).
  { intros k Hk. destruct (sub_self a) as [Hz|Hn].
    - assert (Ez : (a - a)%float = 0%float) by (apply Prim2SF_inj; rewrite Hz; reflexivity).
      rewrite Ez. apply Leibniz.eqb_spec. apply (check_fifth_ok k Hk).
    - apply Prim2SF_inj. rewrite mul_spec, Hn. reflexivity. }
  rewrite (E i Hi), (E 0) by lia. reflexivity.
Qed.

Lemma update_inject_rest cv fs m src :
  prevMouseX m = mouseX m → prevMouseY m = mouseY m →
  update_inject cv fs m src
  = update_stamp
      (inject_point (Math_round (Z2F numCells * prevMouseX m / width cv))
                    (Math_round (Z2F numCells * prevMouseX m / width cv)) 0)
      (inject_point (Math_round (Z2F numCells * prevMouseY m / height cv))
                    (Math_round (Z2F numCells * prevMouseY m / height cv)) 0)
      (mouseSpeedX m * fs) (mouseSpeedY m * fs) src.
Proof.
  intros Hx Hy. unfold update_inject. cbv zeta. rewrite <- Hx, <- Hy.
  set (X := Math_round (Z2F numCells * prevMouseX m / width cv)).
  set (Y := Math_round (Z2F numCells * prevMouseY m / height cv)).
  set (g := update_stamp (inject_point X X 0) (inject_point Y Y 0)
              (mouseSpeedX m * fs) (mouseSpeedY m * fs)).
  rewrite (for_range_ext 0 (10 - 1) _ (fun _ => g)).
  - unfold for_range. change (Z.to_nat (10 - 1 + 1 - 0)) with 10%nat.
    apply for_from_again. intros t. apply update_stamp_again.
  - intros i t Hi. unfold g. rewrite (inject_point_rest X i), (inject_point_rest Y i) by lia.
    reflexivity.
Qed.

(** X20. In every state the page can reach, the ten points [update] writes are
    one and the same point: the listeners leave [prevMouse = mouse], so the
    segment between the two positions has no length, and the loop writes the
    same eleven elements ten times. *)
Theorem update_writes_one_point (cv : Canvas) (events : list event) (src : array * array * array) :
  let m := mouse (run cv events) in
  let fs := fluidSpeed (run cv events) in
  let X := Math_round (Z2F numCells * prevMouseX m / width cv) in
  let Y := Math_round (Z2F numCells * prevMouseY m / height cv) in
  (∀ i, 0 ≤ i ≤ 9 →
     inject_point X (Math_round (Z2F numCells * mouseX m / width cv)) i = inject_point X X 0
     ∧ inject_point Y (Math_round (Z2F numCells * mouseY m / height cv)) i = inject_point Y Y 0)
  ∧ update_inject cv fs m src
    = update_stamp (inject_point X X 0) (inject_point Y Y 0)
        (mouseSpeedX m * fs) (mouseSpeedY m * fs) src.
Proof.
  cbv zeta. destruct (run_mouse_inv cv events) as (Hx & Hy & _).
  split.
  - intros i Hi. rewrite <- Hx, <- Hy. split; apply inject_point_rest, Hi.
  - apply update_inject_rest; assumption.
Qed.

(** *** The cells [update] writes around a point *)

Lemma check_neighbour_ok a : 0 ≤ a ≤ numCells + 1 → check_neighbour a = true.
Proof.
  intros Ha. apply (forallb_seqZ check_neighbour 0 (numCells + 2)); [| lia].
  vm_compute. reflexivity.
Qed.

Lemma check_index_wide_ok a b :
  -1 ≤ a ≤ numCells + 2 → -1 ≤ b ≤ numCells + 2 → check_index_wide a b = true.
Proof.
  intros Ha Hb.
  assert (H : forallb (fun a => forallb (check_index_wide a) (seqZ (-1) (numCells + 4)))
                (seqZ (-1) (numCells + 4)) = true) by (vm_compute; reflexivity).
  apply (forallb_seqZ (check_index_wide a) (-1) (numCells + 4)); [| lia].
  apply (forallb_seqZ (fun a => forallb (check_index_wide a) (seqZ (-1) (numCells + 4)))
           (-1) (numCells + 4)); [exact H | lia].
Qed.

Lemma toIndex_wide a b :
  -1 ≤ a ≤ numCells + 2 → -1 ≤ b ≤ numCells + 2 →
  toIndex (indexF (Z2F a) (Z2F b)) = Some (index a b).
Proof.
  intros Ha Hb. pose proof (check_index_wide_ok a b Ha Hb) as H. unfold check_index_wide in H.
  destruct (toIndex (indexF (Z2F a) (Z2F b))) as [k|]; [|discriminate].
  apply Z.eqb_eq in H. congruence.
Qed.

Lemma neighbours a :
  0 ≤ a ≤ numCells + 1 →
  (Z2F a - 1)%float = Z2F (a - 1) ∧ (Z2F a + 1)%float = Z2F (a + 1).
Proof.
  intros Ha. pose proof (check_neighbour_ok a Ha) as H. unfold check_neighbour in H.
  apply andb_true_iff in H as [H1 H2].
  split; apply Leibniz.eqb_spec; assumption.
Qed.

(** A store through the offset of a cell or of a neighbour of a cell, read
    at an interior cell. *)
Lemma load_storeF_cell (x : array) a b w i j :
  wf x → -1 ≤ a ≤ numCells + 2 → -1 ≤ b ≤ numCells + 2 → interior i j →
  load (storeF x (indexF (Z2F a) (Z2F b)) w) (index i j)
  = if (a =? i) && (b =? j) then fround w else load x (index i j).
Proof.
  intros Hx Ha Hb Hi.
  rewrite load_storeF by (apply wf_range; [exact Hx | apply index_range; grid]).
  rewrite (toIndex_wide a b Ha Hb).
  destruct (Z.eqb_spec (index a b) (index i j)) as [E|E];
    destruct (Z.eqb_spec a i); destruct (Z.eqb_spec b j); cbn [andb]; try reflexivity;
    exfalso; grid.
Qed.

Lemma stamp5_cells (x : array) a b w i j :
  wf x → in_grid a b → interior i j →
  load (storeF (storeF (storeF (storeF (storeF x
          (indexF (Z2F a) (Z2F b)) w)
          (indexF (Z2F a - 1) (Z2F b)) w)
          (indexF (Z2F a + 1) (Z2F b)) w)
          (indexF (Z2F a) (Z2F b - 1)) w)
          (indexF (Z2F a) (Z2F b + 1)) w) (index i j)
  = if Z.abs (i - a) + Z.abs (j - b) <=? 1 then fround w else load x (index i j).
Proof.
  intros Hx Hg Hi.
  destruct (neighbours a ltac:(grid)) as [-> ->].
  destruct (neighbours b ltac:(grid)) as [-> ->].
  rewrite !load_storeF_cell by (first [repeat apply wf_storeF; exact Hx | grid]).
  destruct (Z.eqb_spec a i); destruct (Z.eqb_spec b j);
    destruct (Z.eqb_spec (a - 1) i); destruct (Z.eqb_spec (a + 1) i);
    destruct (Z.eqb_spec (b - 1) j); destruct (Z.eqb_spec (b + 1) j);
    destruct (Z.leb_spec (Z.abs (i - a) + Z.abs (j - b)) 1); cbn [andb];
    try reflexivity; exfalso; lia.
Qed.

(** X21. Around a grid point [(a, b)], one pass of the loop of [update] sets
    the density source to 1000 at the cell itself and the velocity sources to
    the given speeds at the cell and its four neighbours; no other interior
    cell changes: a write that leaves the grid lands on a ghost cell or on no
    element. *)
Theorem update_stamp_cross (a b : Z) (sx sy : float) (dS uS vS : array) (i j : Z) :
  wf dS → wf uS → wf vS → in_grid a b → interior i j →
  let src := update_stamp (Z2F a) (Z2F b) sx sy (dS, uS, vS) in
  load src.1.1 (index i j)
    = (if (a =? i) && (b =? j) then 1000%float else load dS (index i j))
  ∧ load src.1.2 (index i j)
    = (if Z.abs (i - a) + Z.abs (j - b) <=? 1 then fround sx else load uS (index i j))
  ∧ load src.2 (index i j)
    = (if Z.abs (i - a) + Z.abs (j - b) <=? 1 then fround sy else load vS (index i j)).
Proof.
  intros Hd Hu Hv Hg Hi. cbv zeta. unfold update_stamp. cbn [fst snd].
  split; [|split].
  - rewrite load_storeF_cell by (first [assumption | grid]). reflexivity.
  - apply stamp5_cells; assumption.
  - apply stamp5_cells; assumption.
Qed.

Lemma update_stamp_cross_witness :
  let src := update_stamp (Z2F 0) (Z2F 1) 3 4 (zeros, zeros, zeros) in
  load src.1.1 (index 1 1)
    = (if (0 =? 1) && (1 =? 1) then 1000%float else load zeros (index 1 1))
  ∧ load src.1.2 (index 1 1)
    = (if Z.abs (1 - 0) + Z.abs (1 - 1) <=? 1 then fround 3 else load zeros (index 1 1))
  ∧ load src.2 (index 1 1)
    = (if Z.abs (1 - 0) + Z.abs (1 - 1) <=? 1 then fround 4 else load zeros (index 1 1)).
Proof.
  apply (update_stamp_cross 0 1 3 4 zeros zeros zeros 1 1);
    first [apply length_zeros | (unfold in_grid, interior, numCells; lia)].
Defined.

(** ** Before the first pointer event *)

Lemma interior_zero_same (x : array) : interior_zero x → same_interior x zeros.
Proof.
  intros Hx a b Hab. rewrite (Hx a b Hab). symmetry. apply load_zeros, index_range. grid.
Qed.

Lemma same_interior_refl (x : array) : same_interior x x.
Proof. intros a b _. reflexivity. Qed.

Lemma step_at_rest (s : State) :
  wf_state s → fields_at_rest s →
  interior_zero (dSource s) → interior_zero (uSource s) → interior_zero (vSource s) →
  fields_at_rest (step s).
Proof.
  intros Ws (Zu & Zv & Zd & ZuP & ZvP & ZdP) Id Iu Iv.
  pose (s' := mkState (u s) (v s) (d s) (uPrev s) (vPrev s) (dPrev s) zeros zeros zeros).
  assert (Zs' : zero_state s').
  { pose proof zero_field_zeros as Z.
    exact (conj Zu (conj Zv (conj Zd (conj ZuP (conj ZvP (conj ZdP (conj Z (conj Z Z)))))))). }
  assert (Ws' : wf_state s').
  { destruct Ws as (Hu & Hv & Hd & HuP & HvP & HdP & _).
    exact (conj Hu (conj Hv (conj Hd (conj HuP (conj HvP (conj HdP
             (conj length_zeros (conj length_zeros length_zeros)))))))). }
  destruct (step_ghost s s' Ws Ws') as (E1 & E2 & E3 & E4 & E5 & E6);
    try apply same_interior_refl; try reflexivity;
    try (apply interior_zero_same; assumption).
  assert (Z1 : zero_state (step s'))
    by (unfold step; apply zero_state_densityStep, zero_state_velocityStep, Zs').
  destruct Z1 as (Z1 & Z2 & Z3 & Z4 & Z5 & Z6 & _).
  unfold fields_at_rest. rewrite E1, E2, E3, E4, E5, E6.
  exact (conj Z1 (conj Z2 (conj Z3 (conj Z4 (conj Z5 Z6))))).
Qed.

Lemma sources_step (s : State) :
  dSource (step s) = dSource s ∧ uSource (step s) = uSource s ∧ vSource (step s) = vSource s.
Proof.
  unfold step.
  destruct (sources_velocityStep s) as (Vd & Vu & Vv).
  destruct (sources_densityStep (velocityStep s)) as (Dd & Du & Dv).
  repeat split; congruence.
Qed.

Lemma substeps_at_rest (s : State) :
  wf_state s → fields_at_rest s →
  interior_zero (dSource s) → interior_zero (uSource s) → interior_zero (vSource s) →
  wf_state (for_range 0 (numSubSteps - 1) (fun _ => step) s)
  ∧ fields_at_rest (for_range 0 (numSubSteps - 1) (fun _ => step) s).
Proof.
  intros Ws Zs Id Iu Iv.
  pose (Q := fun t : State => wf_state t ∧ fields_at_rest t ∧ interior_zero (dSource t)
                              ∧ interior_zero (uSource t) ∧ interior_zero (vSource t)).
  assert (HQ : Q (for_range 0 (numSubSteps - 1) (fun _ => step) s)).
  { apply (for_range_inv Q); [exact (conj Ws (conj Zs (conj Id (conj Iu Iv)))) |].
    intros k t _ (Wt & Zt & Idt & Iut & Ivt).
    destruct (sources_step t) as (Sd & Su & Sv).
    split; [apply wf_state_step, Wt |].
    split; [apply step_at_rest; assumption |].
    rewrite Sd, Su, Sv. auto. }
  destruct HQ as (H1 & H2 & _). split; assumption.
Qed.

Lemma load_fill0 (x : array) k : 0 ≤ k < Z.of_nat (length x) → load (fill0 x) k = 0%float.
Proof.
  intros Hk. apply load_lookup; [lia |].
  unfold fill0. apply lookup_replicate_2. lia.
Qed.

Lemma interior_zero_fill0 (x : array) : wf x → interior_zero (fill0 x).
Proof.
  intros Hx a b Hab. apply load_fill0, wf_range; [exact Hx |]. apply index_range. grid.
Qed.

Lemma storeF_ghost (x : array) k w :
  ghost_key k = true → interior_zero x → interior_zero (storeF x k w).
Proof.
  intros Hk Hx a b Hab. unfold ghost_key in Hk. unfold storeF.
  destruct (toIndex k) as [z|]; [|apply Hx, Hab].
  apply Z.ltb_lt in Hk. rewrite load_store_ne by grid. apply Hx, Hab.
Qed.

Lemma rest_keys (x y : float) :
  x = 0%float ∨ x = nan → y = 0%float ∨ y = nan → check_rest_keys x y = true.
Proof. intros [-> | ->] [-> | ->]; vm_compute; reflexivity. Qed.

Lemma rest_coordinate (w : float) :
  let q := Math_round (Z2F numCells * 0 / w) in
  inject_point q q 0 = 0%float ∨ inject_point q q 0 = nan.
Proof.
  cbv zeta.
  assert (Hq : (Z2F numCells * 0 / w)%float = 0%float ∨ (Z2F numCells * 0 / w)%float = neg_zero
               ∨ (Z2F numCells * 0 / w)%float = nan).
  { change (Z2F numCells * 0)%float with 0%float.
    assert (H : Prim2SF (0 / w)%float = S754_zero false ∨ Prim2SF (0 / w)%float = S754_zero true
                ∨ Prim2SF (0 / w)%float = S754_nan).
    { rewrite div_spec. change (Prim2SF 0) with (S754_zero false).
      destruct (Prim2SF w) as [[]|[]| |[] m e]; cbn; auto. }
    destruct H as [H|[H|H]]; [left | right; left | right; right];
      apply Prim2SF_inj; rewrite H; reflexivity. }
  destruct Hq as [-> | [-> | ->]]; [left | left | right]; vm_compute; reflexivity.
Qed.

Lemma update_stamp_ghost x y sx sy (src : array * array * array) :
  check_rest_keys x y = true →
  interior_zero src.1.1 ∧ interior_zero src.1.2 ∧ interior_zero src.2 →
  interior_zero (update_stamp x y sx sy src).1.1
  ∧ interior_zero (update_stamp x y sx sy src).1.2
  ∧ interior_zero (update_stamp x y sx sy src).2.
Proof.
  destruct src as [[dS uS] vS]. unfold check_rest_keys, update_stamp. cbn [fst snd].
  intros Hk (H1 & H2 & H3).
  repeat (apply andb_true_iff in Hk; destruct Hk as [Hk ?]).
  repeat split; repeat (apply storeF_ghost; [assumption |]); assumption.
Qed.

Lemma update_at_rest cv fs (m : Mouse) (s : State) :
  mouseX m = 0%float → mouseY m = 0%float → prevMouseX m = 0%float → prevMouseY m = 0%float →
  wf_state s → fields_at_rest s →
  wf_state (update cv fs m s) ∧ fields_at_rest (update cv fs m s).
Proof.
  intros Mx My Px Py Ws Zs.
  pose proof Ws as (Hu & Hv & Hd & HuP & HvP & HdP & HdS & HuS & HvS).
  unfold update.
  set (src := (fill0 (dSource s), fill0 (uSource s), fill0 (vSource s))).
  assert (W0 : wf_sources src) by (repeat split; apply wf_fill0; assumption).
  assert (I0 : interior_zero src.1.1 ∧ interior_zero src.1.2 ∧ interior_zero src.2)
    by (repeat split; apply interior_zero_fill0; assumption).
  assert (H : wf_sources (if update_guard cv m then update_inject cv fs m src else src)
              ∧ interior_zero (if update_guard cv m then update_inject cv fs m src else src).1.1
              ∧ interior_zero (if update_guard cv m then update_inject cv fs m src else src).1.2
              ∧ interior_zero (if update_guard cv m then update_inject cv fs m src else src).2).
  { destruct (update_guard cv m); [|exact (conj W0 I0)].
    split; [apply wf_update_inject, W0 |].
    rewrite update_inject_rest by congruence. rewrite Px, Py.
    apply update_stamp_ghost; [|exact I0].
    apply rest_keys; apply rest_coordinate. }
  cbv zeta. destruct (if update_guard cv m then _ else _) as [[dS uS] vS].
  destruct H as ((W1 & W2 & W3) & I1 & I2 & I3). cbn [fst snd] in *.
  apply substeps_at_rest; cbn [u v d uPrev vPrev dPrev dSource uSource vSource];
    try assumption.
  exact (conj Hu (conj Hv (conj Hd (conj HuP (conj HvP (conj HdP (conj W1 (conj W2 W3)))))))).
Qed.

Lemma run_at_rest (cv : Canvas) (events : list event) : ∀ a,
  Forall no_pointer events →
  mouse a = mouse start → wf_state (fields a) → fields_at_rest (fields a) →
  wf_state (fields (fold_left (handle cv) events a))
  ∧ fields_at_rest (fields (fold_left (handle cv) events a)).
Proof.
  induction events as [|e events IH]; intros a He Hm Hw Hz; [split; assumption |].
  apply Forall_cons in He as [He Hes]. cbn [fold_left].
  destruct e as [cx cy t|[touch|] t|w|]; cbn [no_pointer] in He; try contradiction;
    cbn [handle].
  - apply IH; [exact Hes | exact Hm | exact Hw | exact Hz].
  - apply IH; [exact Hes | exact Hm | exact Hw | exact Hz].
  - destruct (update_at_rest cv (fluidSpeed a) (mouse a) (fields a)) as [W Z];
      try (rewrite Hm; reflexivity); try assumption.
    apply IH; [exact Hes | exact Hm | exact W | exact Z].
Qed.

(** X22. Until the mouse or a finger moves the fluid stays at rest: after any
    number of animation frames and slider inputs, every cell of [d], [u] and
    [v] compares equal to zero.  The sources [update] writes in that state
    land on ghost cells or on no element, and a tick does not read them
    there. *)
Theorem at_rest_until_pointer_moves (cv : Canvas) (events : list event) :
  Forall no_pointer events →
  let s := fields (run cv events) in
  (wf (d s) ∧ Forall (fun w => is_zero w = true) (d s)) ∧
  (wf (u s) ∧ Forall (fun w => is_zero w = true) (u s)) ∧
  (wf (v s) ∧ Forall (fun w => is_zero w = true) (v s)).
Proof.
  intros He. cbv zeta. unfold run.
  destruct (run_at_rest cv events start He eq_refl) as [_ (Zu & Zv & Zd & _)].
  - repeat split; apply length_zeros.
  - pose proof zero_field_zeros as Z. exact (conj Z (conj Z (conj Z (conj Z (conj Z Z))))).
  - split; [apply zero_field_all_zero, Zd |].
    split; [apply zero_field_all_zero, Zu | apply zero_field_all_zero, Zv].
Qed.

Lemma at_rest_until_pointer_moves_witness :
  let s := fields (run (mkCanvas 600 600 0 0) [Frame; SliderInput 3; Frame]) in
  (wf (d s) ∧ Forall (fun w => is_zero w = true) (d s)) ∧
  (wf (u s) ∧ Forall (fun w => is_zero w = true) (u s)) ∧
  (wf (v s) ∧ Forall (fun w => is_zero w = true) (v s)).
Proof.
  apply (at_rest_until_pointer_moves (mkCanvas 600 600 0 0) [Frame; SliderInput 3; Frame]).
  repeat constructor.
Defined.

(** ** Element accesses of [addSource] and [setBoundary] *)

Lemma addSourceC_ok (x s : array) :
  wf x → wf s → addSourceC x s = Some (addSource x s).
Proof.
  intros Hx Hs. unfold addSourceC, addSource.
  apply (for_rangeC_ok wf); [exact Hx |].
  intros k t Hk Ht. split; [|apply wf_store, Ht].
  rewrite (loadC_ok t k) by (apply wf_range; [exact Ht | lia]). rewrite bind_Some.
  rewrite (loadC_ok s k) by (apply wf_range; [exact Hs | lia]). rewrite bind_Some.
  apply storeC_ok, wf_range; [exact Ht | lia].
Qed.

Lemma addSourceC_short (x s : array) :
  wf x → Z.of_nat (length s) < size → addSourceC x s = None.
Proof.
  intros Hx Hs. unfold addSourceC, for_rangeC.
  pose (P := fun (n : Z) (o : option array) =>
    (n ≤ Z.of_nat (length s) → ∃ y, o = Some y ∧ wf y)
    ∧ (Z.of_nat (length s) < n → o = None)).
  assert (HP : P (size - 1 + 1)
                 (for_range 0 (size - 1)
                    (fun i o => o ≫= (fun x0 =>
                       a ← loadC x0 i; b ← loadC s i; storeC x0 i (a + dt * b)%float))
                    (Some x))).
  { apply (for_range_ind P).
    - unfold size, numCells. lia.
    - split; [intros _; exists x; split; [reflexivity | exact Hx] | lia].
    - intros n o Hn [H1 H2]. split.
      + intros Hle. destruct H1 as (y & -> & Hy); [lia |].
        rewrite bind_Some.
        rewrite (loadC_ok y n) by (apply wf_range; [exact Hy | lia]). rewrite bind_Some.
        rewrite (loadC_ok s n) by lia. rewrite bind_Some.
        exists (store y n (load y n + dt * load s n)). split; [|apply wf_store, Hy].
        apply storeC_ok, wf_range; [exact Hy | lia].
      + intros Hlt. destruct (Z.eq_dec n (Z.of_nat (length s))) as [E|E].
        * destruct H1 as (y & -> & Hy); [lia |].
          rewrite bind_Some.
          rewrite (loadC_ok y n) by (apply wf_range; [exact Hy | lia]). rewrite bind_Some.
          assert (L : loadC s n = None).
          { unfold loadC. destruct (Z.ltb_spec n 0); [reflexivity |].
            apply lookup_ge_None. lia. }
          rewrite L. reflexivity.
        * rewrite H2 by lia. reflexivity. }
  destruct HP as [_ H2]. apply H2. lia.
Qed.

(** X23. On buffers of [size] elements every element access of [addSource] and
    of [setBoundary] is in bounds (the checked run succeeds and returns what
    the plain run returns); with a source buffer that is too short,
    [addSource] reads past its end. *)
Theorem addSource_setBoundary_in_bounds (x s : array) (bt : boundaryType) :
  wf x →
  (wf s → addSourceC x s = Some (addSource x s))
  ∧ (Z.of_nat (length s) < size → addSourceC x s = None)
  ∧ setBoundaryC x bt = Some (setBoundary x bt).
Proof.
  intros Hx. split; [|split].
  - intros Hs. apply addSourceC_ok; assumption.
  - intros Hs. apply addSourceC_short; assumption.
  - apply setBoundaryC_ok, Hx.
Qed.

Lemma addSource_setBoundary_in_bounds_witness :
  (wf zeros → addSourceC zeros zeros = Some (addSource zeros zeros))
  ∧ (Z.of_nat (length zeros) < size → addSourceC zeros zeros = None)
  ∧ setBoundaryC zeros continuous = Some (setBoundary zeros continuous).
Proof. apply (addSource_setBoundary_in_bounds zeros zeros continuous). apply length_zeros. Defined.
